(** * hier_config: the configuration tree, its match engine and the
      remediation algorithms, embedded from the Python sources.

    Layout: Python values first (strings, the error type), then the match
    engine of [child.py], the range helper of [platforms/functions.py], the
    object store holding [HConfig] and [HConfigChild] instances, the tree
    operations of [base.py], [child.py] and [root.py] written in a
    state-and-exception monad over that store, and finally the theorems. *)

From Stdlib Require Import String Ascii List ZArith Lia Bool DecimalString.
From stdpp Require Import base list strings.

Local Open Scope nat_scope.

(* ===================================================================== *)
(** ** Python strings *)
(* ===================================================================== *)

(** A Python [str] is a sequence of code points; a [string] here is a
    sequence of code points below 256, one [ascii] each.  [str.isspace] on
    these: TAB..CR, FS..US, space, NEL (133) and the no-break space (160). *)
Definition is_space (c : ascii) : bool :=
  let n := nat_of_ascii c in
  ((9 <=? n) && (n <=? 13)) || ((28 <=? n) && (n <=? 32))
  || (n =? 133) || (n =? 160).

Fixpoint lstrip (s : string) : string :=
  match s with
  | String c r => if is_space c then lstrip r else s
  | EmptyString => EmptyString
  end.

Fixpoint string_rev (s : string) : string :=
  match s with
  | EmptyString => EmptyString
  | String c r => string_rev r +:+ String c EmptyString
  end.

Definition rstrip (s : string) : string := string_rev (lstrip (string_rev s)).

(** [str.strip()] *)
Definition strip (s : string) : string := rstrip (lstrip s).

(** [text.startswith(p)] for one string. *)
Definition str_startswith (text p : string) : bool := String.prefix p text.

(** [text.endswith(p)] for one string. *)
Definition str_endswith (text p : string) : bool :=
  String.prefix (string_rev p) (string_rev text).

(** [p in text] *)
Fixpoint str_contains (text p : string) : bool :=
  String.prefix p text ||
  match text with
  | EmptyString => false
  | String _ r => str_contains r p
  end.

Fixpoint string_drop (n : nat) (s : string) : string :=
  match n, s with
  | S k, String _ r => string_drop k r
  | _, _ => s
  end.

(** [text.removeprefix(p)] *)
Definition removeprefix (text p : string) : string :=
  if str_startswith text p then string_drop (String.length p) text else text.

(** [s.split(sep=c)] for a one-character separator: never the empty list. *)
Fixpoint split_on (sep : ascii) (s : string) : list string :=
  match s with
  | EmptyString => [EmptyString]
  | String c r =>
      if Ascii.eqb c sep then EmptyString :: split_on sep r
      else match split_on sep r with
           | w :: ws => String c w :: ws
           | [] => [String c EmptyString]
           end
  end.

(** [s.split()]: the maximal runs of characters that are not white space.
    [cur] is the word being read. *)
Fixpoint py_split_from (cur : string) (s : string) : list string :=
  match s with
  | EmptyString =>
      match cur with EmptyString => [] | _ => [cur] end
  | String c r =>
      if is_space c then
        match cur with
        | EmptyString => py_split_from EmptyString r
        | _ => cur :: py_split_from EmptyString r
        end
      else py_split_from (cur +:+ String c EmptyString) r
  end.

Definition py_split (s : string) : list string := py_split_from EmptyString s.

(** [sep.join(words)] *)
Fixpoint py_join (sep : string) (ws : list string) : string :=
  match ws with
  | [] => EmptyString
  | [w] => w
  | w :: r => w +:+ sep +:+ py_join sep r
  end.

Definition is_digit (c : ascii) : bool :=
  let n := nat_of_ascii c in (48 <=? n) && (n <=? 57).

Fixpoint all_digits (s : string) : bool :=
  match s with
  | EmptyString => true
  | String c r => is_digit c && all_digits r
  end.

(** [s.isdecimal()] *)
Definition isdecimal (s : string) : bool :=
  match s with EmptyString => false | _ => all_digits s end.

(** The exceptions the modelled code raises. *)
Inductive exn : Type :=
| ValueError
| DuplicateChildError
| KeyError
| TypeError
| IndexError
| AttributeError.

(* ===================================================================== *)
(** ** The match engine ([HConfigChild.matches]) *)
(* ===================================================================== *)

(** [equals: str | SetLikeOfStr | None].  [SetLikeOfStr] comes from
    [model.py], which is not among the sources at hand; by its name it takes
    the set-like values of Python, a [frozenset] and a plain [set]. *)
Inductive equals_arg : Type :=
| EqualsStr (s : string)
| EqualsFrozenset (l : list string)
| EqualsSet (l : list string).

(** [startswith], [endswith], [contains]: [str | tuple[str, ...] | None] *)
Inductive affix_arg : Type :=
| AffixStr (s : string)
| AffixTuple (l : list string).

Record MatchRule : Type := mkMatchRule {
  equals : option equals_arg;
  startswith : option affix_arg;
  endswith : option affix_arg;
  contains : option affix_arg;
  re_search : option string;
}.

Definition match_all : MatchRule := mkMatchRule None None None None None.

(** [re.search] belongs to Python's library.  A regular-expression engine is
    described by the spans it accepts: [re_span p t i j] says that pattern
    [p] matches the text [t] from offset [i] up to offset [j].  [re.search]
    succeeds when some span of the text is accepted, [re.fullmatch] when the
    whole text is.  The patterns meant are those that compile: on another
    one [re.search] raises [re.error], a path that is not followed here. *)
Definition regex_engine : Type := string -> string -> nat -> nat -> bool.

Definition search (re_span : regex_engine) (p text : string) : bool :=
  existsb (fun i =>
    existsb (fun j => re_span p text i j)
            (seq i (S (String.length text) - i)))
    (seq 0 (S (String.length text))).

Definition fullmatch (re_span : regex_engine) (p text : string) : bool :=
  re_span p text 0 (String.length text).

(** The engine of patterns without metacharacters: a span is accepted when
    it spells the pattern. *)
Definition literal_engine : regex_engine :=
  fun p t i j => (i <=? j) && String.eqb (String.substring i (j - i) t) p.

(** [text.startswith(arg)] and [text.endswith(arg)] with a string or a tuple. *)
Definition startswith_any (text : string) (a : affix_arg) : bool :=
  match a with
  | AffixStr p => str_startswith text p
  | AffixTuple ps => existsb (str_startswith text) ps
  end.

Definition endswith_any (text : string) (a : affix_arg) : bool :=
  match a with
  | AffixStr p => str_endswith text p
  | AffixTuple ps => existsb (str_endswith text) ps
  end.

(** The body of [matches], one early [return False] after the other, in the
    order of the source: equals, startswith, re_search, endswith, contains.
    The equals filter tests [isinstance(equals, str)] and then
    [isinstance(equals, frozenset)]: a plain [set] passes both tests by and
    filters nothing. *)
Definition matches_text (re_span : regex_engine) (text : string)
    (r : MatchRule) : bool :=
  if match equals r with
     | Some (EqualsStr s) => negb (String.eqb text s)
     | Some (EqualsFrozenset l) => negb (existsb (String.eqb text) l)
     | Some (EqualsSet _) => false
     | None => false
     end then false
  else if match startswith r with
          | Some a => negb (startswith_any text a)
          | None => false
          end then false
  else if match re_search r with
          | Some p => negb (search re_span p text)
          | None => false
          end then false
  else if match endswith r with
          | Some a => negb (endswith_any text a)
          | None => false
          end then false
  else if match contains r with
          | Some (AffixStr c) => negb (str_contains text c)
          | Some (AffixTuple cs) => negb (existsb (str_contains text) cs)
          | None => false
          end then false
  else true.

(** What a rule asks of a text, in the words of the specification: every
    field that is present is satisfied, a set or a tuple by one of its
    members, [re_search] by a span anywhere in the text. *)
Definition has_prefix (t p : string) : Prop := exists r, t = p +:+ r.
Definition has_suffix (t p : string) : Prop := exists l, t = l +:+ p.
Definition has_substring (t c : string) : Prop := exists l r, t = l +:+ c +:+ r.

Definition found_anywhere (re_span : regex_engine) (p t : string) : Prop :=
  exists i j, i <= j /\ j <= String.length t /\ re_span p t i j = true.

Definition satisfies_equals (t : string) (o : option equals_arg) : Prop :=
  match o with
  | None => True
  | Some (EqualsStr s) => t = s
  | Some (EqualsFrozenset l) => In t l
  | Some (EqualsSet l) => In t l
  end.

(** [equals] is a plain [set]. *)
Definition equals_is_plain_set (r : MatchRule) : bool :=
  match equals r with Some (EqualsSet _) => true | _ => false end.

Definition satisfies_affix (one : string -> string -> Prop) (t : string)
    (o : option affix_arg) : Prop :=
  match o with
  | None => True
  | Some (AffixStr p) => one t p
  | Some (AffixTuple ps) => exists p, In p ps /\ one t p
  end.

Definition satisfies_re_search (re_span : regex_engine) (t : string)
    (o : option string) : Prop :=
  match o with
  | None => True
  | Some p => found_anywhere re_span p t
  end.

Definition satisfies (re_span : regex_engine) (t : string) (r : MatchRule)
    : Prop :=
  satisfies_equals t (equals r) /\
  satisfies_affix has_prefix t (startswith r) /\
  satisfies_affix has_suffix t (endswith r) /\
  satisfies_affix has_substring t (contains r) /\
  satisfies_re_search re_span t (re_search r).

(* ===================================================================== *)
(** ** [platforms/functions.py]: [expand_range] *)
(* ===================================================================== *)

Definition digit_val (c : ascii) : Z := Z.of_nat (nat_of_ascii c - 48).

(** Decimal digits, single underscores allowed between two digits. *)
Fixpoint int_digits (acc : Z) (s : string) : option Z :=
  match s with
  | EmptyString => Some acc
  | String c r =>
      if is_digit c then int_digits (acc * 10 + digit_val c) r
      else if Ascii.eqb c "_"%char then
        match r with
        | String d r' =>
            if is_digit d then int_digits (acc * 10 + digit_val d) r'
            else None
        | EmptyString => None
        end
      else None
  end.

Definition int_unsigned (s : string) : option Z :=
  match s with
  | String c _ => if is_digit c then int_digits 0 s else None
  | EmptyString => None
  end.

(** The white space [int] skips at both ends of a string: TAB..CR and
    space, and also NEL and the no-break space, which it rewrites to a space
    first; not FS..US, which [str.strip] would take off. *)
Definition is_int_space (c : ascii) : bool :=
  let n := nat_of_ascii c in
  ((9 <=? n) && (n <=? 13)) || (n =? 32) || (n =? 133) || (n =? 160).

Fixpoint int_lstrip (s : string) : string :=
  match s with
  | String c r => if is_int_space c then int_lstrip r else s
  | EmptyString => EmptyString
  end.

Definition int_strip (s : string) : string :=
  string_rev (int_lstrip (string_rev (int_lstrip s))).

Fixpoint count_digits (s : string) : nat :=
  match s with
  | EmptyString => 0
  | String c r => (if is_digit c then 1 else 0) + count_digits r
  end.

(** [sys.get_int_max_str_digits()], as the interpreter starts with it. *)
Definition int_max_str_digits : nat := 4300.

(** [int(s)] on a string: surrounding white space, an optional sign, decimal
    digits, no more of them than the interpreter converts;
    [inl ValueError] for anything else. *)
Definition py_int (s : string) : exn + Z :=
  let body :=
    match int_strip s with
    | String c r =>
        if Ascii.eqb c "+"%char then int_unsigned r
        else if Ascii.eqb c "-"%char then Z.opp <$> int_unsigned r
        else int_unsigned (String c r)
    | EmptyString => None
    end in
  match body with
  | Some z =>
      if int_max_str_digits <? count_digits s then inl ValueError else inr z
  | None => inl ValueError
  end.

(** [range(start, stop)] *)
Definition py_range (start stop : Z) : list Z :=
  map (fun i => (start + Z.of_nat i)%Z) (seq 0 (Z.to_nat (stop - start))).

(** [int] belongs to Python: the helper is written over any conversion
    [int], and [expand_range] is the helper over [py_int]. *)

(** One turn of the loop of [expand_range] on the component [number_range],
    [numbers] being the list built so far. *)
Definition expand_range_step_with (int : string -> exn + Z)
    (numbers : list Z) (number_range : string) : exn + list Z :=
  let start_stop := split_on "-"%char number_range in
  let after_pair :=
    if length start_stop =? 2 then
      match int (nth 0 start_stop "") with
      | inl e => inl e
      | inr start =>
          match int (nth 1 start_stop "") with
          | inl e => inl e
          | inr stop => inr (numbers ++ py_range start (stop + 1))
          end
      end
    else inr numbers in
  match after_pair with
  | inl e => inl e
  | inr numbers1 =>
      if length start_stop =? 1 then
        match int (nth 0 start_stop "") with
        | inl e => inl e
        | inr n => inr (numbers1 ++ [n])
        end
      else inl ValueError
  end.

Fixpoint expand_range_loop_with (int : string -> exn + Z)
    (numbers : list Z) (parts : list string) : exn + list Z :=
  match parts with
  | [] => inr numbers
  | p :: ps =>
      match expand_range_step_with int numbers p with
      | inl e => inl e
      | inr numbers1 => expand_range_loop_with int numbers1 ps
      end
  end.

Definition expand_range_with (int : string -> exn + Z)
    (number_range_str : string) : exn + list Z :=
  match expand_range_loop_with int [] (split_on ","%char number_range_str)
  with
  | inl e => inl e
  | inr numbers =>
      if negb (length (nodup Z.eq_dec numbers) =? length numbers)
      then inl ValueError
      else inr numbers
  end.

Definition expand_range_step : list Z -> string -> exn + list Z :=
  expand_range_step_with py_int.

Definition expand_range_loop : list Z -> list string -> exn + list Z :=
  expand_range_loop_with py_int.

Definition expand_range : string -> exn + list Z :=
  expand_range_with py_int.

(* ===================================================================== *)
(** ** Python sets and dictionaries *)
(* ===================================================================== *)

(** A [set[str]] is a duplicate-free list; only membership is observable. *)
Definition set_mem (x : string) (s : list string) : bool :=
  existsb (String.eqb x) s.

(** [s.add(x)] *)
Definition set_add (s : list string) (x : string) : list string :=
  if set_mem x s then s else s ++ [x].

(** [s.update(xs)] *)
Definition set_update (s xs : list string) : list string :=
  fold_left set_add xs s.

(** [s.difference_update(xs)] *)
Definition set_difference (s xs : list string) : list string :=
  List.filter (fun x => negb (set_mem x xs)) s.

Definition set_subset (s1 s2 : list string) : bool :=
  forallb (fun x => set_mem x s2) s1.

(** [s1 == s2] on sets *)
Definition set_eq (s1 s2 : list string) : bool :=
  set_subset s1 s2 && set_subset s2 s1.

(** A [dict[str, HConfigChild]] keeps its keys in insertion order, which
    [get_children] observes through [items()]: an association list with
    distinct keys. *)
Abbreviation pydict := (list (string * nat)).

(** [d.get(k)] *)
Fixpoint dict_get (k : string) (d : pydict) : option nat :=
  match d with
  | [] => None
  | (k', v) :: r => if String.eqb k k' then Some v else dict_get k r
  end.

(** [k in d] *)
Definition dict_mem (k : string) (d : pydict) : bool :=
  match dict_get k d with Some _ => true | None => false end.

(** [d[k] = v]: an existing key keeps its place. *)
Fixpoint dict_set (k : string) (v : nat) (d : pydict) : pydict :=
  match d with
  | [] => [(k, v)]
  | (k', v') :: r =>
      if String.eqb k k' then (k', v) :: r else (k', v') :: dict_set k v r
  end.

(** [d.setdefault(k, v)] *)
Definition dict_setdefault (k : string) (v : nat) (d : pydict) : pydict :=
  if dict_mem k d then d else d ++ [(k, v)].

(* ===================================================================== *)
(** ** The object store *)
(* ===================================================================== *)

(** Objects are named by their allocation number. *)
Abbreviation ident := nat.

(** [model.Instance] *)
Record Instance : Type := mkInstance {
  inst_id : ident;
  inst_comments : list string;
  inst_tags : list string;
}.

(** One record for both classes: [is_root] tells an [HConfig] from an
    [HConfigChild].  An [HConfig] has the slots [children], [children_dict]
    and [_driver]; its [parent] property is itself.  An [HConfigChild] has all
    the others ([facts] and [real_indent_level], which no modelled operation
    touches, are left out). *)
Record HConfigNode : Type := mkNode {
  is_root : bool;
  _driver : nat;
  _text : string;
  parent : ident;
  children : list ident;
  children_dict : pydict;
  _tags : list string;
  comments : list string;
  new_in_config : bool;
  order_weight : Z;
  instances : list Instance;
}.

Abbreviation Store := (list HConfigNode).

Definition with_text (t : string) (x : HConfigNode) : HConfigNode :=
  mkNode (is_root x) (_driver x) t (parent x) (children x) (children_dict x)
         (_tags x) (comments x) (new_in_config x) (order_weight x)
         (instances x).

Definition with_children (l : list ident) (x : HConfigNode) : HConfigNode :=
  mkNode (is_root x) (_driver x) (_text x) (parent x) l (children_dict x)
         (_tags x) (comments x) (new_in_config x) (order_weight x)
         (instances x).

Definition with_children_dict (d : pydict) (x : HConfigNode) : HConfigNode :=
  mkNode (is_root x) (_driver x) (_text x) (parent x) (children x) d
         (_tags x) (comments x) (new_in_config x) (order_weight x)
         (instances x).

Definition with_tags (t : list string) (x : HConfigNode) : HConfigNode :=
  mkNode (is_root x) (_driver x) (_text x) (parent x) (children x)
         (children_dict x) t (comments x) (new_in_config x) (order_weight x)
         (instances x).

Definition with_comments (c : list string) (x : HConfigNode) : HConfigNode :=
  mkNode (is_root x) (_driver x) (_text x) (parent x) (children x)
         (children_dict x) (_tags x) c (new_in_config x) (order_weight x)
         (instances x).

Definition with_new_in_config (b : bool) (x : HConfigNode) : HConfigNode :=
  mkNode (is_root x) (_driver x) (_text x) (parent x) (children x)
         (children_dict x) (_tags x) (comments x) b (order_weight x)
         (instances x).

Definition with_order_weight (w : Z) (x : HConfigNode) : HConfigNode :=
  mkNode (is_root x) (_driver x) (_text x) (parent x) (children x)
         (children_dict x) (_tags x) (comments x) (new_in_config x) w
         (instances x).

Definition with_instances (i : list Instance) (x : HConfigNode) : HConfigNode :=
  mkNode (is_root x) (_driver x) (_text x) (parent x) (children x)
         (children_dict x) (_tags x) (comments x) (new_in_config x)
         (order_weight x) i.

(** [HConfig(driver)]: the object allocated at [self_id]. *)
Definition new_HConfig (self_id : ident) (driver : nat) : HConfigNode :=
  mkNode true driver EmptyString self_id [] [] [] [] false 0%Z [].

(** [HConfigChild(parent, text)] *)
Definition new_HConfigChild (p : ident) (t : string) : HConfigNode :=
  mkNode false 0 (strip t) p [] [] [] [] false 0%Z [].

(** What a call leaves behind: a value, an exception, or [Abort] when the
    model itself gives up (recursion budget spent, or an identifier that names
    no object, which a Python reference cannot do).  The store is kept in all
    three, so that statements about the objects cover every way a call ends. *)
Inductive outcome (A : Type) : Type :=
| Ok (a : A) (st : Store)
| Raise (e : exn) (st : Store)
| Abort (st : Store).
Arguments Ok {A} a st.
Arguments Raise {A} e st.
Arguments Abort {A} st.

Definition M (A : Type) : Type := Store -> outcome A.

Definition ret {A} (a : A) : M A := fun st => Ok a st.
Definition raise {A} (e : exn) : M A := fun st => Raise e st.
Definition abort {A} : M A := fun st => Abort st.

Definition bind {A B} (m : M A) (k : A -> M B) : M B :=
  fun st =>
    match m st with
    | Ok a st' => k a st'
    | Raise e st' => Raise e st'
    | Abort st' => Abort st'
    end.

Declare Scope hc_scope.
Delimit Scope hc_scope with hc.
Notation "'let*' x ':=' m 'in' k" := (bind m (fun x => k))
  (at level 10, x pattern, m at level 100, k at level 200) : hc_scope.
Notation "m ';;' k" := (bind m (fun _ => k))
  (at level 100, k at level 200, right associativity) : hc_scope.
Local Open Scope hc_scope.

(** Reading the store. *)
Definition read {A} (f : Store -> option A) : M A :=
  fun st => match f st with Some a => Ok a st | None => Abort st end.

Definition get_node (n : ident) : M HConfigNode := read (fun st => st !! n).

(** Writing one object. *)
Definition update (n : ident) (f : HConfigNode -> HConfigNode) : M unit :=
  fun st =>
    match st !! n with
    | Some x => Ok tt (<[n := f x]> st)
    | None => Abort st
    end.

(** Allocating one object, which learns its own name. *)
Definition alloc (mk : ident -> HConfigNode) : M ident :=
  fun st => Ok (length st) (st ++ [mk (length st)]).

(** [for x in l: body(x)].  The list is read when the loop starts: the loops
    of the modelled code run over the children of one object while their
    bodies write to others. *)
Fixpoint for_each {A} (l : list A) (body : A -> M unit) : M unit :=
  match l with
  | [] => ret tt
  | x :: r => body x ;; for_each r body
  end.

Definition state_of {A} (o : outcome A) : Store :=
  match o with Ok _ st => st | Raise _ st => st | Abort st => st end.

(* ===================================================================== *)
(** ** The platform policy *)
(* ===================================================================== *)

(** Modelled from the spec: [platforms/driver_base.py] is not part of the
    sources at hand.  The driver is what section 4.3 of the specification and
    the call sites in [base.py] and [child.py] say it is: rule tables, each
    rule being given by its [lineage], and three queries that read the tree
    and return without changing anything. *)
Record HConfigDriverBase : Type := mkDriver {
  negation_prefix : string;
  parent_allows_duplicate_child_rules : list (list MatchRule);
  negation_default_when_rules : list (list MatchRule);
  idempotent_commands_avoid_rules : list (list MatchRule);
  sectional_overwrite_rules : list (list MatchRule);
  sectional_overwrite_no_negate_rules : list (list MatchRule);
  negation_negate_with_check : Store -> ident -> option string;
  idempotent_acl_check : Store -> ident -> list ident -> bool;
  idempotent_for : Store -> ident -> list ident -> option ident;
}.

(** What the embedding is parametric in: the regular-expression engine and
    the drivers an [HConfig] can be created with, [_driver] naming one. *)
Class Platform : Type := {
  re_span : regex_engine;
  drivers : nat -> HConfigDriverBase;
}.

(** [tag: str | Iterable[str]]: a string, or a collection that can be read
    more than once (a list, a tuple, a set, a frozenset), given by its
    elements.  The argument object is handed on to every leaf as it is; an
    iterator that its first reading uses up is not among the values here. *)
Inductive tag_arg : Type :=
| TagStr (s : string)
| TagIter (l : list string).

(** What a generator has produced when it stops, and how it stopped. *)
Inductive gen_end : Type :=
| GenDone
| GenRaise (e : exn)
| GenAbort.

Section Tree.
Context {P : Platform}.

(* --------------------------------------------------------------------- *)
(** *** Navigation: [root], [driver], [lineage] *)

(** [root] property: [HConfig.root] is [self], [HConfigChild.root] is
    [self.parent.root]. *)
Fixpoint root_of (fuel : nat) (st : Store) (n : ident) : option ident :=
  match fuel with
  | 0 => None
  | S f =>
      nd ← st !! n;
      if is_root nd then Some n else root_of f st (parent nd)
  end.

(** [driver] property.  A chain of parents visits every object at most once,
    so the number of objects bounds its length. *)
Definition driver (st : Store) (n : ident) : option HConfigDriverBase :=
  r ← root_of (length st) st n;
  nd ← st !! r;
  Some (drivers (_driver nd)).

(** [lineage()]: [HConfig.lineage] yields nothing, [HConfigChild.lineage]
    yields the parent's lineage and then [self]. *)
Fixpoint lineage_from (fuel : nat) (st : Store) (n : ident)
    : option (list ident) :=
  match fuel with
  | 0 => None
  | S f =>
      nd ← st !! n;
      if is_root nd then Some []
      else l ← lineage_from f st (parent nd); Some (l ++ [n])
  end.

Definition lineage (st : Store) (n : ident) : option (list ident) :=
  lineage_from (length st) st n.

(** [text] property *)
Definition text (st : Store) (n : ident) : option string :=
  _text <$> st !! n.

(** [HConfigChild.matches] *)
Definition matches (st : Store) (n : ident) (r : MatchRule) : option bool :=
  t ← text st n; Some (matches_text re_span t r).

(** [all(child.matches(...) for (child, rule) in pairs)] *)
Fixpoint all_matches (st : Store) (pairs : list (ident * MatchRule))
    : option bool :=
  match pairs with
  | [] => Some true
  | (c, r) :: ps =>
      match matches st c r with
      | Some true => all_matches st ps
      | other => other
      end
  end.

(** [HConfigChild.lineage_test] *)
Definition lineage_test (st : Store) (n : ident) (rules : list MatchRule)
    : option bool :=
  l ← lineage st n;
  if length rules =? length l
  then all_matches st (combine (rev l) (rev rules))
  else Some false.

(** [any(self.lineage_test(rule.lineage) for rule in rules)] *)
Fixpoint any_lineage_test (st : Store) (n : ident)
    (rules : list (list MatchRule)) : option bool :=
  match rules with
  | [] => Some false
  | r :: rs =>
      match lineage_test st n r with
      | Some false => any_lineage_test st n rs
      | other => other
      end
  end.

(** [_duplicate_child_allowed_check]: [False] on an [HConfig]. *)
Definition _duplicate_child_allowed_check (st : Store) (n : ident)
    : option bool :=
  nd ← st !! n;
  if is_root nd then Some false
  else d ← driver st n;
       any_lineage_test st n (parent_allows_duplicate_child_rules d).

(** [is_branch]: [True] on an [HConfig], [bool(self.children)] on a child. *)
Definition is_branch (nd : HConfigNode) : bool :=
  is_root nd || negb (length (children nd) =? 0).

Definition is_leaf (nd : HConfigNode) : bool := negb (is_branch nd).

(* --------------------------------------------------------------------- *)
(** *** The child list and its index *)

Fixpoint build_dict (st : Store) (cs : list ident) (d : pydict)
    : option pydict :=
  match cs with
  | [] => Some d
  | c :: r => t ← text st c; build_dict st r (dict_setdefault t c d)
  end.

(** [rebuild_children_dict] *)
Definition rebuild_children_dict (p : ident) : M unit :=
  let* nd := get_node p in
  let* d := read (fun st => build_dict st (children nd) []) in
  update p (with_children_dict d).

Definition append_child (c : ident) (x : HConfigNode) : HConfigNode :=
  with_children (children x ++ [c]) x.

(** [add_child] *)
Definition add_child (p : ident) (t : string)
    (raise_on_duplicate force_duplicate : bool) : M ident :=
  if String.eqb t EmptyString then raise ValueError
  else
    let* nd := get_node p in
    if negb (dict_mem t (children_dict nd)) then
      let* new_item := alloc (fun _ => new_HConfigChild p t) in
      update p (append_child new_item) ;;
      update p (fun x =>
        with_children_dict (dict_set t new_item (children_dict x)) x) ;;
      ret new_item
    else
      let* allowed := read (fun st => _duplicate_child_allowed_check st p) in
      if allowed || force_duplicate then
        let* new_item := alloc (fun _ => new_HConfigChild p t) in
        update p (append_child new_item) ;;
        ret new_item
      else if raise_on_duplicate then raise DuplicateChildError
      else read (fun _ => dict_get t (children_dict nd)).

(** [add_children] *)
Definition add_children (p : ident) (lines : list string) : M unit :=
  for_each lines (fun line => let* _ := add_child p line false false in ret tt).

(** [delete_child]: [c is not child] compares object identities. *)
Definition delete_child (p child : ident) : M unit :=
  let* nd := get_node p in
  let kept := List.filter (fun c => negb (c =? child)) (children nd) in
  update p (with_children kept) ;;
  if negb (length (children nd) =? length kept)
  then rebuild_children_dict p
  else ret tt.

Fixpoint filter_text_ne (st : Store) (t : string) (cs : list ident)
    : option (list ident) :=
  match cs with
  | [] => Some []
  | c :: r =>
      tc ← text st c;
      k ← filter_text_ne st t r;
      Some (if String.eqb tc t then k else c :: k)
  end.

(** [delete_child_by_text] *)
Definition delete_child_by_text (p : ident) (t : string) : M unit :=
  let* nd := get_node p in
  if dict_mem t (children_dict nd) then
    let* kept := read (fun st => filter_text_ne st t (children nd)) in
    update p (with_children kept) ;;
    rebuild_children_dict p
  else ret tt.

(** [delete_all_children] *)
Definition delete_all_children (p : ident) : M unit :=
  update p (with_children []) ;;
  rebuild_children_dict p.

(** [HConfigChild.delete] *)
Definition delete (n : ident) : M unit :=
  let* nd := get_node n in
  delete_child (parent nd) n.

(** [HConfigChild.move] *)
Definition move (n new_parent : ident) : M unit :=
  update new_parent (append_child n) ;;
  rebuild_children_dict new_parent ;;
  delete n.

(** The setter of the [text] property. *)
Definition set_text (n : ident) (value : string) : M unit :=
  update n (with_text (strip value)) ;;
  let* nd := get_node n in
  rebuild_children_dict (parent nd).

(* --------------------------------------------------------------------- *)
(** *** Tags *)

(** The getter of the [tags] property, for both classes. *)
Fixpoint tags (fuel : nat) (st : Store) (n : ident) : option (list string) :=
  match fuel with
  | 0 => None
  | S f =>
      nd ← st !! n;
      if is_branch nd then
        fold_left (fun found c =>
                     acc ← found; t ← tags f st c; Some (set_update acc t))
                  (children nd) (Some [])
      else Some (_tags nd)
  end.

(** [tags_add] *)
Fixpoint tags_add (fuel : nat) (n : ident) (tag : tag_arg) : M unit :=
  match fuel with
  | 0 => abort
  | S f =>
      let* nd := get_node n in
      if is_branch nd then
        for_each (children nd) (fun c => tags_add f c tag)
      else
        match tag with
        | TagStr s => update n (fun x => with_tags (set_add (_tags x) s) x)
        | TagIter l => update n (fun x => with_tags (set_update (_tags x) l) x)
        end
  end.

(** [tags_remove]: [set.remove] raises [KeyError] on a missing element,
    [difference_update] does not. *)
Fixpoint tags_remove (fuel : nat) (n : ident) (tag : tag_arg) : M unit :=
  match fuel with
  | 0 => abort
  | S f =>
      let* nd := get_node n in
      if is_branch nd then
        for_each (children nd) (fun c => tags_remove f c tag)
      else
        match tag with
        | TagStr s =>
            if set_mem s (_tags nd)
            then update n (fun x =>
                   with_tags (List.filter (fun y => negb (String.eqb y s))
                                          (_tags x)) x)
            else raise KeyError
        | TagIter l =>
            update n (fun x => with_tags (set_difference (_tags x) l) x)
        end
  end.

(** The setter of the [tags] property, [value] being a collection that can
    be read more than once, given by its elements. *)
Fixpoint set_tags (fuel : nat) (n : ident) (value : list string) : M unit :=
  match fuel with
  | 0 => abort
  | S f =>
      let* nd := get_node n in
      if is_branch nd then
        for_each (children nd) (fun c => set_tags f c value)
      else update n (with_tags (fold_left set_add value []))
  end.

(* --------------------------------------------------------------------- *)
(** *** Equality of nodes, [sorted], [list.index] *)

Fixpoint all_opt {A} (g : A -> option bool) (l : list A) : option bool :=
  match l with
  | [] => Some true
  | x :: r =>
      match g x with
      | Some true => all_opt g r
      | other => other
      end
  end.

(** [sorted(children)]: [__lt__] compares [order_weight], and the sort is
    stable. *)
Fixpoint insert_by_weight (x : ident * Z) (l : list (ident * Z))
    : list (ident * Z) :=
  match l with
  | [] => [x]
  | y :: r =>
      if (snd y <? snd x)%Z then y :: insert_by_weight x r else x :: l
  end.

Fixpoint with_weights (st : Store) (l : list ident)
    : option (list (ident * Z)) :=
  match l with
  | [] => Some []
  | c :: r =>
      nd ← st !! c;
      ws ← with_weights st r;
      Some ((c, order_weight nd) :: ws)
  end.

Definition sorted (st : Store) (l : list ident) : option (list ident) :=
  ws ← with_weights st l;
  Some (map fst (fold_right insert_by_weight [] ws)).

(** [a == b].  Two [HConfigChild] compare text, tags, comments,
    [new_in_config], then their sorted children pairwise; two [HConfig]
    compare their sorted children; objects of the two classes both answer
    [NotImplemented] and are then told apart by identity. *)
Fixpoint node_eq (fuel : nat) (st : Store) (a b : ident) : option bool :=
  match fuel with
  | 0 => None
  | S f =>
      na ← st !! a;
      nb ← st !! b;
      let compare_children :=
        if negb (length (children na) =? length (children nb)) then Some false
        else
          sa ← sorted st (children na);
          sb ← sorted st (children nb);
          all_opt (fun xy => node_eq f st (fst xy) (snd xy)) (combine sa sb) in
      match is_root na, is_root nb with
      | true, true => compare_children
      | false, false =>
          if negb (String.eqb (_text na) (_text nb)) then Some false
          else
            ta ← tags f st a;
            tb ← tags f st b;
            if negb (set_eq ta tb) then Some false
            else if negb (set_eq (comments na) (comments nb)) then Some false
            else if negb (Bool.eqb (new_in_config na) (new_in_config nb))
            then Some false
            else compare_children
      | _, _ => Some false
      end
  end.

(** Containers compare their items by identity first, then by [==]. *)
Definition item_eq (fuel : nat) (st : Store) (a b : ident) : option bool :=
  if a =? b then Some true else node_eq fuel st a b.

(** [l.index(x)]: [Some None] stands for the [ValueError] of a missing item. *)
Fixpoint list_index (fuel : nat) (st : Store) (l : list ident) (x : ident)
    : option (option nat) :=
  match l with
  | [] => Some None
  | y :: r =>
      match item_eq fuel st y x with
      | None => None
      | Some true => Some (Some 0)
      | Some false =>
          match list_index fuel st r x with
          | Some (Some i) => Some (Some (S i))
          | other => other
          end
      end
  end.

(** [l1 != l2] on lists of nodes. *)
Definition list_ne (fuel : nat) (st : Store) (l1 l2 : list ident)
    : option bool :=
  if negb (length l1 =? length l2) then Some true
  else negb <$> all_opt (fun xy => item_eq fuel st (fst xy) (snd xy))
                        (combine l1 l2).

(* --------------------------------------------------------------------- *)
(** *** [get_children] and [get_child] *)

(** The closing loop of [get_children]: the children of the slice that
    [matches] accepts, in order. *)
Fixpoint scan (st : Store) (cs : list ident) (r : MatchRule)
    : list ident * gen_end :=
  match cs with
  | [] => ([], GenDone)
  | c :: cs' =>
      match matches st c r with
      | None => ([], GenAbort)
      | Some b =>
          let '(ys, e) := scan st cs' r in
          (if b then c :: ys else ys, e)
      end
  end.

(** The loop over [children_dict.items()] of the [startswith] branch:
    what it yields, and either how the generator ends there ([for ... else:
    return]) or the child at which the loop stopped with [break]. *)
Fixpoint startswith_loop (allowed : option bool) (sw : affix_arg)
    (items : pydict) : list ident * (gen_end + ident) :=
  match items with
  | [] => ([], inl GenDone)
  | (child_text, child) :: r =>
      if startswith_any child_text sw then
        match allowed with
        | None => ([child], inl GenAbort)
        | Some true => ([child], inr child)
        | Some false =>
            let '(ys, e) := startswith_loop allowed sw r in (child :: ys, e)
        end
      else startswith_loop allowed sw r
  end.

(** After a fast path yielded [child]: the scan of
    [children[children.index(child) + 1:]]. *)
Definition scan_after (fuel : nat) (st : Store) (nd : HConfigNode)
    (child : ident) (r : MatchRule) : list ident * gen_end :=
  match list_index fuel st (children nd) child with
  | None => ([], GenAbort)
  | Some None => ([], GenRaise ValueError)
  | Some (Some i) => scan st (drop (S i) (children nd)) r
  end.

(** [get_children]: the sequence the generator yields when it is run to its
    end on the store [st]. *)
Definition get_children (fuel : nat) (st : Store) (p : ident) (r : MatchRule)
    : list ident * gen_end :=
  match st !! p with
  | None => ([], GenAbort)
  | Some nd =>
      match equals r, startswith r, endswith r, contains r, re_search r with
      | Some (EqualsStr s), None, None, None, None =>
          match dict_get s (children_dict nd) with
          | Some child =>
              let '(ys, e) := scan_after fuel st nd child r in (child :: ys, e)
          | None => ([], GenDone)
          end
      | None, Some sw, None, None, None =>
          match startswith_loop (_duplicate_child_allowed_check st p) sw
                                (children_dict nd) with
          | (ys, inl e) => (ys, e)
          | (ys, inr child) =>
              let '(zs, e) := scan_after fuel st nd child r in (ys ++ zs, e)
          end
      | _, _, _, _, _ => scan st (children nd) r
      end
  end.

(** [get_child]: [next(get_children(...), None)]. *)
Definition get_child (fuel : nat) (p : ident) (r : MatchRule)
    : M (option ident) :=
  fun st =>
    match get_children fuel st p r with
    | (c :: _, _) => Ok (Some c) st
    | ([], GenDone) => Ok None st
    | ([], GenRaise e) => Raise e st
    | ([], GenAbort) => Abort st
    end.

Definition rule_equals (s : string) : MatchRule :=
  mkMatchRule (Some (EqualsStr s)) None None None None.

Definition rule_startswith (s : string) : MatchRule :=
  mkMatchRule None (Some (AffixStr s)) None None None.

(* --------------------------------------------------------------------- *)
(** *** Copies *)

(** [instance] property *)
Definition instance (fuel : nat) (st : Store) (n : ident) : option Instance :=
  nd ← st !! n;
  t ← tags fuel st n;
  Some (mkInstance n (comments nd) t).

(** [add_shallow_copy_of] *)
Definition add_shallow_copy_of (fuel : nat) (p child_to_add : ident)
    (merged : bool) : M ident :=
  let* t := read (fun st => text st child_to_add) in
  let* new_child := add_child p t false false in
  (if merged then
     let* i := read (fun st => instance fuel st child_to_add) in
     update new_child (fun x => with_instances (instances x ++ [i]) x)
   else ret tt) ;;
  let* src := get_node child_to_add in
  update new_child (fun x =>
    with_comments (set_update (comments x) (comments src)) x) ;;
  let* src := get_node child_to_add in
  update new_child (with_order_weight (order_weight src)) ;;
  let* src := get_node child_to_add in
  (if is_leaf src then
     let* ts := read (fun st => tags fuel st child_to_add) in
     tags_add fuel new_child (TagIter ts)
   else ret tt) ;;
  ret new_child.

(** [add_deep_copy_of] *)
Fixpoint add_deep_copy_of (fuel : nat) (p child_to_add : ident)
    (merged : bool) : M ident :=
  match fuel with
  | 0 => abort
  | S f =>
      let* new_child := add_shallow_copy_of f p child_to_add merged in
      let* src := get_node child_to_add in
      for_each (children src) (fun child =>
        let* _ := add_deep_copy_of f new_child child merged in ret tt) ;;
      ret new_child
  end.

(** [all_children()] *)
Fixpoint all_children (fuel : nat) (st : Store) (n : ident)
    : option (list ident) :=
  match fuel with
  | 0 => None
  | S f =>
      nd ← st !! n;
      fold_right (fun c rest =>
                    below ← all_children f st c;
                    tl ← rest;
                    Some (c :: below ++ tl))
                 (Some []) (children nd)
  end.

(* --------------------------------------------------------------------- *)
(** *** Negation *)

(** [self._negation_prefix], read by [text_without_negation] and by
    [_swap_negation].  No class of the sources has the name: [HConfigBase]
    and [HConfigChild] declare [__slots__] without it, nothing assigns it,
    and there is neither a class attribute, nor a property, nor a
    [__getattr__].  The driver has [negation_prefix], another name, and it is
    not the driver that is asked.  Reading the attribute raises
    [AttributeError]. *)
Definition _negation_prefix (n : ident) : M string :=
  get_node n ;; raise AttributeError.

(** [text_without_negation] property *)
Definition text_without_negation (n : ident) : M string :=
  let* t := read (fun st => text st n) in
  let* p := _negation_prefix n in
  ret (removeprefix t p).

(** [_swap_negation] *)
Definition _swap_negation (n : ident) : M ident :=
  let* t := read (fun st => text st n) in
  let* p := _negation_prefix n in
  (if str_startswith t p then
     let* t' := text_without_negation n in
     set_text n t'
   else
     let* p := _negation_prefix n in
     let* t' := read (fun st => text st n) in
     set_text n (p +:+ t')) ;;
  ret n.

(** [_default] *)
Definition _default (n : ident) : M ident :=
  let* t' := text_without_negation n in
  set_text n ("default " +:+ t') ;;
  ret n.

(** [negation_default_when_check] *)
Definition negation_default_when_check (st : Store) (n config : ident)
    : option bool :=
  d ← driver st n;
  any_lineage_test st config (negation_default_when_rules d).

(** [negate].  A replacement text is used when it is a non-empty string. *)
Definition negate (n : ident) : M ident :=
  let* d := read (fun st => driver st n) in
  let* negate_with :=
    read (fun st => Some (negation_negate_with_check d st n)) in
  match negate_with with
  | Some (String c r) => set_text n (String c r) ;; ret n
  | _ =>
      let* dflt := read (fun st => negation_default_when_check st n n) in
      if dflt then _default n else _swap_negation n
  end.

(** [HConfigDriverJuniperJUNOS.swap_negation], with the two prefixes the
    class declares: ["set "] and ["delete "]. *)
Definition junos_declaration_prefix : string := "set ".
Definition junos_negation_prefix : string := "delete ".

Definition junos_swap_negation (child : ident) : M ident :=
  let* t := read (fun st => text st child) in
  if str_startswith t junos_negation_prefix then
    let* t' := text_without_negation child in
    set_text child (junos_declaration_prefix +:+ t') ;;
    ret child
  else if str_startswith t junos_declaration_prefix then
    set_text child
      (junos_negation_prefix +:+ removeprefix t junos_declaration_prefix) ;;
    ret child
  else raise ValueError.

(* --------------------------------------------------------------------- *)
(** *** Remediation: [config_to_get_to] *)

(** [is_idempotent_command] *)
Definition is_idempotent_command (st : Store) (n : ident)
    (other_children : list ident) : option bool :=
  d ← driver st n;
  match any_lineage_test st n (idempotent_commands_avoid_rules d) with
  | Some false =>
      if idempotent_acl_check d st n other_children then Some true
      else Some (match idempotent_for d st n other_children with
                 | Some _ => true
                 | None => false
                 end)
  | Some true => Some false
  | None => None
  end.

(** [sectional_overwrite_check] *)
Definition sectional_overwrite_check (st : Store) (n : ident) : option bool :=
  d ← driver st n;
  any_lineage_test st n (sectional_overwrite_rules d).

(** [sectional_overwrite_no_negate_check] *)
Definition sectional_overwrite_no_negate_check (st : Store) (n : ident)
    : option bool :=
  d ← driver st n;
  any_lineage_test st n (sectional_overwrite_no_negate_rules d).

(** [node.comments.add(c)] *)
Definition comments_add (n : ident) (c : string) : M unit :=
  update n (fun x => with_comments (set_add (comments x) c) x).

(** [overwrite_with] *)
Definition overwrite_with (fuel : nat) (self other delta : ident)
    (negate_first : bool) : M unit :=
  let* so := get_node self in
  let* oo := get_node other in
  let* differ := read (fun st => list_ne fuel st (children oo) (children so)) in
  if differ then
    (if negate_first then
       let* t := read (fun st => text st self) in
       delete_child_by_text delta t ;;
       let* t := read (fun st => text st self) in
       let* added := add_child delta t false false in
       let* deleted := negate added in
       comments_add deleted "dropping section"
     else ret tt) ;;
    let* so := get_node self in
    if negb (length (children so) =? 0) then
      let* t := read (fun st => text st self) in
      delete_child_by_text delta t ;;
      let* new_item := add_deep_copy_of fuel delta self false in
      comments_add new_item "re-create section"
    else ret tt
  else ret tt.

Definition nat_to_string (n : nat) : string :=
  DecimalString.NilZero.string_of_uint (Nat.to_uint n).

(** [_config_to_get_to_left] *)
Definition _config_to_get_to_left (self target delta : ident) : M unit :=
  let* so := get_node self in
  for_each (children so) (fun self_child =>
    let* t := read (fun st => text st self_child) in
    let* tgt := get_node target in
    if dict_mem t (children_dict tgt) then ret tt
    else
      let* idem := read (fun st =>
        is_idempotent_command st self_child (children tgt)) in
      if idem then ret tt
      else
        let* t := read (fun st => text st self_child) in
        let* deleted := add_child delta t false false in
        let* _ := negate deleted in
        let* sc := get_node self_child in
        if negb (length (children sc) =? 0) then
          comments_add deleted
            ("removes " +:+ nat_to_string (length (children sc) + 1)
                        +:+ " lines")
        else ret tt).

(** [_config_to_get_to_right], the recursive call being [rec]. *)
Definition _config_to_get_to_right (fuel : nat)
    (rec : ident -> ident -> ident -> M ident)
    (self target delta : ident) : M unit :=
  let* tgt := get_node target in
  for_each (children tgt) (fun target_child =>
    let* t := read (fun st => text st target_child) in
    let* found := get_child fuel self (rule_equals t) in
    match found with
    | Some self_child =>
        let* t := read (fun st => text st target_child) in
        let* subtree := add_child delta t false false in
        let* _ := rec self_child target_child subtree in
        let* sub := get_node subtree in
        if length (children sub) =? 0 then delete subtree
        else
          let* so := read (fun st => sectional_overwrite_check st self_child) in
          if so then overwrite_with fuel target_child self_child delta true
          else
            let* son := read (fun st =>
              sectional_overwrite_no_negate_check st self_child) in
            if son then overwrite_with fuel target_child self_child delta false
            else ret tt
    | None =>
        let* new_item := add_deep_copy_of fuel delta target_child false in
        update new_item (with_new_in_config true) ;;
        let* below := read (fun st => all_children fuel st new_item) in
        for_each below (fun child => update child (with_new_in_config true)) ;;
        let* ni := get_node new_item in
        if negb (length (children ni) =? 0)
        then comments_add new_item "new section"
        else ret tt
    end).

(** [_config_to_get_to] *)
Fixpoint _config_to_get_to (fuel : nat) (self target delta : ident)
    : M ident :=
  match fuel with
  | 0 => abort
  | S f =>
      _config_to_get_to_left self target delta ;;
      _config_to_get_to_right f (_config_to_get_to f) self target delta ;;
      ret delta
  end.

(** [HConfig.config_to_get_to(target)], [delta] left to its default: a new
    [HConfig] with the driver of [self]. *)
Definition config_to_get_to (fuel : nat) (self target : ident) : M ident :=
  let* so := get_node self in
  let* delta := alloc (fun i => new_HConfig i (_driver so)) in
  _config_to_get_to fuel self target delta.


(* --------------------------------------------------------------------- *)
(** *** Structural difference: [difference] *)

Definition acl_sw_matches : affix_arg :=
  AffixTuple ["ip access-list "; "ipv4 access-list "; "ipv6 access-list "].

(** [_strip_acl_sequence_number]: [words[0]] raises [IndexError] when the
    text has no word. *)
Definition _strip_acl_sequence_number (hier_child : ident) : M string :=
  let* t := read (fun st => text st hier_child) in
  match py_split t with
  | [] => raise IndexError
  | w :: ws => ret (py_join " " (if isdecimal w then ws else w :: ws))
  end.

(** [{self._strip_acl_sequence_number(c): c for c in children}] *)
Fixpoint acl_children_dict (cs : list ident) (d : pydict) : M pydict :=
  match cs with
  | [] => ret d
  | c :: r =>
      let* k := _strip_acl_sequence_number c in
      acl_children_dict r (dict_set k c d)
  end.

(** [_difference] *)
Fixpoint _difference (fuel : nat) (self target delta : ident)
    (target_acl_children : option pydict) (in_acl : bool) : M ident :=
  match fuel with
  | 0 => abort
  | S f =>
      let* so := get_node self in
      for_each (children so) (fun self_child =>
        let* t := read (fun st => text st self_child) in
        let* d := read (fun st => driver st self) in
        if startswith_any t (AffixTuple [negation_prefix d; "default "])
        then ret tt
        else
          let* target_child :=
            (if in_acl then
               match target_acl_children with
               | None => raise TypeError
               | Some acl =>
                   let* k := _strip_acl_sequence_number self_child in
                   ret (dict_get k acl)
               end
             else
               let* t := read (fun st => text st self_child) in
               get_child f target (rule_equals t)) in
          match target_child with
          | None =>
              let* _ := add_deep_copy_of f delta self_child false in ret tt
          | Some target_child =>
              let* t := read (fun st => text st self_child) in
              let* delta_child := add_child delta t false false in
              let* t := read (fun st => text st self_child) in
              (if startswith_any t acl_sw_matches then
                 let* tc := get_node target_child in
                 let* acl := acl_children_dict (children tc) [] in
                 let* _ := _difference f self_child target_child delta_child
                                       (Some acl) true in
                 ret tt
               else
                 let* _ := _difference f self_child target_child delta_child
                                       None false in
                 ret tt) ;;
              let* dc := get_node delta_child in
              if length (children dc) =? 0 then delete delta_child else ret tt
          end) ;;
      ret delta
  end.

(** [HConfig.difference] *)
Definition difference (fuel : nat) (self target : ident) : M ident :=
  let* so := get_node self in
  let* delta := alloc (fun i => new_HConfig i (_driver so)) in
  _difference fuel self target delta None false.

(* --------------------------------------------------------------------- *)
(** *** Predicted state: [future] *)

Fixpoint fold_m {A S} (l : list A) (s : S) (body : S -> A -> M S) : M S :=
  match l with
  | [] => ret s
  | x :: r => let* s' := body s x in fold_m r s' body
  end.

(** [self.root.driver] *)
Definition root_driver (st : Store) (n : ident) : option HConfigDriverBase :=
  driver st n.

(** [_future_pre] *)
Definition _future_pre (fuel : nat) (self config : ident)
    : M (list string * list string) :=
  let* so := get_node self in
  fold_m (children so) ([], []) (fun acc self_child =>
    let* d := read (fun st => root_driver st self) in
    let* negation_text :=
      read (fun st => Some (negation_negate_with_check d st self_child)) in
    match negation_text with
    | Some (String c r) =>
        let* found := get_child fuel config (rule_equals (String c r)) in
        match found with
        | Some config_child =>
            let* t := read (fun st => text st self_child) in
            let* ct := read (fun st => text st config_child) in
            ret (set_add (fst acc) t, set_add (snd acc) ct)
        | None => ret acc
        end
    | _ => ret acc
    end).

(** [_future] *)
Fixpoint _future (fuel : nat) (self config future_config : ident) : M unit :=
  match fuel with
  | 0 => abort
  | S f =>
      let* pre := _future_pre f self config in
      let config_children_ignore := snd pre in
      let* cfg := get_node config in
      let* negated_or_recursed :=
        fold_m (children cfg) (fst pre) (fun nor config_child =>
          let* ct := read (fun st => text st config_child) in
          if set_mem ct config_children_ignore then ret nor
          else
            let* so1 := read (fun st =>
              sectional_overwrite_check st config_child) in
            let* so2 :=
              (if so1 then ret true
               else read (fun st =>
                      sectional_overwrite_no_negate_check st config_child)) in
            if so2 then
              let* _ := add_deep_copy_of f future_config config_child false in
              ret nor
            else
              let* d := read (fun st => root_driver st self) in
              let* so := get_node self in
              let* idem := read (fun st =>
                Some (idempotent_for d st config_child (children so))) in
              match idem with
              | Some self_child =>
                  let* _ :=
                    add_deep_copy_of f future_config config_child false in
                  let* t := read (fun st => text st self_child) in
                  ret (set_add nor t)
              | None =>
                  let* ct := read (fun st => text st config_child) in
                  let* found := get_child f self (rule_equals ct) in
                  match found with
                  | Some self_child =>
                      let* future_child :=
                        add_shallow_copy_of f future_config self_child false in
                      _future f self_child config_child future_child ;;
                      let* ct := read (fun st => text st config_child) in
                      ret (set_add nor ct)
                  | None =>
                      let* ct := read (fun st => text st config_child) in
                      let* d := read (fun st => driver st self) in
                      if str_startswith ct (negation_prefix d) then
                        let* unnegated_command :=
                          text_without_negation config_child in
                        let* found :=
                          get_child f self (rule_equals unnegated_command) in
                        match found with
                        | Some _ => ret (set_add nor unnegated_command)
                        | None =>
                            let* _ := add_shallow_copy_of f future_config
                                        config_child false in
                            ret nor
                        end
                      else
                        let* d := read (fun st => driver st self) in
                        let* ct := read (fun st => text st config_child) in
                        let* found :=
                          get_child f self
                            (rule_equals (negation_prefix d +:+ ct)) in
                        match found with
                        | Some self_child =>
                            let* t := read (fun st => text st self_child) in
                            ret (set_add nor t)
                        | None =>
                            let* _ := add_deep_copy_of f future_config
                                        config_child false in
                            ret nor
                        end
                  end
              end) in
      let* so := get_node self in
      for_each (children so) (fun self_child =>
        let* t := read (fun st => text st self_child) in
        if set_mem t negated_or_recursed then ret tt
        else
          let* _ := add_deep_copy_of f future_config self_child false in
          ret tt)
  end.

(** [HConfig.future] *)
Definition future (fuel : nat) (self config : ident) : M ident :=
  let* so := get_node self in
  let* future_config := alloc (fun i => new_HConfig i (_driver so)) in
  _future fuel self config future_config ;;
  ret future_config.

(** [HConfig(driver)] *)
Definition HConfig (driver_ix : nat) : M ident :=
  alloc (fun i => new_HConfig i driver_ix).

End Tree.

(* ===================================================================== *)
(** ** Notions of the specification *)
(* ===================================================================== *)

(** The ancestor chain of a node, the root left out and the node included,
    outermost ancestor first. *)
Inductive ancestor_chain (st : Store) : ident -> list ident -> Prop :=
| chain_root n nd :
    st !! n = Some nd -> is_root nd = true -> ancestor_chain st n []
| chain_child n nd l :
    st !! n = Some nd -> is_root nd = false ->
    ancestor_chain st (parent nd) l ->
    ancestor_chain st n (l ++ [n]).

(** [parent] is assigned once, in [HConfigChild.__init__], with an object
    that exists already: a child is younger than its parent. *)
Definition parents_older (st : Store) : Prop :=
  forall i nd, st !! i = Some nd -> is_root nd = false -> parent nd < i.

(** The store after [add_child] created the child [length st] under [p],
    [nd'] being what [p] has become. *)
Definition store_with_child (st : Store) (p : ident) (t : string)
    (nd' : HConfigNode) : Store :=
  <[p := nd']> (st ++ [new_HConfigChild p t]).

(** The earliest child of a list bearing the text [t]. *)
Fixpoint first_with_text (st : Store) (cs : list ident) (t : string)
    : option ident :=
  match cs with
  | [] => None
  | c :: r =>
      match st !! c with
      | Some nd =>
          if String.eqb (_text nd) t then Some c else first_with_text st r t
      | None => first_with_text st r t
      end
  end.

(** The child list and the text index of a node agree: the index maps every
    text to the earliest child bearing it, and has no other entry. *)
Definition index_agrees (st : Store) (nd : HConfigNode) : Prop :=
  forall t, dict_get t (children_dict nd) = first_with_text st (children nd) t.

(** The children of a node are [HConfigChild] objects of the store. *)
Definition children_ok (st : Store) (nd : HConfigNode) : Prop :=
  Forall (fun c => exists x, st !! c = Some x /\ is_root x = false)
         (children nd).

(** Texts are trimmed: [HConfigChild.__init__] and the [text] setter store
    [strip()] of what they are given. *)
Definition texts_trimmed (st : Store) : Prop :=
  forall i nd, st !! i = Some nd -> strip (_text nd) = _text nd.

(** The children with text [t], in list order. *)
Definition children_with_text (st : Store) (cs : list ident) (t : string)
    : list ident :=
  List.filter (fun c => match st !! c with
                   | Some x => String.eqb (_text x) t
                   | None => false
                   end) cs.

(* ===================================================================== *)
(** ** Concrete platforms *)
(* ===================================================================== *)

(** A driver without rules, negating with ["no "]. *)
Definition generic_driver : HConfigDriverBase :=
  mkDriver "no " [] [] [] [] []
           (fun _ _ => None) (fun _ _ _ => false) (fun _ _ _ => None).

Definition generic_platform : Platform :=
  {| re_span := literal_engine; drivers := fun _ => generic_driver |}.

(** A store with one tree: the root [0], its child [1] and [2] below it. *)
Definition vlan_store : Store :=
  [ mkNode true 0 "" 0 [1] [("interface Vlan2", 1)] [] [] false 0%Z [];
    mkNode false 0 "interface Vlan2" 0 [2] [("shutdown", 2)] [] [] false 0%Z [];
    mkNode false 0 "shutdown" 1 [] [] [] [] false 0%Z [] ].

(** [leaf = root.add_child("a"); leaf.tags_add("t"); leaf.add_child("x")] *)
Definition tag_then_grow : M ident :=
  (let* r := HConfig 0 in
   let* leaf := add_child (P:=generic_platform) r "a" false false in
   tags_add 2 leaf (TagStr "t") ;;
   let* _ := add_child (P:=generic_platform) leaf "x" false false in
   ret leaf)%hc.

(** A store with one tree: the root [0] and its child ["a"]. *)
Definition dup_store : Store :=
  [ mkNode true 0 "" 0 [1] [("a", 1)] [] [] false 0%Z [];
    mkNode false 0 "a" 0 [] [] [] [] false 0%Z [] ].

(** A driver that allows duplicate children below ["route-policy ..."]. *)
Definition policy_driver : HConfigDriverBase :=
  mkDriver "no " [[rule_startswith "route-policy"]] [] [] [] []
           (fun _ _ => None) (fun _ _ _ => false) (fun _ _ _ => None).

Definition policy_platform : Platform :=
  {| re_span := literal_engine; drivers := fun _ => policy_driver |}.

(** [root = HConfig(driver); root.add_child(" a")] *)
Definition untrimmed_insertion : M (ident * ident) :=
  (let* r := HConfig 0 in
   let* c := add_child (P:=generic_platform) r " a" false false in
   ret (r, c))%hc.

(** [a = HConfig(driver); x = a.add_child("x"); b = HConfig(driver);
     x.move(b); x.text = "y"] *)
Definition move_then_rename : M (ident * ident) :=
  (let* a := HConfig 0 in
   let* x := add_child (P:=generic_platform) a "x" false false in
   let* b := HConfig 0 in
   move x b ;;
   set_text x "y" ;;
   ret (b, x))%hc.

(** [root = HConfig(driver); root.add_child("a");
     root.add_child("a", force_duplicate=True)] *)
Definition forced_duplicate : M ident :=
  (let* r := HConfig 0 in
   let* _ := add_child (P:=generic_platform) r "a" false false in
   let* _ := add_child (P:=generic_platform) r "a" false true in
   ret r)%hc.

(** The Junos platform: the driver declares [negation_prefix = "delete "]. *)
Definition junos_driver : HConfigDriverBase :=
  mkDriver junos_negation_prefix [] [] [] [] []
           (fun _ _ => None) (fun _ _ _ => false) (fun _ _ _ => None).

Definition junos_platform : Platform :=
  {| re_span := literal_engine; drivers := fun _ => junos_driver |}.

(** A Junos tree with the single line [t]. *)
Definition junos_line (t : string) : Store :=
  [ mkNode true 0 "" 0 [1] [(t, 1)] [] [] false 0%Z [];
    mkNode false 0 t 0 [] [] [] [] false 0%Z [] ].

(** A computation that raises no exception. *)
Definition never_raises {A} (m : M A) : Prop :=
  forall st e st', m st <> Raise e st'.

(** [l] is a leaf at or below [n]: [n] itself when it is a leaf, a leaf below
    one of its children when it is a branch. *)
Inductive leaf_below (st : Store) : ident -> ident -> Prop :=
| leaf_here n nd :
    st !! n = Some nd -> is_branch nd = false -> leaf_below st n n
| leaf_under n nd c l :
    st !! n = Some nd -> is_branch nd = true -> In c (children nd) ->
    leaf_below st c l -> leaf_below st n l.

(** The tree below [n] is at most [h] levels deep. *)
Fixpoint height_le (st : Store) (h : nat) (n : ident) : Prop :=
  match h with
  | 0 => False
  | S h' =>
      exists nd, st !! n = Some nd /\ Forall (height_le st h') (children nd)
  end.

(** From [st] to [st'] nothing changed but tag sets, which only got larger,
    and only on leaves. *)
Definition tags_grew (st st' : Store) : Prop :=
  length st' = length st /\
  forall i nd, st !! i = Some nd ->
    exists nd', st' !! i = Some nd' /\
      nd' = with_tags (_tags nd') nd /\
      (forall x, In x (_tags nd) -> In x (_tags nd')) /\
      (is_branch nd = true -> nd' = nd).

(** From [st] to [st'] nothing changed but tag sets, which only got smaller,
    and only on leaves. *)
Definition tags_shrank (st st' : Store) : Prop :=
  length st' = length st /\
  forall i nd, st !! i = Some nd ->
    exists nd', st' !! i = Some nd' /\
      nd' = with_tags (_tags nd') nd /\
      (forall x, In x (_tags nd') -> In x (_tags nd)) /\
      (is_branch nd = true -> nd' = nd).

(** The tags a [tag] argument names. *)
Definition tag_members (tag : tag_arg) : list string :=
  match tag with TagStr s => [s] | TagIter l => l end.

(** A branch with the leaves ["a"] (no tag) and ["b"] (tag ["t"]). *)
Definition tagged_store : Store :=
  [ mkNode true 0 "" 0 [1] [("s", 1)] [] [] false 0%Z [];
    mkNode false 0 "s" 0 [2; 3] [("a", 2); ("b", 3)] [] [] false 0%Z [];
    mkNode false 0 "a" 1 [] [] [] [] false 0%Z [];
    mkNode false 0 "b" 1 [] [] ["t"] [] false 0%Z [] ].

(** A tree without two siblings of the same text: at most [h] levels
    below [n], made of objects older than [b]; at every node
    the index agrees with the child list, the children are [HConfigChild]
    objects with a non-empty text, and no two of them bear the same text. *)
Fixpoint remediable (st : Store) (b h : nat) (n : ident) : Prop :=
  match h with
  | 0 => False
  | S h' =>
      n < b /\
      exists nd, st !! n = Some nd /\
        index_agrees st nd /\
        Forall (fun c => exists x, st !! c = Some x /\ _text x <> EmptyString)
               (children nd) /\
        NoDup (map (text st) (children nd)) /\
        Forall (remediable st b h') (children nd)
  end.

(** What the remediation of [target] against [self] needs to come out
    empty, as a property of the two trees: at most [h] levels, objects older
    than [b]; the text of every child of [self] is a key of the index of
    [target]; every child of [target] has a non-empty text, which the index of
    [self] maps to a child of which the same holds against it. *)
Fixpoint texts_paired (st : Store) (b h : nat) (self target : ident) : Prop :=
  match h with
  | 0 => False
  | S h' =>
      self < b /\ target < b /\
      exists ns nt, st !! self = Some ns /\ st !! target = Some nt /\
        Forall (fun x => x < b /\ exists xd, st !! x = Some xd /\
                  dict_mem (_text xd) (children_dict nt) = true)
               (children ns) /\
        Forall (fun y => exists yd f, st !! y = Some yd /\
                  _text yd <> EmptyString /\
                  dict_get (_text yd) (children_dict ns) = Some f /\
                  texts_paired st b h' f y)
               (children nt)
  end.

(** [root = HConfig(driver); p = root.add_child("route-policy A");
     i1 = p.add_child("if x"); i1.add_child("pass");
     i2 = p.add_child("if x"); i2.add_child("pass"); i2.add_child("drop")],
    the policy allowing duplicates below ["route-policy ..."]. *)
Definition duplicate_sections : M ident :=
  (let* r := HConfig 0 in
   let* p := add_child (P:=policy_platform) r "route-policy A" false false in
   let* i1 := add_child (P:=policy_platform) p "if x" false false in
   let* _ := add_child (P:=policy_platform) i1 "pass" false false in
   let* i2 := add_child (P:=policy_platform) p "if x" false false in
   let* _ := add_child (P:=policy_platform) i2 "pass" false false in
   let* _ := add_child (P:=policy_platform) i2 "drop" false false in
   ret r)%hc.

(** [root = HConfig(driver); p = root.add_child("route-policy A");
     i1 = p.add_child("if x"); i1.add_child("pass"); p.add_child("endif");
     i2 = p.add_child("if y"); i2.add_child("drop"); p.add_child("endif")]:
    the line ["endif"] twice under one parent. *)
Definition repeated_lines : M ident :=
  (let* r := HConfig 0 in
   let* p := add_child (P:=policy_platform) r "route-policy A" false false in
   let* i1 := add_child (P:=policy_platform) p "if x" false false in
   let* _ := add_child (P:=policy_platform) i1 "pass" false false in
   let* _ := add_child (P:=policy_platform) p "endif" false false in
   let* i2 := add_child (P:=policy_platform) p "if y" false false in
   let* _ := add_child (P:=policy_platform) i2 "drop" false false in
   let* _ := add_child (P:=policy_platform) p "endif" false false in
   ret r)%hc.

(** The store [repeated_lines] builds: the root [0], the section [1], its
    children [2], [4], [5] and [7]. *)
Definition repeated_lines_store : Store :=
  Eval vm_compute in state_of (repeated_lines []).

(** The object [nd] refers to no object older than [n0]. *)
Definition refs_above (n0 : nat) (nd : HConfigNode) : Prop :=
  n0 <= parent nd /\
  Forall (fun c => n0 <= c) (children nd) /\
  Forall (fun kv => n0 <= snd kv) (children_dict nd).

(** The objects from [n0] on refer to each other only. *)
Definition closed_above (n0 : nat) (st : Store) : Prop :=
  n0 <= length st /\
  forall i nd, n0 <= i -> st !! i = Some nd -> refs_above n0 nd.

(** From [st] to [st'] every object older than [n0] is as it was, and every
    object is still there, of the class it had. *)
Definition preserved (n0 : nat) (st st' : Store) : Prop :=
  (forall i, i < n0 -> st' !! i = st !! i) /\
  (forall i nd, st !! i = Some nd ->
     exists nd', st' !! i = Some nd' /\ is_root nd' = is_root nd).

(** The computation [m] writes objects from [n0] on only, keeps them closed,
    and its value satisfies [Q]; this for every way it ends. *)
Definition local (n0 : nat) {A} (Q : A -> Prop) (m : M A) : Prop :=
  forall st, closed_above n0 st ->
    closed_above n0 (state_of (m st)) /\
    preserved n0 st (state_of (m st)) /\
    forall a st', m st = Ok a st' -> Q a.

(** What a call that builds a derived tree leaves behind, however it ends:
    every object of the store it started from is as it was, and the tree it
    returns is a new [HConfig]. *)
Definition built_apart (st : Store) (o : outcome ident) : Prop :=
  (forall i, i < length st -> state_of o !! i = st !! i) /\
  forall d st', o = Ok d st' ->
    d = length st /\ exists nd, st' !! d = Some nd /\ is_root nd = true.

(** A running and a generated configuration in one store: the roots [0] and
    [5]. *)
Definition two_configs : M (ident * ident) :=
  (let* r := HConfig 0 in
   let* a := add_child (P:=generic_platform) r "interface Vlan2" false false in
   let* _ := add_child (P:=generic_platform) a "ip address 1" false false in
   let* _ := add_child (P:=generic_platform) a "shutdown" false false in
   let* _ := add_child (P:=generic_platform) r "hostname x" false false in
   let* t := HConfig 0 in
   let* a := add_child (P:=generic_platform) t "interface Vlan2" false false in
   let* _ := add_child (P:=generic_platform) a "ip address 2" false false in
   let* _ := add_child (P:=generic_platform) t "interface Vlan3" false false in
   ret (r, t))%hc.

(** The rules for which [get_children] starts from the index: a string
    [equals] alone, or a [startswith] alone. *)
Definition takes_fast_path (r : MatchRule) : bool :=
  match equals r, startswith r, endswith r, contains r, re_search r with
  | Some (EqualsStr _), None, None, None, None => true
  | None, Some _, None, None, None => true
  | _, _, _, _, _ => false
  end.

(* ===================================================================== *)
(** ** Further notions, for the operations on the child list *)
(* ===================================================================== *)

(** The children of a list that do not bear the text [t], in list order. *)
Definition children_without_text (st : Store) (cs : list ident) (t : string)
    : list ident :=
  List.filter (fun c => match st !! c with
                        | Some x => negb (String.eqb (_text x) t)
                        | None => true
                        end) cs.

(** The store after [root = HConfig(driver); root.add_child(" a")]: the
    root [0], whose index has the key [" a"], and its child [1], whose text
    is ["a"]. *)
Definition untrimmed_store : Store :=
  Eval vm_compute in state_of (untrimmed_insertion []).

(** The children of a list that are not the object [x]. *)
Definition children_without (cs : list ident) (x : ident) : list ident :=
  List.filter (fun c => negb (c =? x)) cs.

(** Two trees in one store: the root [0] with the children ["a"] and ["b"],
    the root [3] without children. *)
Definition two_roots : Store :=
  [ mkNode true 0 "" 0 [1; 2] [("a", 1); ("b", 2)] [] [] false 0%Z [];
    mkNode false 0 "a" 0 [] [] [] [] false 0%Z [];
    mkNode false 0 "b" 0 [] [] [] [] false 0%Z [];
    mkNode true 0 "" 3 [] [] [] [] false 0%Z [] ].

(** The root [0] with the child ["a"], filed under the stale key ["old"]. *)
Definition stale_index : Store :=
  [ mkNode true 0 "" 0 [1] [("old", 1)] [] [] false 0%Z [];
    mkNode false 0 "a" 0 [] [] [] [] false 0%Z [] ].

(* ===================================================================== *)
(** ** Further notions, for the tag sets *)
(* ===================================================================== *)

(** From [st] to [st'] nothing changed but tag sets. *)
Definition same_shape (st st' : Store) : Prop :=
  length st' = length st /\
  forall i nd, st !! i = Some nd ->
    exists ts, st' !! i = Some (with_tags ts nd).

(** From [st] to [st'] the tag set of every leaf at or below [n] went
    through [g], once or more often, and nothing else changed. *)
Definition leaves_written (g : list string -> list string) (n : ident)
    (st st' : Store) : Prop :=
  length st' = length st /\
  forall i nd, st !! i = Some nd ->
    exists k,
      st' !! i = Some (with_tags (Nat.iter k g (_tags nd)) nd) /\
      (leaf_below st n i -> 1 <= k) /\
      (~ leaf_below st n i -> k = 0).

(** What the three writers of tag sets do to the set of a leaf. *)
Definition tags_add_at (tag : tag_arg) (ts : list string) : list string :=
  match tag with
  | TagStr s => set_add ts s
  | TagIter l => set_update ts l
  end.

Definition tags_remove_at (l : list string) (ts : list string)
    : list string :=
  set_difference ts l.

Definition set_tags_at (value : list string) (_ : list string)
    : list string :=
  fold_left set_add value [].

(* ===================================================================== *)
(** ** Further notions, for the searches *)
(* ===================================================================== *)

(** The children of a list whose text the rule accepts, in list order. *)
Definition children_matching {P : Platform} (st : Store) (cs : list ident)
    (r : MatchRule) : list ident :=
  List.filter (fun c => match st !! c with
                        | Some x => matches_text re_span (_text x) r
                        | None => false
                        end) cs.

(* ===================================================================== *)
(** ** [depth] and [path] *)
(* ===================================================================== *)

(** [depth()]: [0] on an [HConfig], [self.parent.depth() + 1] on a child. *)
Fixpoint depth_from (fuel : nat) (st : Store) (n : ident) : option nat :=
  match fuel with
  | 0 => None
  | S f =>
      nd ← st !! n;
      if is_root nd then Some 0
      else d ← depth_from f st (parent nd); Some (d + 1)
  end.

Definition depth (st : Store) (n : ident) : option nat :=
  depth_from (length st) st n.

Fixpoint texts_of (st : Store) (l : list ident) : option (list string) :=
  match l with
  | [] => Some []
  | c :: r => t ← text st c; ts ← texts_of st r; Some (t :: ts)
  end.

(** [path()]: nothing on an [HConfig], the texts of the lineage on a child. *)
Definition path (st : Store) (n : ident) : option (list string) :=
  l ← lineage st n; texts_of st l.

(* ===================================================================== *)
(** ** Copies of a tree: [deep_copy] and [with_tags] *)
(* ===================================================================== *)

Section Copies.
Context {P : Platform}.
Local Open Scope hc_scope.

(** [HConfig.deep_copy] *)
Definition deep_copy (fuel : nat) (self : ident) : M ident :=
  let* so := get_node self in
  let* new_instance := alloc (fun i => new_HConfig i (_driver so)) in
  let* so := get_node self in
  for_each (children so) (fun child =>
    let* _ := add_deep_copy_of fuel new_instance child false in ret tt) ;;
  ret new_instance.

(** [_with_tags] *)
Fixpoint _with_tags (fuel : nat) (self : ident) (tags_wanted : list string)
    (new_instance : ident) : M ident :=
  match fuel with
  | 0 => abort
  | S f =>
      let* so := get_node self in
      for_each (children so) (fun child =>
        let* ts := read (fun st => tags f st child) in
        if set_subset tags_wanted ts then
          let* new_child := add_shallow_copy_of f new_instance child false in
          let* _ := _with_tags f child tags_wanted new_child in
          ret tt
        else ret tt) ;;
      ret new_instance
  end.

(** [HConfig.with_tags]; the name [with_tags] is the one of the field
    update above. *)
Definition HConfig_with_tags (fuel : nat) (self : ident)
    (tags_wanted : list string) : M ident :=
  let* so := get_node self in
  let* new_instance := alloc (fun i => new_HConfig i (_driver so)) in
  let* result := _with_tags fuel self tags_wanted new_instance in
  let* rd := get_node result in
  if is_root rd then ret new_instance else raise TypeError.

End Copies.

(* ===================================================================== *)
(** ** Further notions, for negation *)
(* ===================================================================== *)

(** From [st] to [st'] no object changed its class, its parent or its
    driver. *)
Definition same_links (st st' : Store) : Prop :=
  length st' = length st /\
  forall i nd, st !! i = Some nd ->
    exists nd', st' !! i = Some nd' /\
      is_root nd' = is_root nd /\ parent nd' = parent nd /\
      _driver nd' = _driver nd.

(** A driver with no replacement text and no rule that turns a negation
    into ["default ..."]. *)
Definition no_negation_rules (d : HConfigDriverBase) : Prop :=
  (forall st n, negation_negate_with_check d st n = None) /\
  negation_default_when_rules d = [].

(* ===================================================================== *)
(** ** Further notions, for [difference] *)
(* ===================================================================== *)

(** Below [b] every child is younger than its parent. *)
Definition older_below (b : nat) (st : Store) : Prop :=
  forall i nd, i < b -> st !! i = Some nd -> is_root nd = false ->
    parent nd < i.


(* ===================================================================== *)
(** ** Traversals *)
(* ===================================================================== *)

(** [all_children_sorted()] *)
Fixpoint all_children_sorted (fuel : nat) (st : Store) (n : ident)
    : option (list ident) :=
  match fuel with
  | 0 => None
  | S f =>
      nd ← st !! n;
      s ← sorted st (children nd);
      fold_right (fun c rest =>
                    below ← all_children_sorted f st c;
                    tl ← rest;
                    Some (c :: below ++ tl))
                 (Some []) s
  end.

(** [len(self)]: [len(tuple(self.all_children()))] *)
Definition len (fuel : nat) (st : Store) (n : ident) : option nat :=
  length <$> all_children fuel st n.

(** [c] is below [n]: a child of [n], or below one of its children. *)
Inductive below (st : Store) : ident -> ident -> Prop :=
| below_child n nd c :
    st !! n = Some nd -> In c (children nd) -> below st n c
| below_deeper n nd m c :
    st !! n = Some nd -> In m (children nd) -> below st m c -> below st n c.

(** At most [h] levels below [n], and the children of one node all have the
    same [order_weight]. *)
Fixpoint even_weights (st : Store) (h : nat) (n : ident) : Prop :=
  match h with
  | 0 => False
  | S h' =>
      exists nd w, st !! n = Some nd /\
        Forall (fun c => exists x, st !! c = Some x /\ order_weight x = w)
               (children nd) /\
        Forall (even_weights st h') (children nd)
  end.

(* ===================================================================== *)
(** ** [add_children_deep] *)
(* ===================================================================== *)

Section Deep.
Context {P : Platform}.
Local Open Scope hc_scope.

(** [for line in lines: base = base.add_child(line)] *)
Fixpoint add_children_deep_loop (base : ident) (lines : list string)
    : M ident :=
  match lines with
  | [] => ret base
  | line :: r =>
      let* b := add_child base line false false in
      add_children_deep_loop b r
  end.

(** [add_children_deep]: the one of [HConfig] raises [TypeError] when the
    loop ends on an [HConfig], the one of [HConfigChild] returns what the
    loop ends on. *)
Definition add_children_deep (self : ident) (lines : list string)
    : M ident :=
  let* so := get_node self in
  let* base := add_children_deep_loop self lines in
  if is_root so then
    let* bd := get_node base in
    if is_root bd then raise TypeError else ret base
  else ret base.

End Deep.

(* ===================================================================== *)
(** ** Further notions, for [add_children] *)
(* ===================================================================== *)

(** An [HConfig] whose children are [HConfigChild] objects with texts that
    differ from each other, and whose index agrees with its child list. *)
Definition tidy_root (st : Store) (rd : HConfigNode) : Prop :=
  is_root rd = true /\ children_ok st rd /\ index_agrees st rd /\
  NoDup (map (text st) (children rd)).

(** The texts the children of a node bear. *)
Definition child_text (st : Store) (nd : HConfigNode) (t : string) : Prop :=
  exists c, In c (children nd) /\ text st c = Some t.

(* ===================================================================== *)
(** ** Further notions, for the remediation that has a line to remove *)
(* ===================================================================== *)

(** A driver without replacement texts, without default-on-negation rules
    and without idempotent commands. *)
Definition plain_driver (d : HConfigDriverBase) : Prop :=
  no_negation_rules d /\
  idempotent_commands_avoid_rules d = [] /\
  (forall st n l, idempotent_acl_check d st n l = false) /\
  (forall st n l, idempotent_for d st n l = None).

(** A driver with a replacement text for every negation. *)
Definition replacing_driver : HConfigDriverBase :=
  mkDriver "no " [] [] [] [] []
           (fun _ _ => Some "undo shutdown") (fun _ _ _ => false)
           (fun _ _ _ => None).

Definition replacing_platform : Platform :=
  {| re_span := literal_engine; drivers := fun _ => replacing_driver |}.

(* ===================================================================== *)
(** * Theorems *)
(* ===================================================================== *)

(** ** Strings *)

Lemma append_nil_l (s : string) : EmptyString +:+ s = s.
Proof. reflexivity. Qed.

Lemma append_cons (c : ascii) (s t : string) :
  String c s +:+ t = String c (s +:+ t).
Proof. reflexivity. Qed.

Lemma append_empty_r (s : string) : s +:+ EmptyString = s.
Proof.
  induction s as [|c s IH]; [reflexivity | now rewrite append_cons, IH].
Qed.

Lemma append_assoc (a b c : string) : (a +:+ b) +:+ c = a +:+ (b +:+ c).
Proof.
  induction a as [|x a IH]; [reflexivity | now rewrite !append_cons, IH].
Qed.

Lemma prefix_iff (p t : string) :
  String.prefix p t = true <-> has_prefix t p.
Proof.
  unfold has_prefix. revert t.
  induction p as [|c p IH]; intros t.
  - split; [intros _; exists t; reflexivity | intros _; now destruct t].
  - destruct t as [|d t]; simpl.
    + split; [discriminate | intros [r Hr]; discriminate].
    + destruct (ascii_dec c d) as [->|Hne].
      * rewrite IH. split; intros [r Hr]; exists r;
          rewrite append_cons in *; congruence.
      * split; [discriminate |].
        intros [r Hr]. rewrite append_cons in Hr. congruence.
Qed.

Lemma string_rev_append (a b : string) :
  string_rev (a +:+ b) = string_rev b +:+ string_rev a.
Proof.
  induction a as [|c a IH].
  - simpl. now rewrite append_empty_r.
  - rewrite append_cons. simpl. now rewrite IH, append_assoc.
Qed.

Lemma string_rev_involutive (s : string) : string_rev (string_rev s) = s.
Proof.
  induction s as [|c s IH]; simpl; [reflexivity|].
  now rewrite string_rev_append, IH.
Qed.

Lemma str_startswith_iff (t p : string) :
  str_startswith t p = true <-> has_prefix t p.
Proof. apply prefix_iff. Qed.

Lemma str_endswith_iff (t p : string) :
  str_endswith t p = true <-> has_suffix t p.
Proof.
  unfold str_endswith, has_suffix. rewrite prefix_iff. unfold has_prefix.
  split.
  - intros [r Hr]. exists (string_rev r).
    rewrite <- (string_rev_involutive t), Hr, string_rev_append.
    now rewrite string_rev_involutive.
  - intros [l ->]. exists (string_rev l). apply string_rev_append.
Qed.

Lemma str_contains_iff (t c : string) :
  str_contains t c = true <-> has_substring t c.
Proof.
  unfold has_substring.
  induction t as [|d t IH]; cbn [str_contains];
    rewrite orb_true_iff, prefix_iff.
  - split.
    + intros [[r Hr]|H]; [|discriminate]. now exists EmptyString, r.
    + intros (l & r & H). left. destruct l as [|x l].
      * now exists r.
      * rewrite append_cons in H. discriminate.
  - rewrite IH. split.
    + intros [[r Hr]|(l & r & ->)].
      * now exists EmptyString, r.
      * now exists (String d l), r.
    + intros (l & r & H). destruct l as [|x l].
      * left. now exists r.
      * right. exists l, r. rewrite append_cons in H. congruence.
Qed.

Lemma existsb_eqb_In (t : string) (l : list string) :
  existsb (String.eqb t) l = true <-> In t l.
Proof.
  rewrite existsb_exists. split.
  - intros (x & Hin & Heq). apply String.eqb_eq in Heq. now subst.
  - intros Hin. exists t. split; [assumption | apply String.eqb_refl].
Qed.

Lemma search_iff (re_span : regex_engine) (p t : string) :
  search re_span p t = true <-> found_anywhere re_span p t.
Proof.
  unfold search, found_anywhere. rewrite existsb_exists. split.
  - intros (i & Hi & Hex). apply existsb_exists in Hex as (j & Hj & Hm).
    apply in_seq in Hi, Hj. exists i, j. repeat split; [lia | lia | assumption].
  - intros (i & j & Hij & Hj & Hm). exists i. split.
    + apply in_seq. lia.
    + apply existsb_exists. exists j. split; [apply in_seq; lia | assumption].
Qed.

(** ** The match engine *)

Lemma startswith_any_iff (t : string) (a : affix_arg) :
  startswith_any t a = true <-> satisfies_affix has_prefix t (Some a).
Proof.
  destruct a as [p|ps]; simpl.
  - apply str_startswith_iff.
  - rewrite existsb_exists.
    split; intros (p & Hin & H); exists p; split; try assumption;
      now apply str_startswith_iff.
Qed.

Lemma endswith_any_iff (t : string) (a : affix_arg) :
  endswith_any t a = true <-> satisfies_affix has_suffix t (Some a).
Proof.
  destruct a as [p|ps]; simpl.
  - apply str_endswith_iff.
  - rewrite existsb_exists.
    split; intros (p & Hin & H); exists p; split; try assumption;
      now apply str_endswith_iff.
Qed.

Lemma contains_any_iff (t : string) (a : affix_arg) :
  match a with
  | AffixStr c => str_contains t c
  | AffixTuple cs => existsb (str_contains t) cs
  end = true <-> satisfies_affix has_substring t (Some a).
Proof.
  destruct a as [p|ps]; simpl.
  - apply str_contains_iff.
  - rewrite existsb_exists.
    split; intros (p & Hin & H); exists p; split; try assumption;
      now apply str_contains_iff.
Qed.

(** The early returns of [matches] add up to the conjunction of the fields,
    for an [equals] that is no plain [set]. *)
Lemma matches_text_iff (re_span : regex_engine) (t : string) (r : MatchRule) :
  equals_is_plain_set r = false ->
  matches_text re_span t r = true <-> satisfies re_span t r.
Proof.
  unfold matches_text, satisfies, equals_is_plain_set.
  destruct r as [eq sw ew ct re]; simpl. intros Hplain.
  assert (Heq : match eq with
                | Some (EqualsStr s) => negb (String.eqb t s)
                | Some (EqualsFrozenset l) => negb (existsb (String.eqb t) l)
                | Some (EqualsSet _) => false
                | None => false
                end = false <-> satisfies_equals t eq).
  { destruct eq as [[s|l|l]|]; simpl; rewrite ?negb_false_iff;
      try discriminate.
    - apply String.eqb_eq.
    - apply existsb_eqb_In.
    - tauto. }
  assert (Hsw : match sw with
                | Some a => negb (startswith_any t a)
                | None => false
                end = false <-> satisfies_affix has_prefix t sw).
  { destruct sw as [a|]; [rewrite negb_false_iff; apply startswith_any_iff|].
    simpl; tauto. }
  assert (Hre : match re with
                | Some p => negb (search re_span p t)
                | None => false
                end = false <-> satisfies_re_search re_span t re).
  { destruct re as [p|]; simpl; [rewrite negb_false_iff; apply search_iff|].
    tauto. }
  assert (Hew : match ew with
                | Some a => negb (endswith_any t a)
                | None => false
                end = false <-> satisfies_affix has_suffix t ew).
  { destruct ew as [a|]; [rewrite negb_false_iff; apply endswith_any_iff|].
    simpl; tauto. }
  assert (Hct : match ct with
                | Some (AffixStr c) => negb (str_contains t c)
                | Some (AffixTuple cs) => negb (existsb (str_contains t) cs)
                | None => false
                end = false <-> satisfies_affix has_substring t ct).
  { destruct ct as [a|]; [|simpl; tauto].
    rewrite <- contains_any_iff. destruct a; apply negb_false_iff. }
  rewrite <- Heq, <- Hsw, <- Hew, <- Hct, <- Hre.
  repeat match goal with
         | |- context [if ?b then false else _] => destruct b
         end; intuition congruence.
Qed.

(** A plain [set] given as [equals] passes both [isinstance] tests by. *)
Lemma matches_text_plain_set (re_span : regex_engine) (t : string)
    (l : list string) (sw ew ct : option affix_arg) (re : option string) :
  matches_text re_span t (mkMatchRule (Some (EqualsSet l)) sw ew ct re)
  = matches_text re_span t (mkMatchRule None sw ew ct re).
Proof. reflexivity. Qed.

Section MatchEngine.
Context {P : Platform}.

Lemma matches_defined (st : Store) (n : ident) (nd : HConfigNode)
    (r : MatchRule) :
  st !! n = Some nd ->
  matches st n r = Some (matches_text re_span (_text nd) r).
Proof. intros H. unfold matches, text. now rewrite H. Qed.

(** What [matches] does right: it answers [True] when no field is given;
    with an [equals] that is no plain [set] it answers [True] exactly when
    every given field is satisfied; a [frozenset] is satisfied exactly by its
    members; [re_search] is satisfied exactly when the pattern matches some
    span of the text, wherever it lies. *)
Lemma matches_without_plain_set (st : Store) (n : ident) (nd : HConfigNode) :
  st !! n = Some nd ->
  matches st n match_all = Some true /\
  (forall r, equals_is_plain_set r = false ->
     exists b, matches st n r = Some b /\
       (b = true <-> satisfies re_span (_text nd) r)) /\
  (forall l,
     matches st n (mkMatchRule (Some (EqualsFrozenset l)) None None None None)
       = Some true <-> In (_text nd) l) /\
  (forall p,
     matches st n (mkMatchRule None None None None (Some p)) = Some true
     <-> found_anywhere re_span p (_text nd)).
Proof.
  intros H.
  assert (Hd := fun r => matches_defined st n nd r H).
  split; [|split; [|split]].
  - now rewrite Hd.
  - intros r Hr. rewrite Hd. eexists. split; [reflexivity|].
    now apply matches_text_iff.
  - intros l. rewrite Hd. split.
    + intros Hm.
      assert (Hs : matches_text re_span (_text nd)
                (mkMatchRule (Some (EqualsFrozenset l)) None None None None)
                = true)
        by congruence.
      apply matches_text_iff in Hs; [apply Hs | reflexivity].
    + intros Hin. f_equal.
      apply matches_text_iff; [reflexivity|]. unfold satisfies; simpl. tauto.
  - intros p. rewrite Hd. split.
    + intros Hm.
      assert (Hs : matches_text re_span (_text nd)
                (mkMatchRule None None None None (Some p)) = true)
        by congruence.
      apply matches_text_iff in Hs; [apply Hs | reflexivity].
    + intros Hf. f_equal.
      apply matches_text_iff; [reflexivity|]. unfold satisfies; simpl. tauto.
Qed.

End MatchEngine.

(** On the node ["abc"]: the pattern ["b"] is found by [re_search], and it
    does not match the whole text. *)
Example matches_unanchored :
  matches (P:=generic_platform) [new_HConfigChild 0 "abc"] 0
    (mkMatchRule None None None None (Some "b")) = Some true /\
  fullmatch literal_engine "b" "abc" = false.
Proof. split; reflexivity. Qed.

(** C4: an [equals] given as a plain [set] filters nothing: [matches] answers
    as if no [equals] were given, whatever the other fields.  On the node
    ["shutdown"] the rule [equals={"no shutdown"}] is not satisfied and
    [matches] answers [True]; given as a [frozenset], the same set makes it
    answer [False]. *)
Theorem matches_ignores_a_plain_set :
  (forall (P : Platform) (st : Store) (n : ident) (l : list string)
          (sw ew ct : option affix_arg) (re : option string),
     matches st n (mkMatchRule (Some (EqualsSet l)) sw ew ct re)
     = matches st n (mkMatchRule None sw ew ct re)) /\
  matches (P:=generic_platform) vlan_store 2
    (mkMatchRule (Some (EqualsSet ["no shutdown"])) None None None None)
    = Some true /\
  ~ satisfies literal_engine "shutdown"
      (mkMatchRule (Some (EqualsSet ["no shutdown"])) None None None None) /\
  matches (P:=generic_platform) vlan_store 2
    (mkMatchRule (Some (EqualsFrozenset ["no shutdown"])) None None None None)
    = Some false.
Proof.
  split; [|split; [|split]].
  - intros P st n l sw ew ct re. unfold matches.
    destruct (text st n); [simpl|reflexivity].
    now rewrite matches_text_plain_set.
  - reflexivity.
  - unfold satisfies; simpl. intros [[H|[]] _]. discriminate.
  - reflexivity.
Qed.

(** ** [expand_range] *)

(** [py_int] fails with [ValueError] only. *)
Lemma py_int_error (s : string) (e : exn) : py_int s = inl e -> e = ValueError.
Proof.
  unfold py_int.
  match goal with |- context [match ?b with Some _ => _ | None => _ end] =>
    destruct b end; [|congruence].
  destruct (int_max_str_digits <? count_digits s); congruence.
Qed.

(** A component that is not a single number ends the loop with
    [ValueError], a dash-separated pair included: after the pair is expanded
    the second [if] of the loop body takes its [else]. *)
Lemma expand_range_step_not_single (numbers : list Z) (c : string) :
  length (split_on "-"%char c) <> 1 ->
  expand_range_step numbers c = inl ValueError.
Proof.
  intros Hlen. unfold expand_range_step, expand_range_step_with.
  destruct (length (split_on "-"%char c) =? 1) eqn:E1.
  { apply Nat.eqb_eq in E1. contradiction. }
  destruct (length (split_on "-"%char c) =? 2).
  - destruct (py_int (nth 0 _ _)) as [e|a] eqn:Ea.
    { now rewrite (py_int_error _ _ Ea). }
    destruct (py_int (nth 1 _ _)) as [e|b] eqn:Eb.
    { now rewrite (py_int_error _ _ Eb). }
    reflexivity.
  - reflexivity.
Qed.

Lemma split_on_pair (a b : string) :
  split_on "-"%char a = [a] -> split_on "-"%char b = [b] ->
  split_on "-"%char (a +:+ "-" +:+ b) = [a; b].
Proof.
  intros Ha Hb. revert Ha. induction a as [|c a IH]; intros Ha.
  - rewrite append_nil_l, append_cons, append_nil_l. cbn [split_on].
    rewrite Ascii.eqb_refl. now rewrite Hb.
  - rewrite append_cons. cbn [split_on] in *.
    destruct (Ascii.eqb c "-"%char); [discriminate|].
    destruct (split_on "-"%char a) as [|w ws] eqn:Hs.
    + injection Ha as <-. discriminate Hs.
    + injection Ha as Hw Hws. subst w ws.
      now rewrite (IH eq_refl).
Qed.

(** C9: on the input of its own docstring, ["2-5,8,22-45"], [expand_range]
    raises [ValueError] instead of returning the covered integers; so it does
    on the single pair ["2-5"], and the loop body does on every pair of
    dash-free components. *)
Theorem expand_range_docstring_example :
  expand_range "2-5,8,22-45" = inl ValueError /\
  expand_range "2-5" = inl ValueError /\
  expand_range "8,9" = inr [8%Z; 9%Z] /\
  (forall numbers a b,
     split_on "-"%char a = [a] -> split_on "-"%char b = [b] ->
     expand_range_step numbers (a +:+ "-" +:+ b) = inl ValueError).
Proof.
  split; [vm_compute; reflexivity|].
  split; [vm_compute; reflexivity|].
  split; [vm_compute; reflexivity|].
  intros numbers a b Ha Hb. apply expand_range_step_not_single.
  rewrite (split_on_pair a b Ha Hb). discriminate.
Qed.

(** ** Lineage *)

Section Lineage.
Context {P : Platform}.

Lemma lineage_from_chain (st : Store) (fuel : nat) (n : ident)
    (l : list ident) :
  lineage_from fuel st n = Some l -> ancestor_chain st n l.
Proof.
  revert n l. induction fuel as [|f IH]; intros n l; simpl; [discriminate|].
  destruct (st !! n) as [nd|] eqn:Hn; simpl; [|discriminate].
  destruct (is_root nd) eqn:Hr.
  - intros [= <-]. eapply chain_root; eassumption.
  - destruct (lineage_from f st (parent nd)) as [l'|] eqn:Hl; simpl;
      [|discriminate].
    intros [= <-]. eapply chain_child; eauto.
Qed.

(** Walking up from [n] takes at most [n + 1] steps when parents are older
    than their children. *)
Lemma lineage_from_total (st : Store) :
  parents_older st ->
  forall fuel n, n < fuel -> n < length st ->
  exists l, lineage_from fuel st n = Some l.
Proof.
  intros Hold. induction fuel as [|f IH]; intros n Hf Hn; [lia|].
  destruct (lookup_lt_is_Some_2 st n Hn) as [nd Hnd].
  cbn [lineage_from]. rewrite Hnd; simpl.
  destruct (is_root nd) eqn:Hr; [eauto|].
  pose proof (Hold n nd Hnd Hr) as Hp.
  destruct (IH (parent nd)) as [l Hl]; [lia | lia |].
  rewrite Hl; simpl. eauto.
Qed.

Lemma chain_nodes_exist (st : Store) (n : ident) (l : list ident) :
  ancestor_chain st n l -> Forall (fun c => is_Some (st !! c)) l.
Proof.
  induction 1 as [|n nd l Hn Hr Hc IH]; [constructor|].
  apply Forall_app. split; [assumption|].
  constructor; [eauto | constructor].
Qed.

Lemma chain_last (st : Store) (n : ident) (l : list ident) :
  ancestor_chain st n l -> l = [] \/ exists l', l = l' ++ [n].
Proof. destruct 1; eauto. Qed.

Lemma all_matches_spec (st : Store) (cs : list ident) :
  Forall (fun c => is_Some (st !! c)) cs ->
  forall rs, length cs = length rs ->
  exists b, all_matches st (combine cs rs) = Some b /\
    (b = true <-> Forall2 (fun c r => matches st c r = Some true) cs rs).
Proof.
  induction 1 as [|c cs [nd Hc] Hcs IH]; intros [|r rs] Hlen;
    simpl in Hlen; try discriminate.
  - exists true. split; [reflexivity|]. split; [constructor | reflexivity].
  - simpl. rewrite (matches_defined st c nd r Hc).
    destruct (matches_text re_span (_text nd) r) eqn:Hm.
    + destruct (IH rs) as (b & Hb & Hiff); [lia|].
      exists b. split; [assumption|]. rewrite Hiff. split.
      * intros HF. constructor; [|assumption].
        now rewrite (matches_defined st c nd r Hc), Hm.
      * now inversion 1.
    + exists false. split; [reflexivity|]. split; [discriminate|].
      inversion 1 as [|? ? ? ? Hm' ?]; subst.
      rewrite (matches_defined st c nd r Hc), Hm in Hm'. discriminate.
Qed.

(** C5: the lineage of a node is its ancestor chain; [lineage_test] answers
    [True] exactly when the chain and the rules have the same length and,
    both read from the innermost end, every rule matches its node; with
    different lengths it answers [False]. *)
Theorem lineage_test_spec (st : Store) (n : ident) (rules : list MatchRule) :
  parents_older st -> n < length st ->
  exists l b,
    lineage st n = Some l /\ ancestor_chain st n l /\
    lineage_test st n rules = Some b /\
    (b = true <->
       length l = length rules /\
       Forall2 (fun c r => matches st c r = Some true) (rev l) (rev rules)) /\
    (length l <> length rules -> b = false).
Proof.
  intros Hold Hn.
  destruct (lineage_from_total st Hold (length st) n Hn Hn) as [l Hl].
  pose proof (lineage_from_chain _ _ _ _ Hl) as Hc.
  unfold lineage_test, lineage. rewrite Hl; simpl.
  destruct (length rules =? length l) eqn:E.
  - apply Nat.eqb_eq in E.
    destruct (all_matches_spec st (rev l)) with (rs := rev rules)
      as (b & Hb & Hiff).
    { apply Forall_rev. eapply chain_nodes_exist; eassumption. }
    { rewrite !length_rev. lia. }
    exists l, b. repeat split; try assumption.
    + now symmetry.
    + now apply Hiff.
    + intros [_ HF]. now apply Hiff.
    + intros Hne. lia.
  - apply Nat.eqb_neq in E. exists l, false.
    repeat split; try assumption; try reflexivity; try discriminate.
    + intros [Hlen _]. lia.
Qed.

(** [add_child] keeps parents older than their children: the only parent
    pointer it writes is that of the new object, to an object of the store. *)
Lemma add_child_parents_older (st st' : Store) (p c : ident) (t : string)
    (r f : bool) :
  parents_older st -> add_child p t r f st = Ok c st' -> parents_older st'.
Proof.
  intros Hold. unfold add_child.
  destruct (String.eqb t EmptyString); [discriminate|].
  unfold bind at 1, get_node, read.
  destruct (st !! p) as [nd|] eqn:Hp; [|discriminate].
  pose proof (lookup_lt_Some _ _ _ Hp) as Hlt.
  assert (Hnew : forall nd', parent nd' = parent nd ->
            is_root nd' = is_root nd ->
            parents_older (<[p := nd']> (st ++ [new_HConfigChild p t]))).
  { intros nd' Hpar Hroot i x Hi Hr.
    destruct (Nat.eq_dec i p) as [->|Hne].
    - rewrite list_lookup_insert_eq in Hi
        by (rewrite length_app; simpl; lia).
      injection Hi as <-. rewrite Hpar. apply (Hold p nd Hp). congruence.
    - rewrite list_lookup_insert_ne in Hi by auto.
      destruct (Nat.lt_ge_cases i (length st)) as [Hil|Hil].
      + rewrite lookup_app_l in Hi by assumption. eauto.
      + destruct (Nat.eq_dec i (length st)) as [->|Hne'].
        * rewrite lookup_app_r, Nat.sub_diag in Hi by lia.
          injection Hi as <-. exact Hlt.
        * rewrite lookup_ge_None_2 in Hi; [discriminate|].
          rewrite length_app. simpl. lia. }
  assert (Hp' : (st ++ [new_HConfigChild p t]) !! p = Some nd)
    by (now rewrite lookup_app_l).
  destruct (negb (dict_mem t (children_dict nd))).
  - unfold bind, alloc, update, ret. rewrite Hp'.
    rewrite list_lookup_insert_eq by (rewrite length_app; simpl; lia).
    intros [= _ <-]. rewrite list_insert_insert_eq. now apply Hnew.
  - unfold bind at 1, read.
    destruct (_duplicate_child_allowed_check st p) as [a|]; [|discriminate].
    destruct (a || f).
    + unfold bind, alloc, update, ret. rewrite Hp'.
      intros [= _ <-]. now apply Hnew.
    + destruct r; [discriminate|]. unfold read.
      destruct (dict_get t (children_dict nd)); [|discriminate].
      now intros [= _ <-].
Qed.

End Lineage.

Lemma vlan_store_parents_older : parents_older vlan_store.
Proof.
  intros [|[|[|i]]] nd H Hr; simpl in H; inversion H; subst; simpl in *;
    try discriminate; lia.
Defined.

(** On the node ["shutdown"] below ["interface Vlan2"], with the rules
    [startswith "interface"] then [equals "shutdown"]. *)
Lemma lineage_test_spec_witness :
  exists l b,
    lineage vlan_store 2 = Some l /\ ancestor_chain vlan_store 2 l /\
    lineage_test (P:=generic_platform) vlan_store 2
      [rule_startswith "interface"; rule_equals "shutdown"] = Some b /\
    (b = true <->
       length l = 2 /\
       Forall2 (fun c r => matches (P:=generic_platform) vlan_store c r
                           = Some true)
               (rev l) [rule_equals "shutdown"; rule_startswith "interface"]) /\
    (length l <> 2 -> b = false).
Proof.
  apply (lineage_test_spec (P:=generic_platform) vlan_store 2
           [rule_startswith "interface"; rule_equals "shutdown"]
           vlan_store_parents_older).
  simpl. lia.
Defined.

Example lineage_test_vlan :
  lineage vlan_store 2 = Some [1; 2] /\
  lineage_test (P:=generic_platform) vlan_store 2
    [rule_startswith "interface"; rule_equals "shutdown"] = Some true /\
  lineage_test (P:=generic_platform) vlan_store 2
    [rule_equals "shutdown"] = Some false.
Proof. repeat split. Qed.

(** ** The store *)

Lemma lookup_alloc_old (st : Store) (x : HConfigNode) (i : nat) :
  i < length st -> (st ++ [x]) !! i = st !! i.
Proof. intros H. now apply lookup_app_l. Qed.

Lemma lookup_alloc_new (st : Store) (x : HConfigNode) :
  (st ++ [x]) !! length st = Some x.
Proof. rewrite lookup_app_r by lia. now rewrite Nat.sub_diag. Qed.

Lemma lookup_Some_lt (st : Store) (i : nat) (x : HConfigNode) :
  st !! i = Some x -> i < length st.
Proof. apply lookup_lt_Some. Qed.

(** ** Running the monad *)

Lemma bind_ok {A B} (m : M A) (k : A -> M B) (st st' : Store) (a : A) :
  m st = Ok a st' -> bind m k st = k a st'.
Proof. intros H. unfold bind. now rewrite H. Qed.

Lemma bind_read {A B} (f : Store -> option A) (k : A -> M B) (st : Store)
    (a : A) :
  f st = Some a -> bind (read f) k st = k a st.
Proof. intros H. unfold bind, read. now rewrite H. Qed.

Lemma bind_get_node {B} (n : ident) (k : HConfigNode -> M B) (st : Store)
    (nd : HConfigNode) :
  st !! n = Some nd -> bind (get_node n) k st = k nd st.
Proof. intros H. unfold get_node. now apply bind_read. Qed.

Lemma bind_update {B} (n : ident) (f : HConfigNode -> HConfigNode)
    (k : unit -> M B) (st : Store) (x : HConfigNode) :
  st !! n = Some x -> bind (update n f) k st = k tt (<[n := f x]> st).
Proof. intros H. unfold bind, update. now rewrite H. Qed.

Lemma drop_after_split {A} (pre post : list A) (x : A) :
  drop (S (length pre)) (pre ++ x :: post) = post.
Proof. induction pre as [|y pre IH]; [reflexivity | exact IH]. Qed.

(** ** Dictionaries *)

Lemma dict_mem_get (k : string) (d : pydict) :
  dict_mem k d = true <-> exists v, dict_get k d = Some v.
Proof.
  unfold dict_mem. destruct (dict_get k d); split; eauto; try discriminate.
  intros [v Hv]; discriminate.
Qed.

Lemma dict_get_app (k : string) (d1 d2 : pydict) :
  dict_get k (d1 ++ d2) =
  match dict_get k d1 with Some v => Some v | None => dict_get k d2 end.
Proof.
  induction d1 as [|[k' v'] d1 IH]; simpl; [reflexivity|].
  destruct (String.eqb k k'); [reflexivity | apply IH].
Qed.

Lemma dict_get_setdefault (k k' : string) (v : nat) (d : pydict) :
  dict_get k (dict_setdefault k' v d) =
  match dict_get k d with
  | Some w => Some w
  | None => if String.eqb k k' then Some v else None
  end.
Proof.
  unfold dict_setdefault, dict_mem.
  destruct (dict_get k' d) as [w'|] eqn:Hk'.
  - destruct (dict_get k d) eqn:Hk; [reflexivity|].
    destruct (String.eqb_spec k k'); [congruence | reflexivity].
  - rewrite dict_get_app. simpl. reflexivity.
Qed.

Lemma dict_get_set (k k' : string) (v : nat) (d : pydict) :
  dict_get k (dict_set k' v d) =
  if String.eqb k k' then Some v else dict_get k d.
Proof.
  induction d as [|[k0 v0] d IH]; simpl.
  - reflexivity.
  - destruct (String.eqb_spec k' k0) as [->|Hne]; simpl.
    + destruct (String.eqb k k0); reflexivity.
    + rewrite IH. destruct (String.eqb_spec k k0) as [->|Hne'].
      * destruct (String.eqb_spec k0 k'); [congruence | reflexivity].
      * reflexivity.
Qed.

(** ** The index *)

Section Index.
Context {P : Platform}.

Lemma build_dict_get (st : Store) (cs : list ident) :
  forall d0 d, build_dict st cs d0 = Some d ->
  forall t, dict_get t d =
    match dict_get t d0 with
    | Some v => Some v
    | None => first_with_text st cs t
    end.
Proof.
  induction cs as [|c cs IH]; intros d0 d; simpl.
  - intros [= <-] t. now destruct (dict_get t d0).
  - unfold text. destruct (st !! c) as [x|] eqn:Hc; simpl; [|discriminate].
    intros H t. rewrite (IH _ _ H), dict_get_setdefault.
    destruct (dict_get t d0); [reflexivity|].
    rewrite String.eqb_sym. now destruct (String.eqb (_text x) t).
Qed.

Lemma first_with_text_split (st : Store) (cs : list ident) (t : string)
    (c0 : ident) :
  first_with_text st cs t = Some c0 ->
  exists pre post x,
    cs = pre ++ c0 :: post /\ st !! c0 = Some x /\ _text x = t /\
    Forall (fun c => forall y, st !! c = Some y -> _text y <> t) pre.
Proof.
  induction cs as [|c cs IH]; simpl; [discriminate|].
  destruct (st !! c) as [y|] eqn:Hc.
  - destruct (String.eqb_spec (_text y) t) as [He|Hne].
    + intros [= <-]. exists [], cs, y. repeat split; auto.
    + intros H. destruct (IH H) as (pre & post & x & -> & Hx & Ht & Hpre).
      exists (c :: pre), post, x. repeat split; auto.
      constructor; [|assumption]. intros y' Hy'. congruence.
  - intros H. destruct (IH H) as (pre & post & x & -> & Hx & Ht & Hpre).
    exists (c :: pre), post, x. repeat split; auto.
    constructor; [|assumption]. intros y' Hy'. congruence.
Qed.

Lemma first_with_text_none (st : Store) (cs : list ident) (t : string) :
  first_with_text st cs t = None ->
  Forall (fun c => forall y, st !! c = Some y -> _text y <> t) cs.
Proof.
  induction cs as [|c cs IH]; simpl; [constructor|].
  destruct (st !! c) as [y|] eqn:Hc.
  - destruct (String.eqb_spec (_text y) t) as [He|Hne]; [discriminate|].
    intros H. constructor; [|auto]. intros y' Hy'. congruence.
  - intros H. constructor; [|auto]. intros y' Hy'. congruence.
Qed.

(** Stores that give the children of a list the same texts give the same
    earliest child. *)
Lemma first_with_text_ext (st st' : Store) (cs : list ident) (t : string) :
  Forall (fun c => _text <$> st' !! c = _text <$> st !! c) cs ->
  first_with_text st' cs t = first_with_text st cs t.
Proof.
  induction 1 as [|c cs Hc _ IH]; simpl; [reflexivity|].
  destruct (st' !! c) as [y'|], (st !! c) as [y|]; simpl in Hc;
    try discriminate; [|assumption].
  injection Hc as ->. now rewrite IH.
Qed.

Lemma first_with_text_app (st : Store) (cs1 cs2 : list ident) (t : string) :
  first_with_text st (cs1 ++ cs2) t =
  match first_with_text st cs1 t with
  | Some c => Some c
  | None => first_with_text st cs2 t
  end.
Proof.
  induction cs1 as [|c cs1 IH]; simpl; [reflexivity|].
  destruct (st !! c) as [y|]; [|assumption].
  destruct (String.eqb (_text y) t); [reflexivity | assumption].
Qed.

End Index.

(** ** [add_child] *)

Section AddChild.
Context {P : Platform}.

Lemma add_child_empty (st : Store) (p : ident) (r f : bool) :
  add_child p EmptyString r f st = Raise ValueError st.
Proof. reflexivity. Qed.

Lemma add_child_fresh (st : Store) (p : ident) (nd : HConfigNode)
    (t : string) (r f : bool) :
  st !! p = Some nd -> t <> EmptyString ->
  dict_mem t (children_dict nd) = false ->
  add_child p t r f st =
  Ok (length st)
     (store_with_child st p t
        (with_children_dict (dict_set t (length st) (children_dict nd))
                            (append_child (length st) nd))).
Proof.
  intros Hp Ht Hm. unfold add_child, store_with_child.
  apply String.eqb_neq in Ht. rewrite Ht.
  unfold bind, get_node, read, alloc, update, ret. rewrite Hp, Hm. simpl.
  pose proof (lookup_Some_lt _ _ _ Hp) as Hlt.
  rewrite lookup_alloc_old, Hp by assumption.
  rewrite list_lookup_insert_eq by (rewrite length_app; simpl; lia).
  now rewrite list_insert_insert_eq.
Qed.

Lemma add_child_duplicate (st : Store) (p : ident) (nd : HConfigNode)
    (t : string) (r f allowed : bool) :
  st !! p = Some nd -> t <> EmptyString ->
  dict_mem t (children_dict nd) = true ->
  _duplicate_child_allowed_check st p = Some allowed ->
  allowed || f = true ->
  add_child p t r f st =
  Ok (length st) (store_with_child st p t (append_child (length st) nd)).
Proof.
  intros Hp Ht Hm Hd Ha. unfold add_child, store_with_child.
  apply String.eqb_neq in Ht. rewrite Ht.
  unfold bind, get_node, read, alloc, update, ret. rewrite Hp, Hm. simpl.
  rewrite Hd, Ha.
  pose proof (lookup_Some_lt _ _ _ Hp) as Hlt.
  now rewrite lookup_alloc_old, Hp by assumption.
Qed.

Lemma add_child_existing (st : Store) (p : ident) (nd : HConfigNode)
    (t : string) (r : bool) (c : ident) :
  st !! p = Some nd -> t <> EmptyString ->
  dict_get t (children_dict nd) = Some c ->
  _duplicate_child_allowed_check st p = Some false ->
  add_child p t r false st =
  if r then Raise DuplicateChildError st else Ok c st.
Proof.
  intros Hp Ht Hg Hd. unfold add_child.
  apply String.eqb_neq in Ht. rewrite Ht.
  unfold bind, get_node, read, alloc, update, ret, raise. rewrite Hp.
  unfold dict_mem. rewrite Hg. simpl. rewrite Hd. simpl.
  now destruct r.
Qed.

End AddChild.

(** ** [get_children] with a string [equals] *)

Section GetChildren.
Context {P : Platform}.

Lemma matches_text_equals (t s : string) :
  matches_text re_span t (rule_equals s) = String.eqb t s.
Proof. unfold matches_text; simpl. now destruct (String.eqb t s). Qed.

Lemma scan_equals (st : Store) (cs : list ident) (s : string) :
  Forall (fun c => is_Some (st !! c)) cs ->
  scan st cs (rule_equals s) = (children_with_text st cs s, GenDone).
Proof.
  induction 1 as [|c cs [x Hc] _ IH]; simpl; [reflexivity|].
  rewrite (matches_defined st c x _ Hc), matches_text_equals, IH, Hc.
  reflexivity.
Qed.

Lemma children_ok_exist (st : Store) (nd : HConfigNode) :
  children_ok st nd -> Forall (fun c => is_Some (st !! c)) (children nd).
Proof.
  intros H. eapply Forall_impl; [exact H|]. intros c (x & Hx & _). eauto.
Qed.

(** Objects with different texts are not [==]. *)
Lemma node_eq_text_differs (fuel : nat) (st : Store) (a b : ident)
    (na nb : HConfigNode) :
  st !! a = Some na -> st !! b = Some nb ->
  is_root na = false -> is_root nb = false ->
  _text na <> _text nb ->
  node_eq (S fuel) st a b = Some false.
Proof.
  intros Ha Hb Hra Hrb Ht. cbn [node_eq]. rewrite Ha, Hb; simpl.
  rewrite Hra, Hrb. apply String.eqb_neq in Ht. now rewrite Ht.
Qed.

(** [children.index(child)] of the earliest child with a text is its own
    position: nothing before it has its text. *)
Lemma list_index_first (fuel : nat) (st : Store) (pre post : list ident)
    (c0 : ident) (x : HConfigNode) :
  st !! c0 = Some x -> is_root x = false ->
  Forall (fun c => exists y, st !! c = Some y /\ is_root y = false) pre ->
  Forall (fun c => forall y, st !! c = Some y -> _text y <> _text x) pre ->
  list_index (S fuel) st (pre ++ c0 :: post) c0 = Some (Some (length pre)).
Proof.
  intros Hx Hr Hok Hne. induction pre as [|c pre IH].
  - cbn [app list_index]. unfold item_eq. now rewrite Nat.eqb_refl.
  - inversion Hok as [|? ? (y & Hy & Hry) Hok']; subst.
    inversion Hne as [|? ? Hc Hne']; subst.
    cbn [app list_index]. unfold item_eq.
    destruct (Nat.eqb_spec c c0) as [->|Hcc].
    + exfalso. apply (Hc x Hx). reflexivity.
    + rewrite (node_eq_text_differs fuel st c c0 y x) by eauto.
      now rewrite (IH Hok' Hne').
Qed.

(** The fast path of [get_children] for a string [equals] yields what the
    plain scan of the child list yields, when the index agrees with the
    list. *)
Lemma get_children_equals_scan (fuel : nat) (st : Store) (p : ident)
    (nd : HConfigNode) (s : string) :
  st !! p = Some nd -> children_ok st nd -> index_agrees st nd ->
  get_children (S fuel) st p (rule_equals s) =
  scan st (children nd) (rule_equals s).
Proof.
  intros Hp Hok Hidx. unfold get_children. rewrite Hp.
  cbn [rule_equals equals startswith endswith contains re_search].
  rewrite (Hidx s).
  pose proof (children_ok_exist _ _ Hok) as Hex.
  destruct (first_with_text st (children nd) s) as [c0|] eqn:Hf.
  - destruct (first_with_text_split _ _ _ _ Hf)
      as (pre & post & x & Hcs & Hx & Ht & Hpre).
    unfold scan_after. rewrite Hcs in *.
    unfold children_ok in Hok. rewrite Hcs in Hok.
    apply Forall_app in Hok as [Hok1 Hok2].
    inversion Hok2 as [|? ? (x' & Hx' & Hrx) Hok3]; subst.
    assert (x' = x) by congruence. subst x'.
    rewrite (list_index_first fuel st pre post c0 x Hx Hrx Hok1 Hpre).
    rewrite drop_after_split.
    apply Forall_app in Hex as [Hex1 Hex2].
    inversion Hex2 as [|? ? _ Hex3]; subst.
    rewrite !scan_equals by (try apply Forall_app; auto).
    unfold children_with_text. rewrite List.filter_app. cbn [List.filter].
    rewrite Hx, String.eqb_refl.
    replace (List.filter _ pre) with (@nil nat); [reflexivity|].
    symmetry. clear -Hpre. induction Hpre as [|c pre Hc _ IH]; [reflexivity|].
    cbn [List.filter]. rewrite IH.
    destruct (st !! c) as [y|] eqn:Hy; [|reflexivity].
    specialize (Hc y eq_refl). apply String.eqb_neq in Hc. now rewrite Hc.
  - pose proof (first_with_text_none _ _ _ Hf) as Hnone.
    rewrite scan_equals by assumption.
    unfold children_with_text.
    replace (List.filter _ (children nd)) with (@nil nat); [reflexivity|].
    symmetry. clear -Hnone.
    induction Hnone as [|c cs Hc _ IH]; [reflexivity|].
    cbn [List.filter]. rewrite IH.
    destruct (st !! c) as [y|] eqn:Hy; [|reflexivity].
    specialize (Hc y eq_refl). apply String.eqb_neq in Hc. now rewrite Hc.
Qed.

(** Every other rule goes through the scan of the child list. *)
Lemma get_children_general (fuel : nat) (st : Store) (p : ident)
    (nd : HConfigNode) (r : MatchRule) :
  st !! p = Some nd -> takes_fast_path r = false ->
  get_children fuel st p r = scan st (children nd) r.
Proof.
  intros Hp Hfast. unfold get_children, takes_fast_path in *. rewrite Hp.
  destruct (equals r) as [[s|l|l]|], (startswith r), (endswith r),
    (contains r), (re_search r); try reflexivity; discriminate.
Qed.

End GetChildren.

(** ** Duplicate insertion *)

Section Duplicates.
Context {P : Platform}.

Lemma store_with_child_parent (st : Store) (p : ident) (t : string)
    (nd' : HConfigNode) :
  p < length st -> store_with_child st p t nd' !! p = Some nd'.
Proof.
  intros H. unfold store_with_child.
  apply list_lookup_insert_eq. rewrite length_app; simpl; lia.
Qed.

Lemma store_with_child_new (st : Store) (p : ident) (t : string)
    (nd' : HConfigNode) :
  p < length st ->
  store_with_child st p t nd' !! length st = Some (new_HConfigChild p t).
Proof.
  intros H. unfold store_with_child.
  rewrite list_lookup_insert_ne by lia. apply lookup_alloc_new.
Qed.

Lemma store_with_child_other (st : Store) (p : ident) (t : string)
    (nd' : HConfigNode) (i : ident) :
  i < length st -> i <> p -> store_with_child st p t nd' !! i = st !! i.
Proof.
  intros Hi Hne. unfold store_with_child.
  rewrite list_lookup_insert_ne by auto. now apply lookup_alloc_old.
Qed.

(** Creating a child changes no text and no class of an older object, when
    the parent keeps its own. *)
Lemma store_with_child_old (st : Store) (p : ident) (t : string)
    (nd nd' : HConfigNode) (i : ident) (x : HConfigNode) :
  st !! p = Some nd -> _text nd' = _text nd -> is_root nd' = is_root nd ->
  st !! i = Some x ->
  exists x', store_with_child st p t nd' !! i = Some x' /\
             _text x' = _text x /\ is_root x' = is_root x.
Proof.
  intros Hp Ht Hr Hi.
  pose proof (lookup_Some_lt _ _ _ Hp) as Hlp.
  pose proof (lookup_Some_lt _ _ _ Hi) as Hli.
  destruct (Nat.eq_dec i p) as [->|Hne].
  - rewrite store_with_child_parent by assumption.
    exists nd'. assert (x = nd) by congruence. subst. auto.
  - rewrite store_with_child_other by assumption. eauto.
Qed.

(** Insertion under a parent [p] whose index agrees with its child list and
    that has a child with the non-empty text [t], the earliest being [c0];
    [allowed] is what [_duplicate_child_allowed_check] answers.  When
    duplicates are neither allowed by the policy
    nor forced, [add_child] returns [c0] and leaves the store as it is, so a
    repeated call returns [c0] again, and with [raise_on_duplicate] it raises
    [DuplicateChildError].  When duplicates are allowed or forced, it
    appends a new object, different from every child so far, with the text
    [t], and [get_children(equals=t)] then yields all children with that
    text, [c0] and the new one among them. *)
Lemma add_child_on_agreeing_index (st : Store) (p : ident) (nd : HConfigNode)
    (t : string) (c0 : ident) (allowed : bool) :
  st !! p = Some nd -> children_ok st nd -> index_agrees st nd ->
  texts_trimmed st -> t <> EmptyString ->
  first_with_text st (children nd) t = Some c0 ->
  _duplicate_child_allowed_check st p = Some allowed ->
  (allowed = false ->
     add_child p t false false st = Ok c0 st /\
     (let* a := add_child p t false false in
      let* b := add_child p t false false in ret (a, b))%hc st
       = Ok (c0, c0) st /\
     add_child p t true false st = Raise DuplicateChildError st) /\
  (forall force raise_on_duplicate, allowed || force = true ->
     exists st' nd',
       add_child p t raise_on_duplicate force st = Ok (length st) st' /\
       st' !! p = Some nd' /\
       children nd' = children nd ++ [length st] /\
       ~ In (length st) (children nd) /\
       text st' (length st) = Some t /\
       forall fuel,
         get_children (S fuel) st' p (rule_equals t) =
           (children_with_text st' (children nd') t, GenDone) /\
         In c0 (children_with_text st' (children nd') t) /\
         In (length st) (children_with_text st' (children nd') t)).
Proof.
  intros Hp Hok Hidx Htrim Ht Hfirst Hdup.
  assert (Hget : dict_get t (children_dict nd) = Some c0)
    by now rewrite (Hidx t).
  assert (Hmem : dict_mem t (children_dict nd) = true)
    by (apply dict_mem_get; eauto).
  pose proof (lookup_Some_lt _ _ _ Hp) as Hlp.
  destruct (first_with_text_split _ _ _ _ Hfirst)
    as (pre & post & x0 & Hcs & Hx0 & Htx0 & Hpre).
  assert (Hstrip : strip t = t) by (rewrite <- Htx0; eauto).
  split.
  - intros ->.
    pose proof (add_child_existing st p nd t false c0 Hp Ht Hget Hdup) as H1.
    pose proof (add_child_existing st p nd t true c0 Hp Ht Hget Hdup) as H2.
    simpl in H1, H2. repeat split; try assumption.
    unfold bind. rewrite H1, H1. reflexivity.
  - intros force r Hforce.
    set (n := length st).
    set (nd' := append_child n nd).
    set (st' := store_with_child st p t nd').
    exists st', nd'.
    assert (Hp' : st' !! p = Some nd')
      by (apply store_with_child_parent; assumption).
    assert (Hn' : st' !! n = Some (new_HConfigChild p t))
      by (apply store_with_child_new; assumption).
    assert (Hold : forall i x, st !! i = Some x ->
              exists x', st' !! i = Some x' /\
                         _text x' = _text x /\ is_root x' = is_root x).
    { intros i x Hi.
      eapply (store_with_child_old st p t nd nd'); eauto. }
    assert (Hfresh : ~ In n (children nd)).
    { intros Hin. unfold children_ok in Hok.
      rewrite List.Forall_forall in Hok.
      destruct (Hok n Hin) as (x & Hx & _).
      apply lookup_Some_lt in Hx. unfold n in Hx. lia. }
    assert (Hok' : children_ok st' nd').
    { unfold children_ok. cbn [nd' append_child with_children children].
      apply Forall_app. split.
      - eapply Forall_impl; [exact Hok|].
        intros c (x & Hx & Hr). destruct (Hold c x Hx) as (x' & Hx' & _ & Hr').
        exists x'. split; [assumption | congruence].
      - constructor; [|constructor].
        eexists. split; [exact Hn' | reflexivity]. }
    assert (Hidx' : index_agrees st' nd').
    { intros t'. cbn [nd' append_child with_children children children_dict].
      rewrite (Hidx t'), first_with_text_app.
      rewrite (first_with_text_ext st st' (children nd) t').
      2:{ eapply Forall_impl; [exact Hok|].
          intros c (x & Hx & _). destruct (Hold c x Hx) as (x' & Hx' & Hxt & _).
          rewrite Hx', Hx. simpl. now rewrite Hxt. }
      destruct (first_with_text st (children nd) t') eqn:E; [reflexivity|].
      cbn [first_with_text]. rewrite Hn'. cbn [new_HConfigChild _text].
      rewrite Hstrip. destruct (String.eqb_spec t t'); [|reflexivity].
      subst t'. congruence. }
    repeat split.
    + now apply (add_child_duplicate st p nd t r force allowed).
    + assumption.
    + assumption.
    + unfold text. rewrite Hn'. simpl. now rewrite Hstrip.
    + rewrite (get_children_equals_scan fuel st' p nd' t Hp' Hok' Hidx').
      apply scan_equals. now apply children_ok_exist.
    + unfold children_with_text. apply filter_In. split.
      * cbn [nd' append_child with_children children]. rewrite Hcs.
        apply in_or_app. left. apply in_or_app. right. now left.
      * destruct (Hold c0 x0 Hx0) as (x' & Hx' & Hxt & _).
        rewrite Hx', Hxt, Htx0. apply String.eqb_refl.
    + unfold children_with_text. apply filter_In. split.
      * cbn [nd' append_child with_children children].
        apply in_or_app. right. now left.
      * fold n. rewrite Hn'. cbn [new_HConfigChild _text].
        rewrite Hstrip. apply String.eqb_refl.
Qed.

End Duplicates.

(** ** What keeps the index in agreement *)

Section IndexMaintenance.
Context {P : Platform}.

Lemma build_dict_total (st : Store) (cs : list ident) :
  Forall (fun c => is_Some (st !! c)) cs ->
  forall d0, exists d, build_dict st cs d0 = Some d.
Proof.
  induction 1 as [|c cs [x Hx] _ IH]; intros d0; simpl; [eauto|].
  unfold text. rewrite Hx. simpl. apply IH.
Qed.

(** [rebuild_children_dict] returns and puts the index in agreement with
    the child list. *)
Lemma rebuild_children_dict_agrees (st : Store) (p : ident)
    (nd : HConfigNode) :
  st !! p = Some nd ->
  Forall (fun c => is_Some (st !! c)) (children nd) ->
  exists d,
    rebuild_children_dict p st = Ok tt (<[p := with_children_dict d nd]> st) /\
    index_agrees (<[p := with_children_dict d nd]> st)
                 (with_children_dict d nd).
Proof.
  intros Hp Hex. destruct (build_dict_total st _ Hex []) as [d Hd].
  exists d. split.
  - unfold rebuild_children_dict.
    rewrite (bind_get_node _ _ _ _ Hp).
    rewrite (bind_read _ _ _ _ Hd). unfold update. now rewrite Hp.
  - intros t. cbn [with_children_dict children children_dict].
    rewrite (build_dict_get st _ _ _ Hd t). cbn [dict_get].
    symmetry. apply first_with_text_ext.
    eapply Forall_impl; [exact Hex|]. intros c _.
    destruct (Nat.eq_dec c p) as [->|Hne].
    + rewrite list_lookup_insert_eq by (eapply lookup_Some_lt; eauto).
      now rewrite Hp.
    + now rewrite list_lookup_insert_ne by auto.
Qed.

(** [add_child] with a trimmed text that no child bears keeps the index in
    agreement: the new entry is for the text the new child bears. *)
Lemma add_child_keeps_index (st : Store) (p : ident) (nd : HConfigNode)
    (t : string) (r f : bool) :
  st !! p = Some nd -> children_ok st nd -> index_agrees st nd ->
  t <> EmptyString -> strip t = t ->
  dict_mem t (children_dict nd) = false ->
  exists st' nd',
    add_child p t r f st = Ok (length st) st' /\
    st' !! p = Some nd' /\
    children nd' = children nd ++ [length st] /\
    index_agrees st' nd'.
Proof.
  intros Hp Hok Hidx Ht Hstrip Hm.
  pose proof (lookup_Some_lt _ _ _ Hp) as Hlp.
  eexists. eexists. split; [exact (add_child_fresh st p nd t r f Hp Ht Hm)|].
  split; [now apply store_with_child_parent|]. split; [reflexivity|].
  intros t'. cbn [with_children_dict append_child with_children children
                  children_dict].
  rewrite dict_get_set, first_with_text_app.
  rewrite (first_with_text_ext st _ (children nd) t').
  2:{ eapply Forall_impl; [exact Hok|]. intros c (x & Hx & _).
      edestruct (store_with_child_old st p t nd) as (x' & Hx' & Hxt & _);
        [exact Hp | | | exact Hx | rewrite Hx', Hx; simpl; now rewrite Hxt];
        reflexivity. }
  rewrite <- (Hidx t'). cbn [first_with_text].
  rewrite store_with_child_new by assumption.
  cbn [new_HConfigChild _text]. rewrite Hstrip, (String.eqb_sym t' t).
  destruct (String.eqb_spec t t') as [<-|Hne].
  - unfold dict_mem in Hm. now destruct (dict_get t (children_dict nd)).
  - now destruct (dict_get t' (children_dict nd)).
Qed.

End IndexMaintenance.

Lemma dup_store_index_agrees :
  index_agrees dup_store (mkNode true 0 "" 0 [1] [("a", 1)] [] [] false 0%Z []).
Proof.
  intros t. simpl. rewrite (String.eqb_sym t). reflexivity.
Defined.

Lemma dup_store_texts_trimmed : texts_trimmed dup_store.
Proof.
  intros [|[|i]] nd H; simpl in H; inversion H; subst; reflexivity.
Defined.

(** Under the root of [dup_store], where duplicates are not allowed:
    ["a"] is returned as it is, or refused, or duplicated when forced. *)
Example add_child_on_dup_store :
  (add_child (P:=generic_platform) 0 "a" false false dup_store
     = Ok 1 dup_store /\
   (let* a := add_child (P:=generic_platform) 0 "a" false false in
    let* b := add_child (P:=generic_platform) 0 "a" false false in
    ret (a, b))%hc dup_store = Ok (1, 1) dup_store /\
   add_child (P:=generic_platform) 0 "a" true false dup_store
     = Raise DuplicateChildError dup_store) /\
  exists st' nd',
    add_child (P:=generic_platform) 0 "a" false true dup_store = Ok 2 st' /\
    st' !! 0 = Some nd' /\
    children nd' = [1; 2] /\
    ~ In 2 [1] /\
    text st' 2 = Some "a" /\
    forall fuel,
      get_children (P:=generic_platform) (S fuel) st' 0 (rule_equals "a") =
        (children_with_text st' (children nd') "a", GenDone) /\
      In 1 (children_with_text st' (children nd') "a") /\
      In 2 (children_with_text st' (children nd') "a").
Proof.
  destruct (add_child_on_agreeing_index (P:=generic_platform) dup_store 0
              (mkNode true 0 "" 0 [1] [("a", 1)] [] [] false 0%Z [])
              "a" 1 false) as [H1 H2].
  - reflexivity.
  - repeat constructor. eexists. split; reflexivity.
  - exact dup_store_index_agrees.
  - exact dup_store_texts_trimmed.
  - discriminate.
  - reflexivity.
  - reflexivity.
  - split; [exact (H1 eq_refl) | exact (H2 true false eq_refl)].
Qed.

(** Below a parent whose lineage the policy allows duplicates for, the
    second insertion of a text makes a second child without being forced. *)
Example add_child_policy_allows_duplicates :
  exists st,
    (let* r := HConfig 0 in
     let* p := add_child (P:=policy_platform) r "route-policy A" false false in
     let* a := add_child (P:=policy_platform) p "endif" false false in
     let* b := add_child (P:=policy_platform) p "endif" false false in
     ret (p, a, b))%hc [] = Ok (1, 2, 3) st /\
    get_children (P:=policy_platform) 1 st 1 (rule_equals "endif")
      = ([2; 3], GenDone).
Proof. eexists. split; vm_compute; reflexivity. Qed.

(** ** The index after the public operations *)

(** C3: [add_child] files the new child under the text it was given and not
    under the text the child bears, which is trimmed.  After
    [root.add_child(" a")] the index of the root has the one key [" a"] for a
    child whose text is ["a"]: it has no entry for the text of its only
    child, and [rebuild_children_dict] would compute another index. *)
Theorem add_child_untrimmed_breaks_index :
  exists st nd,
    untrimmed_insertion [] = Ok (0, 1) st /\
    st !! 0 = Some nd /\
    children nd = [1] /\
    text st 1 = Some "a" /\
    children_dict nd = [(" a", 1)] /\
    ~ index_agrees st nd /\
    build_dict st (children nd) [] = Some [("a", 1)].
Proof.
  eexists. eexists. split; [vm_compute; reflexivity|].
  split; [reflexivity|]. repeat split.
  intros H. specialize (H "a"). vm_compute in H. discriminate.
Qed.

(** C6: after [root.add_child(" a")] the root has a child with the text
    ["a"]; it allows no duplicates and none is forced.  [add_child("a")] does
    not return that child: it appends a new object with the same text, and
    with [raise_on_duplicate] it does the same and raises nothing.  The index
    has the key [" a"] and not the text ["a"], which is what [add_child]
    looks up. *)
Theorem add_child_misses_untrimmed_duplicate :
  exists st nd,
    untrimmed_insertion [] = Ok (0, 1) st /\
    st !! 0 = Some nd /\
    first_with_text st (children nd) "a" = Some 1 /\
    _duplicate_child_allowed_check (P:=generic_platform) st 0 = Some false /\
    (exists st' nd',
       add_child (P:=generic_platform) 0 "a" false false st = Ok 2 st' /\
       st' !! 0 = Some nd' /\ children nd' = [1; 2] /\
       text st' 1 = Some "a" /\ text st' 2 = Some "a") /\
    (exists st' nd',
       add_child (P:=generic_platform) 0 "a" true false st = Ok 2 st' /\
       st' !! 0 = Some nd' /\ children nd' = [1; 2] /\
       text st' 1 = Some "a" /\ text st' 2 = Some "a").
Proof.
  eexists. eexists. split; [vm_compute; reflexivity|].
  split; [reflexivity|].
  split; [reflexivity|].
  split; [reflexivity|].
  split; eexists; eexists; (split; [vm_compute; reflexivity|]);
    repeat split; reflexivity.
Qed.

(** The same disagreement by another way: [move] leaves [parent] as it was,
    so the [text] setter of a moved child rebuilds the index of the parent it
    left and not the index of the parent that holds it. *)
Example move_then_rename_breaks_index :
  exists st nd,
    move_then_rename [] = Ok (2, 1) st /\
    st !! 2 = Some nd /\
    children nd = [1] /\
    text st 1 = Some "y" /\
    children_dict nd = [("x", 1)] /\
    ~ index_agrees st nd.
Proof.
  eexists. eexists. split; [vm_compute; reflexivity|].
  split; [reflexivity|]. repeat split.
  intros H. specialize (H "y"). vm_compute in H. discriminate.
Qed.

(** ** The fast paths of [get_children] *)

(** C2: under a parent that does not allow duplicates, the [startswith]
    branch yields one child for each key of the index and returns; a
    duplicate made with [force_duplicate] is in the child list and not in
    the index.  On the root with the children ["a"], ["a"] the branch yields
    the first only, the scan of the child list both; the index agrees with
    the list, and the [equals] branch yields both. *)
Theorem get_children_startswith_misses_forced_duplicate :
  exists st nd,
    forced_duplicate [] = Ok 0 st /\
    st !! 0 = Some nd /\
    children nd = [1; 2] /\
    index_agrees st nd /\
    get_children (P:=generic_platform) 1 st 0 (rule_startswith "a")
      = ([1], GenDone) /\
    scan (P:=generic_platform) st (children nd) (rule_startswith "a")
      = ([1; 2], GenDone) /\
    get_children (P:=generic_platform) 1 st 0 (rule_equals "a")
      = ([1; 2], GenDone).
Proof.
  eexists. eexists. split; [vm_compute; reflexivity|].
  split; [reflexivity|]. repeat split.
  intros t. destruct (String.eqb_spec t "a") as [->|Hne]; [reflexivity|].
  apply String.eqb_neq in Hne. cbn -[String.eqb]. rewrite Hne.
  rewrite String.eqb_sym in Hne. now rewrite Hne.
Qed.

(** ** Negation *)

Section Negation.
Context {P : Platform}.

Lemma never_raises_ret {A} (a : A) : never_raises (ret a).
Proof. intros st e st'. discriminate. Qed.

Lemma never_raises_read {A} (f : Store -> option A) : never_raises (read f).
Proof. intros st e st'. unfold read. destruct (f st); discriminate. Qed.

Lemma never_raises_update (n : ident) (f : HConfigNode -> HConfigNode) :
  never_raises (update n f).
Proof. intros st e st'. unfold update. destruct (st !! n); discriminate. Qed.

Lemma never_raises_bind {A B} (m : M A) (k : A -> M B) :
  never_raises m -> (forall a, never_raises (k a)) -> never_raises (bind m k).
Proof.
  intros Hm Hk st e st'. unfold bind.
  destruct (m st) as [a st1|e1 st1|st1] eqn:E.
  - apply Hk.
  - exfalso. exact (Hm _ _ _ E).
  - discriminate.
Qed.

Lemma never_raises_rebuild (p : ident) : never_raises (rebuild_children_dict p).
Proof.
  unfold rebuild_children_dict, get_node.
  apply never_raises_bind; [apply never_raises_read|]. intros nd.
  apply never_raises_bind; [apply never_raises_read|]. intros d.
  apply never_raises_update.
Qed.

Lemma never_raises_set_text (n : ident) (v : string) :
  never_raises (set_text n v).
Proof.
  unfold set_text, get_node.
  apply never_raises_bind; [apply never_raises_update|]. intros _.
  apply never_raises_bind; [apply never_raises_read|]. intros nd.
  apply never_raises_rebuild.
Qed.

Lemma set_text_text (n : ident) (v : string) (st st' : Store) :
  set_text n v st = Ok tt st' -> text st' n = Some (strip v).
Proof.
  unfold set_text, bind at 1, update.
  destruct (st !! n) as [x|] eqn:Hx; [|discriminate].
  pose proof (lookup_Some_lt _ _ _ Hx) as Hlt.
  erewrite bind_get_node by (now apply list_lookup_insert_eq).
  cbn [with_text parent]. unfold rebuild_children_dict, bind, get_node, read.
  destruct (_ !! parent x) as [pd|] eqn:Hpd; [|discriminate].
  destruct (build_dict _ _ _) as [d|]; [|discriminate].
  unfold update. rewrite Hpd. intros [= <-]. unfold text.
  destruct (Nat.eq_dec n (parent x)) as [Heq|Hne].
  - rewrite <- Heq in *.
    rewrite list_lookup_insert_eq in Hpd by assumption.
    injection Hpd as <-.
    rewrite list_lookup_insert_eq by (now rewrite length_insert).
    reflexivity.
  - rewrite list_lookup_insert_ne by auto.
    now rewrite list_lookup_insert_eq.
Qed.

(** Reading [_negation_prefix] raises [AttributeError], and so does all
    that reads it. *)
Lemma _negation_prefix_raises (st : Store) (n : ident) (nd : HConfigNode) :
  st !! n = Some nd -> _negation_prefix n st = Raise AttributeError st.
Proof.
  intros Hn. unfold _negation_prefix. now rewrite (bind_get_node _ _ _ _ Hn).
Qed.

Lemma text_without_negation_raises (st : Store) (n : ident)
    (nd : HConfigNode) :
  st !! n = Some nd -> text_without_negation n st = Raise AttributeError st.
Proof.
  intros Hn. unfold text_without_negation.
  erewrite bind_read by (unfold text; rewrite Hn; reflexivity).
  unfold bind. now rewrite (_negation_prefix_raises _ _ _ Hn).
Qed.

Lemma _swap_negation_raises (st : Store) (n : ident) (nd : HConfigNode) :
  st !! n = Some nd -> _swap_negation n st = Raise AttributeError st.
Proof.
  intros Hn. unfold _swap_negation.
  erewrite bind_read by (unfold text; rewrite Hn; reflexivity).
  unfold bind. now rewrite (_negation_prefix_raises _ _ _ Hn).
Qed.

Lemma _default_raises (st : Store) (n : ident) (nd : HConfigNode) :
  st !! n = Some nd -> _default n st = Raise AttributeError st.
Proof.
  intros Hn. unfold _default, bind.
  now rewrite (text_without_negation_raises _ _ _ Hn).
Qed.

(** [negate] without a replacement text: the [AttributeError] of the case
    it goes to, the text being as it was. *)
Lemma negate_without_replacement (st : Store) (n : ident) (nd : HConfigNode)
    (d : HConfigDriverBase) (dflt : bool) :
  st !! n = Some nd -> driver st n = Some d ->
  negation_negate_with_check d st n = None \/
  negation_negate_with_check d st n = Some EmptyString ->
  negation_default_when_check st n n = Some dflt ->
  negate n st = Raise AttributeError st.
Proof.
  intros Hn Hd Hrepl Hdflt. unfold negate.
  rewrite (bind_read _ _ _ _ Hd).
  erewrite bind_read by reflexivity.
  assert (Hrest :
    (let* dflt := read (fun st => negation_default_when_check st n n) in
     if dflt then _default n else _swap_negation n)%hc st
    = Raise AttributeError st).
  { rewrite (bind_read _ _ _ _ Hdflt). destruct dflt.
    - exact (_default_raises _ _ _ Hn).
    - exact (_swap_negation_raises _ _ _ Hn). }
  destruct Hrepl as [-> | ->]; exact Hrest.
Qed.

(** [negate] with a replacement text. *)
Lemma negate_with_replacement (st st' : Store) (n m : ident)
    (d : HConfigDriverBase) (c : ascii) (r : string) :
  driver st n = Some d ->
  negation_negate_with_check d st n = Some (String c r) ->
  negate n st = Ok m st' ->
  m = n /\ text st' n = Some (strip (String c r)).
Proof.
  intros Hd Hrepl. unfold negate.
  rewrite (bind_read _ _ _ _ Hd).
  erewrite bind_read by reflexivity.
  rewrite Hrepl. unfold bind.
  destruct (set_text n _ st) as [[] st1|e st1|st1] eqn:Hset; try discriminate.
  intros [= <- <-]. split; [reflexivity|].
  exact (set_text_text _ _ _ _ Hset).
Qed.

End Negation.

(** C7: the second and the third case of [negate] end in [AttributeError]:
    [_default] and [_swap_negation] read [self._negation_prefix], which no
    class defines; without a replacement text [negate] raises it on every
    platform and leaves the text as it was.  [swap_negation] of the Junos
    driver is not what [negate] calls: on ["set system x"] it gives
    ["delete system x"] and on ["system x"], which starts with neither
    prefix, it raises [ValueError], where [negate] raises [AttributeError]
    on both; on ["delete system x"] it raises [AttributeError] itself, through
    [text_without_negation]. *)
Theorem negate_reads_a_missing_attribute :
  (forall (P : Platform) (st : Store) (n : ident) (nd : HConfigNode)
          (d : HConfigDriverBase) (dflt : bool),
     st !! n = Some nd -> driver st n = Some d ->
     negation_negate_with_check d st n = None \/
     negation_negate_with_check d st n = Some EmptyString ->
     negation_default_when_check st n n = Some dflt ->
     negate n st = Raise AttributeError st) /\
  negate (P:=generic_platform) 2 vlan_store
    = Raise AttributeError vlan_store /\
  negate (P:=junos_platform) 1 (junos_line "set system x")
    = Raise AttributeError (junos_line "set system x") /\
  (exists st',
     junos_swap_negation 1 (junos_line "set system x")
       = Ok 1 st' /\
     text st' 1 = Some "delete system x") /\
  negate (P:=junos_platform) 1 (junos_line "system x")
    = Raise AttributeError (junos_line "system x") /\
  junos_swap_negation 1 (junos_line "system x")
    = Raise ValueError (junos_line "system x") /\
  junos_swap_negation 1 (junos_line "delete system x")
    = Raise AttributeError (junos_line "delete system x").
Proof.
  split; [intros P; apply negate_without_replacement|].
  split; [vm_compute; reflexivity|].
  split; [vm_compute; reflexivity|].
  split; [eexists; split; vm_compute; reflexivity|].
  split; [vm_compute; reflexivity|].
  split; vm_compute; reflexivity.
Qed.

(** ** Tags *)

Lemma set_mem_In (x : string) (s : list string) : set_mem x s = true <-> In x s.
Proof. apply existsb_eqb_In. Qed.

Lemma set_add_In (s : list string) (y x : string) :
  In x (set_add s y) <-> In x s \/ x = y.
Proof.
  unfold set_add. destruct (set_mem y s) eqn:E.
  - apply set_mem_In in E. split; [auto|]. intros [H| ->]; assumption.
  - rewrite in_app_iff. simpl. intuition.
Qed.

Lemma set_update_In (xs s : list string) (x : string) :
  In x (set_update s xs) <-> In x s \/ In x xs.
Proof.
  unfold set_update. revert s.
  induction xs as [|y xs IH]; intros s; simpl; [tauto|].
  rewrite IH, set_add_In. intuition.
Qed.

Section Tags.
Context {P : Platform}.

Lemma tags_fold_None (f : nat) (st : Store) (cs : list ident) :
  fold_left (fun found c =>
               acc ← found; t ← tags f st c; Some (set_update acc t))
            cs None = None.
Proof. induction cs as [|c cs IH]; [reflexivity | exact IH]. Qed.

Lemma tags_fold_In (f : nat) (st : Store) (cs : list ident) :
  forall acc ts,
  fold_left (fun found c =>
               acc ← found; t ← tags f st c; Some (set_update acc t))
            cs (Some acc) = Some ts ->
  (forall c, In c cs -> exists tc, tags f st c = Some tc) /\
  forall x, In x ts <->
    In x acc \/ exists c tc, In c cs /\ tags f st c = Some tc /\ In x tc.
Proof.
  induction cs as [|c cs IH]; intros acc ts; cbn [fold_left].
  - intros [= <-]. split; [intros c []|]. intros x.
    split; [auto|]. intros [H|(c & tc & [] & _)]. exact H.
  - cbn [mbind option_bind].
    destruct (tags f st c) as [tc|] eqn:Hc.
    + intros H. destruct (IH _ _ H) as [Hdef Hiff]. split.
      * intros c' [<-|Hin]; eauto.
      * intros x. rewrite (Hiff x), set_update_In. split.
        -- intros [[Ha|Ht]|(c' & tc' & Hin & Htc & Hx)]; eauto 8 using in_eq.
           right. exists c', tc'. auto using in_cons.
        -- intros [Ha|(c' & tc' & [<-|Hin] & Htc & Hx)]; eauto 8.
           rewrite Hc in Htc. injection Htc as <-. auto.
    + rewrite tags_fold_None. discriminate.
Qed.

(** Reading [tags]: the union of the tag sets stored on the leaves at or
    below the node. *)
Lemma tags_union_of_leaves (fuel : nat) (st : Store) :
  forall n ts, tags fuel st n = Some ts ->
  forall x, In x ts <->
    exists l nd, leaf_below st n l /\ st !! l = Some nd /\ In x (_tags nd).
Proof.
  induction fuel as [|f IH]; intros n ts; [discriminate|].
  cbn [tags]. destruct (st !! n) as [nd|] eqn:Hn; [|discriminate].
  cbn [mbind option_bind]. destruct (is_branch nd) eqn:Hb.
  - intros H x. destruct (tags_fold_In f st _ _ _ H) as [Hdef Hiff].
    rewrite (Hiff x). split.
    + intros [[]|(c & tc & Hin & Htc & Hx)].
      apply (IH _ _ Htc) in Hx as (l & ndl & Hl & Hndl & Hx).
      exists l, ndl. split; [|auto]. eapply leaf_under; eauto.
    + intros (l & ndl & Hl & Hndl & Hx). right.
      inversion Hl as [? nd' Hn' Hb'|? nd' c ? Hn' Hb' Hin Hcl]; subst.
      * congruence.
      * assert (nd' = nd) by congruence. subst nd'.
        destruct (Hdef c Hin) as [tc Htc].
        exists c, tc. repeat split; try assumption.
        apply (IH _ _ Htc). eauto.
  - intros [= <-] x. split.
    + intros Hx. exists n, nd. split; [|auto]. eapply leaf_here; eauto.
    + intros (l & ndl & Hl & Hndl & Hx).
      inversion Hl as [? nd' Hn' Hb'|? nd' c ? Hn' Hb' Hin Hcl]; subst;
        congruence.
Qed.

(** Enough budget for the depth of the tree gives the answer. *)
Lemma tags_total (st : Store) :
  forall h fuel n, height_le st h n -> h <= fuel ->
  exists ts, tags fuel st n = Some ts.
Proof.
  induction h as [|h IH]; intros fuel n Hh Hle; [destruct Hh|].
  destruct fuel as [|f]; [lia|].
  destruct Hh as (nd & Hn & Hcs). cbn [tags]. rewrite Hn.
  cbn [mbind option_bind]. destruct (is_branch nd); [|eauto].
  generalize (@nil string).
  induction Hcs as [|c cs Hc _ IHcs]; intros acc; cbn [fold_left]; [eauto|].
  destruct (IH f c Hc) as [tc Htc]; [lia|].
  cbn [mbind option_bind]. rewrite Htc. apply IHcs.
Qed.

Lemma with_tags_with_tags (t t' : list string) (x : HConfigNode) :
  with_tags t (with_tags t' x) = with_tags t x.
Proof. reflexivity. Qed.

Lemma with_tags_same (x : HConfigNode) : with_tags (_tags x) x = x.
Proof. now destruct x. Qed.

Lemma tags_grew_refl (st : Store) : tags_grew st st.
Proof.
  split; [reflexivity|]. intros i nd H. exists nd.
  rewrite with_tags_same. auto.
Qed.

Lemma tags_grew_trans (st1 st2 st3 : Store) :
  tags_grew st1 st2 -> tags_grew st2 st3 -> tags_grew st1 st3.
Proof.
  intros [Hl1 H1] [Hl2 H2]. split; [congruence|].
  intros i nd Hi.
  destruct (H1 i nd Hi) as (nd2 & Hi2 & E2 & Hm2 & Hb2).
  destruct (H2 i nd2 Hi2) as (nd3 & Hi3 & E3 & Hm3 & Hb3).
  exists nd3. repeat split.
  - assumption.
  - rewrite E3 at 1. rewrite E2. apply with_tags_with_tags.
  - auto.
  - intros Hb. rewrite <- (Hb2 Hb). apply Hb3. now rewrite (Hb2 Hb).
Qed.

Lemma tags_grew_leaf_below (st st' : Store) (n l : ident) :
  tags_grew st st' -> leaf_below st n l -> leaf_below st' n l.
Proof.
  intros [_ H]. induction 1 as [n nd Hn Hb|n nd c l Hn Hb Hin _ IH].
  - destruct (H n nd Hn) as (nd' & Hn' & E & _).
    eapply leaf_here; [exact Hn'|]. now rewrite E.
  - destruct (H n nd Hn) as (nd' & Hn' & E & _).
    eapply leaf_under; [exact Hn'| | |exact IH]; now rewrite E.
Qed.

Lemma tags_grew_height (st st' : Store) :
  tags_grew st st' ->
  forall h n, height_le st h n -> height_le st' h n.
Proof.
  intros [_ H]. induction h as [|h IH]; intros n; [auto|].
  intros (nd & Hn & Hcs). destruct (H n nd Hn) as (nd' & Hn' & E & _).
  exists nd'. split; [assumption|]. rewrite E. cbn [with_tags children].
  eapply Forall_impl; [exact Hcs | exact IH].
Qed.

(** Changing the tag set of a leaf to a larger one. *)
Lemma tags_grew_update (st : Store) (n : ident) (nd : HConfigNode)
    (ts : list string) :
  st !! n = Some nd -> is_branch nd = false ->
  (forall x, In x (_tags nd) -> In x ts) ->
  tags_grew st (<[n := with_tags ts nd]> st).
Proof.
  intros Hn Hb Hsub. split; [apply length_insert|].
  intros i x Hi. destruct (Nat.eq_dec i n) as [->|Hne].
  - assert (x = nd) by congruence. subst x.
    exists (with_tags ts nd).
    rewrite list_lookup_insert_eq by (eapply lookup_Some_lt; eauto).
    repeat split; auto. congruence.
  - exists x. rewrite list_lookup_insert_ne by auto.
    rewrite with_tags_same. auto.
Qed.

Lemma leaf_below_leaf (st : Store) (n l : ident) (nd : HConfigNode) :
  st !! n = Some nd -> is_branch nd = false -> leaf_below st n l -> l = n.
Proof.
  intros Hn Hb. inversion 1; subst; [reflexivity | congruence].
Qed.

(** [tags_add] on any node: only tag sets of leaves change, they grow, and
    every leaf at or below the node ends up carrying the tags. *)
Lemma tags_add_spec (tag : tag_arg) (fuel : nat) :
  forall n st st', tags_add fuel n tag st = Ok tt st' ->
  tags_grew st st' /\
  forall l nd', leaf_below st n l -> st' !! l = Some nd' ->
    forall t, In t (tag_members tag) -> In t (_tags nd').
Proof.
  induction fuel as [|f IH]; intros n st st'; [discriminate|].
  cbn [tags_add]. unfold bind at 1, get_node, read.
  destruct (st !! n) as [nd|] eqn:Hn; [|discriminate].
  destruct (is_branch nd) eqn:Hb.
  - intros Hrun.
    assert (Hloop : forall cs st0 st1,
      for_each cs (fun c => tags_add f c tag) st0 = Ok tt st1 ->
      tags_grew st0 st1 /\
      forall c, In c cs -> forall l nd', leaf_below st0 c l ->
        st1 !! l = Some nd' ->
        forall t, In t (tag_members tag) -> In t (_tags nd')).
    { induction cs as [|c cs IHcs]; intros st0 st1; cbn [for_each].
      - intros [= <-]. split; [apply tags_grew_refl | intros c []].
      - unfold bind.
        destruct (tags_add f c tag st0) as [[] st2|e st2|st2] eqn:Hc;
          try discriminate.
        intros Hrest.
        destruct (IH _ _ _ Hc) as [Hg1 Hl1].
        destruct (IHcs _ _ Hrest) as [Hg2 Hl2].
        split; [eapply tags_grew_trans; eauto|].
        intros c' [<-|Hin] l nd' Hl Hnd' t Ht.
        + destruct (lookup_lt_is_Some_2 st2 l) as [nd2 Hnd2].
          { destruct Hg2 as [Hlen _]. rewrite <- Hlen.
            eapply lookup_Some_lt; eauto. }
          destruct Hg2 as [_ Hg2].
          destruct (Hg2 l nd2 Hnd2) as (nd3 & Hnd3 & _ & Hm & _).
          assert (nd3 = nd') by congruence. subst nd3.
          apply Hm. eapply Hl1; eauto.
        + eapply Hl2; eauto. eapply tags_grew_leaf_below; eauto. }
    destruct (Hloop _ _ _ Hrun) as [Hg Hl]. split; [assumption|].
    intros l nd' Hbelow Hnd' t Ht.
    inversion Hbelow as [? x Hx Hbx|? x c ? Hx Hbx Hin Hcl]; subst.
    + congruence.
    + assert (x = nd) by congruence. subst x. eapply Hl; eauto.
  - intros Hrun.
    assert (Hst' : exists ts,
      st' = <[n := with_tags ts nd]> st /\
      (forall x, In x (_tags nd) -> In x ts) /\
      (forall t, In t (tag_members tag) -> In t ts)).
    { destruct tag as [s|l]; unfold update in Hrun; rewrite Hn in Hrun;
        injection Hrun as <-; eexists; (split; [reflexivity|]); split;
        intros x Hx.
      - apply set_add_In. auto.
      - apply set_add_In. destruct Hx as [<-|[]]. auto.
      - apply set_update_In. auto.
      - apply set_update_In. auto. }
    destruct Hst' as (ts & -> & Hsub & Hadd).
    split; [now apply tags_grew_update|].
    intros l nd' Hbelow Hnd' t Ht.
    rewrite (leaf_below_leaf _ _ _ _ Hn Hb Hbelow) in Hnd'.
    rewrite list_lookup_insert_eq in Hnd' by (eapply lookup_Some_lt; eauto).
    injection Hnd' as <-. auto.
Qed.

(** Enough budget for the depth of the tree lets [tags_add] return. *)
Lemma tags_add_total (tag : tag_arg) :
  forall h fuel n st, height_le st h n -> h <= fuel ->
  exists st', tags_add fuel n tag st = Ok tt st'.
Proof.
  induction h as [|h IH]; intros fuel n st Hh Hle; [destruct Hh|].
  destruct fuel as [|f]; [lia|].
  destruct Hh as (nd & Hn & Hcs).
  cbn [tags_add]. unfold bind at 1, get_node, read. rewrite Hn.
  destruct (is_branch nd).
  - clear Hn. revert st Hcs.
    induction (children nd) as [|c cs IHcs]; intros st Hcs; cbn [for_each].
    + eexists. reflexivity.
    + inversion Hcs as [|? ? Hc Hcs']; subst.
      destruct (IH f c st Hc) as [st1 Hst1]; [lia|].
      unfold bind. rewrite Hst1.
      apply IHcs.
      eapply Forall_impl; [exact Hcs'|].
      intros c'. apply tags_grew_height.
      apply (tags_add_spec tag f c st st1 Hst1).
  - destruct tag; unfold update; rewrite Hn; eauto.
Qed.

End Tags.

Section TagsRemoval.

Lemma tags_shrank_refl (st : Store) : tags_shrank st st.
Proof.
  split; [reflexivity|]. intros i nd H. exists nd.
  rewrite with_tags_same. auto.
Qed.

Lemma tags_shrank_trans (st1 st2 st3 : Store) :
  tags_shrank st1 st2 -> tags_shrank st2 st3 -> tags_shrank st1 st3.
Proof.
  intros [Hl1 H1] [Hl2 H2]. split; [congruence|].
  intros i nd Hi.
  destruct (H1 i nd Hi) as (nd2 & Hi2 & E2 & Hm2 & Hb2).
  destruct (H2 i nd2 Hi2) as (nd3 & Hi3 & E3 & Hm3 & Hb3).
  exists nd3. repeat split.
  - assumption.
  - rewrite E3 at 1. rewrite E2. apply with_tags_with_tags.
  - auto.
  - intros Hb. rewrite <- (Hb2 Hb). apply Hb3. now rewrite (Hb2 Hb).
Qed.

Lemma tags_shrank_leaf_below (st st' : Store) (n l : ident) :
  tags_shrank st st' -> leaf_below st n l -> leaf_below st' n l.
Proof.
  intros [_ H]. induction 1 as [n nd Hn Hb|n nd c l Hn Hb Hin _ IH].
  - destruct (H n nd Hn) as (nd' & Hn' & E & _).
    eapply leaf_here; [exact Hn'|]. now rewrite E.
  - destruct (H n nd Hn) as (nd' & Hn' & E & _).
    eapply leaf_under; [exact Hn'| | |exact IH]; now rewrite E.
Qed.

Lemma tags_shrank_update (st : Store) (n : ident) (nd : HConfigNode)
    (ts : list string) :
  st !! n = Some nd -> is_branch nd = false ->
  (forall x, In x ts -> In x (_tags nd)) ->
  tags_shrank st (<[n := with_tags ts nd]> st).
Proof.
  intros Hn Hb Hsub. split; [apply length_insert|].
  intros i x Hi. destruct (Nat.eq_dec i n) as [->|Hne].
  - assert (x = nd) by congruence. subst x.
    exists (with_tags ts nd).
    rewrite list_lookup_insert_eq by (eapply lookup_Some_lt; eauto).
    repeat split; auto. congruence.
  - exists x. rewrite list_lookup_insert_ne by auto.
    rewrite with_tags_same. auto.
Qed.

(** [tags_remove], when it returns: only tag sets of leaves changed, they
    shrank, and no leaf at or below the node carries the tags any more. *)
Lemma tags_remove_spec (tag : tag_arg) (fuel : nat) :
  forall n st st', tags_remove fuel n tag st = Ok tt st' ->
  tags_shrank st st' /\
  forall l nd', leaf_below st n l -> st' !! l = Some nd' ->
    forall t, In t (tag_members tag) -> ~ In t (_tags nd').
Proof.
  induction fuel as [|f IH]; intros n st st'; [discriminate|].
  cbn [tags_remove]. unfold bind at 1, get_node, read.
  destruct (st !! n) as [nd|] eqn:Hn; [|discriminate].
  destruct (is_branch nd) eqn:Hb.
  - intros Hrun.
    assert (Hloop : forall cs st0 st1,
      for_each cs (fun c => tags_remove f c tag) st0 = Ok tt st1 ->
      tags_shrank st0 st1 /\
      forall c, In c cs -> forall l nd', leaf_below st0 c l ->
        st1 !! l = Some nd' ->
        forall t, In t (tag_members tag) -> ~ In t (_tags nd')).
    { induction cs as [|c cs IHcs]; intros st0 st1; cbn [for_each].
      - intros [= <-]. split; [apply tags_shrank_refl | intros c []].
      - unfold bind.
        destruct (tags_remove f c tag st0) as [[] st2|e st2|st2] eqn:Hc;
          try discriminate.
        intros Hrest.
        destruct (IH _ _ _ Hc) as [Hg1 Hl1].
        destruct (IHcs _ _ Hrest) as [Hg2 Hl2].
        split; [eapply tags_shrank_trans; eauto|].
        intros c' [<-|Hin] l nd' Hl Hnd' t Ht.
        + destruct (lookup_lt_is_Some_2 st2 l) as [nd2 Hnd2].
          { destruct Hg2 as [Hlen _]. rewrite <- Hlen.
            eapply lookup_Some_lt; eauto. }
          destruct Hg2 as [_ Hg2].
          destruct (Hg2 l nd2 Hnd2) as (nd3 & Hnd3 & _ & Hm & _).
          assert (nd3 = nd') by congruence. subst nd3.
          intros Hin'. apply (Hl1 l nd2 Hl Hnd2 t Ht). now apply Hm.
        + eapply Hl2; eauto. eapply tags_shrank_leaf_below; eauto. }
    destruct (Hloop _ _ _ Hrun) as [Hg Hl]. split; [assumption|].
    intros l nd' Hbelow Hnd' t Ht.
    inversion Hbelow as [? x Hx Hbx|? x c ? Hx Hbx Hin Hcl]; subst.
    + congruence.
    + assert (x = nd) by congruence. subst x. eapply Hl; eauto.
  - intros Hrun.
    assert (Hst' : exists ts,
      st' = <[n := with_tags ts nd]> st /\
      (forall x, In x ts -> In x (_tags nd)) /\
      (forall t, In t (tag_members tag) -> ~ In t ts)).
    { destruct tag as [s|l].
      - destruct (set_mem s (_tags nd)); [|discriminate].
        unfold update in Hrun. rewrite Hn in Hrun. injection Hrun as <-.
        eexists. split; [reflexivity|]. split.
        + intros x Hx. apply filter_In in Hx. apply Hx.
        + intros t [<-|[]] Hin. apply filter_In in Hin as [_ Hne].
          now rewrite String.eqb_refl in Hne.
      - unfold update in Hrun. rewrite Hn in Hrun. injection Hrun as <-.
        eexists. split; [reflexivity|]. split.
        + intros x Hx. apply filter_In in Hx. apply Hx.
        + intros t Ht Hin. apply filter_In in Hin as [_ Hne].
          apply negb_true_iff in Hne. cbn [tag_members] in Ht.
          apply (proj2 (set_mem_In t l)) in Ht. congruence. }
    destruct Hst' as (ts & -> & Hsub & Hgone).
    split; [now apply tags_shrank_update|].
    intros l nd' Hbelow Hnd' t Ht.
    rewrite (leaf_below_leaf _ _ _ _ Hn Hb Hbelow) in Hnd'.
    rewrite list_lookup_insert_eq in Hnd' by (eapply lookup_Some_lt; eauto).
    injection Hnd' as <-. auto.
Qed.

End TagsRemoval.

(** A leaf that is given children afterwards keeps the tag set it stored;
    reading its tags then gives the union over its new leaves. *)
Example tags_left_on_a_former_leaf :
  exists st,
    tag_then_grow [] = Ok 1 st /\
    _tags <$> st !! 1 = Some ["t"] /\
    tags 3 st 1 = Some [].
Proof. eexists. repeat split. Qed.

Lemma never_raises_for_each {A} (l : list A) (body : A -> M unit) :
  (forall x, never_raises (body x)) -> never_raises (for_each l body).
Proof.
  intros Hb. induction l as [|x l IH]; cbn [for_each].
  - apply never_raises_ret.
  - apply never_raises_bind; [apply Hb | intros _; exact IH].
Qed.

(** Given as an iterable, tags are removed with [difference_update], which
    raises nothing. *)
Lemma tags_remove_iterable_never_raises (l : list string) (fuel : nat) :
  forall n, never_raises (tags_remove fuel n (TagIter l)).
Proof.
  induction fuel as [|f IH]; intros n; cbn [tags_remove].
  - intros st e st'. discriminate.
  - unfold get_node. apply never_raises_bind; [apply never_raises_read|].
    intros nd. destruct (is_branch nd).
    + apply never_raises_for_each. intros c. apply IH.
    + apply never_raises_update.
Qed.

(** C8: [tags_remove] with a string removes it with [set.remove], which
    raises [KeyError] on a leaf that does not carry the tag.  On the branch
    ["s"] of [tagged_store], whose leaves are ["a"] without tags and ["b"]
    tagged ["t"], the call stops at ["a"] with [KeyError] and ["b"] still
    carries ["t"]; given as an iterable, the same tag is removed from every
    leaf.  Reading the tags of the branch gives the union over its leaves,
    and [tags_add] reaches both leaves and leaves the branch untouched. *)
Theorem tags_remove_stops_at_untagged_leaf :
  tags 2 tagged_store 1 = Some ["t"] /\
  tags_remove 2 1 (TagStr "t") tagged_store = Raise KeyError tagged_store /\
  _tags <$> tagged_store !! 3 = Some ["t"] /\
  (exists st',
     tags_remove 2 1 (TagIter ["t"]) tagged_store = Ok tt st' /\
     _tags <$> st' !! 2 = Some [] /\ _tags <$> st' !! 3 = Some []) /\
  (exists st',
     tags_add 2 1 (TagStr "u") tagged_store = Ok tt st' /\
     _tags <$> st' !! 1 = Some [] /\
     _tags <$> st' !! 2 = Some ["u"] /\ _tags <$> st' !! 3 = Some ["t"; "u"]).
Proof.
  repeat split.
  - eexists. repeat split.
  - eexists. repeat split.
Qed.

(** ** Remediation of a tree against itself *)

Section Remediation.
Context {P : Platform}.

Lemma first_with_text_nodup (st : Store) (cs : list ident) (c : ident)
    (x : HConfigNode) :
  NoDup (map (text st) cs) -> In c cs -> st !! c = Some x ->
  first_with_text st cs (_text x) = Some c.
Proof.
  induction cs as [|c' cs IH]; intros Hnd Hin Hx; [destruct Hin|].
  apply NoDup_cons in Hnd as [Hnotin Hnd]. cbn [first_with_text].
  destruct Hin as [->|Hin].
  - now rewrite Hx, String.eqb_refl.
  - destruct (st !! c') as [y|] eqn:Hy; [|auto].
    destruct (String.eqb_spec (_text y) (_text x)) as [He|Hne]; [|auto].
    exfalso. apply Hnotin. apply list_elem_of_In. apply in_map_iff.
    exists c. split; [|assumption].
    unfold text. rewrite Hx, Hy. simpl. congruence.
Qed.


(** [texts_paired] looks at objects older than [b] only. *)
Lemma texts_paired_ext (st st' : Store) (b : nat) :
  (forall i, i < b -> st' !! i = st !! i) ->
  forall h s t, texts_paired st b h s t -> texts_paired st' b h s t.
Proof.
  intros Hsame. induction h as [|h IH]; intros s t; [auto|].
  intros (Hs & Ht & ns & nt & Hns & Hnt & Hleft & Hright).
  split; [assumption|]. split; [assumption|].
  exists ns, nt. rewrite !Hsame by assumption.
  split; [assumption|]. split; [assumption|]. split.
  - eapply Forall_impl; [exact Hleft|]. intros x (Hx & xd & Hxd & Hm).
    split; [assumption|]. exists xd. now rewrite Hsame.
  - eapply Forall_impl; [exact Hright|].
    intros y (yd & fc & Hy & Hne & Hf & Hp).
    assert (Hyb : y < b) by (destruct h; [destruct Hp | apply Hp]).
    exists yd, fc. rewrite Hsame by assumption. auto.
Qed.

(** A tree without same-text siblings is paired with itself. *)
Lemma remediable_texts_paired (st : Store) (b : nat) :
  forall h n, remediable st b h n -> texts_paired st b h n n.
Proof.
  induction h as [|h IH]; intros n; [auto|].
  intros (Hn & nd & Hnd & Hidx & Htxt & Hdup & Hcs).
  split; [assumption|]. split; [assumption|].
  exists nd, nd. split; [assumption|]. split; [assumption|].
  rewrite List.Forall_forall in Htxt, Hcs.
  split; apply List.Forall_forall; intros c Hin;
    destruct (Htxt c Hin) as (x & Hx & Hne);
    pose proof (first_with_text_nodup st _ c x Hdup Hin Hx) as Hfirst.
  - split.
    + specialize (Hcs c Hin). destruct h; [destruct Hcs | apply Hcs].
    + exists x. split; [assumption|].
      apply dict_mem_get. rewrite (Hidx (_text x)). eauto.
  - exists x, c. split; [assumption|]. split; [assumption|].
    split; [now rewrite (Hidx (_text x))|]. apply IH. now apply Hcs.
Qed.

(** The removal pass emits nothing when every text of [self] is a key of the
    index of the target. *)
Lemma left_pass_paired (st : Store) (s t d : ident) (ns nt : HConfigNode) :
  st !! s = Some ns -> st !! t = Some nt ->
  Forall (fun x => exists xd, st !! x = Some xd /\
            dict_mem (_text xd) (children_dict nt) = true) (children ns) ->
  _config_to_get_to_left s t d st = Ok tt st.
Proof.
  intros Hs Ht Hleft. unfold _config_to_get_to_left.
  rewrite (bind_get_node _ _ _ _ Hs).
  induction Hleft as [|c cs (x & Hx & Hm) _ IH]; cbn [for_each];
    [reflexivity|].
  erewrite bind_ok; [exact IH|].
  erewrite bind_read by (unfold text; rewrite Hx; reflexivity).
  rewrite (bind_get_node _ _ _ _ Ht). now rewrite Hm.
Qed.

(** [get_child(equals=t)] is the entry of the index for [t]. *)
Lemma get_child_equals (fuel : nat) (st : Store) (p : ident)
    (nd : HConfigNode) (t : string) :
  st !! p = Some nd ->
  get_child fuel p (rule_equals t) st = Ok (dict_get t (children_dict nd)) st.
Proof.
  intros Hp. unfold get_child, get_children. rewrite Hp.
  cbn [rule_equals equals startswith endswith contains re_search].
  destruct (dict_get t (children_dict nd)) as [c|]; [|reflexivity].
  now destruct (scan_after fuel st nd c (rule_equals t)).
Qed.

(** Deleting the only child of [d] gives [d] its empty list and index back. *)
Lemma delete_only_child (st : Store) (d k : ident) (nd kd : HConfigNode) :
  st !! d = Some nd -> st !! k = Some kd -> parent kd = d ->
  children nd = [k] ->
  delete k st =
  Ok tt (<[d := with_children_dict [] (with_children [] nd)]> st).
Proof.
  intros Hd Hk Hpar Hcs. unfold delete.
  rewrite (bind_get_node _ _ _ _ Hk), Hpar. unfold delete_child.
  rewrite (bind_get_node _ _ _ _ Hd), Hcs. cbn [List.filter].
  rewrite Nat.eqb_refl. cbn [negb length Nat.eqb].
  rewrite (bind_update _ _ _ _ _ Hd).
  pose proof (lookup_Some_lt _ _ _ Hd) as Hlt.
  unfold rebuild_children_dict.
  erewrite bind_get_node by (now apply list_lookup_insert_eq).
  cbn [with_children children].
  erewrite bind_read by reflexivity.
  unfold update. rewrite list_lookup_insert_eq by assumption.
  now rewrite list_insert_insert_eq.
Qed.

Lemma empty_again (nd : HConfigNode) (d' : pydict) (cs' : list ident) :
  children nd = [] -> children_dict nd = [] ->
  with_children_dict [] (with_children []
    (with_children_dict d' (with_children cs' nd))) = nd.
Proof. destruct nd; simpl; intros -> ->; reflexivity. Qed.

(** The store after [d] got the child [k] and lost it again. *)
Lemma store_restored (S extra : Store) (d : ident) (t : string)
    (nd nd1 : HConfigNode) :
  S !! d = Some nd ->
  <[d := nd]> (store_with_child S d t nd1 ++ extra) =
  S ++ [new_HConfigChild d t] ++ extra.
Proof.
  intros Hd. pose proof (lookup_Some_lt _ _ _ Hd) as Hlt.
  unfold store_with_child.
  rewrite insert_app_l by (rewrite length_insert, length_app; simpl; lia).
  rewrite list_insert_insert_eq.
  rewrite list_insert_id by (now rewrite lookup_alloc_old).
  now rewrite <- app_assoc.
Qed.

(** Remediation of [t] against [s], the two being paired, written into an
    empty [delta] younger than both: the call returns, [delta] is as before,
    and so is every object that existed. *)
Lemma remediate_paired (b : nat) :
  forall h fuel, h <= fuel ->
  forall st s t d nd_d,
    texts_paired st b h s t -> b <= d ->
    st !! d = Some nd_d -> children nd_d = [] -> children_dict nd_d = [] ->
    exists extra, _config_to_get_to fuel s t d st = Ok d (st ++ extra).
Proof.
  induction h as [|h IH]; intros fuel Hle st s t d nd_d Hrem Hbd Hd Hdc Hdd;
    [destruct Hrem|].
  destruct fuel as [|f]; [lia|].
  destruct Hrem as (Hsb & Htb & ns & nt & Hs & Ht & Hleft & Hright).
  cbn [_config_to_get_to].
  assert (Hleft' : Forall (fun x => exists xd, st !! x = Some xd /\
            dict_mem (_text xd) (children_dict nt) = true) (children ns)).
  { eapply Forall_impl; [exact Hleft|]. now intros x (_ & H). }
  rewrite (bind_ok _ _ _ _ _ (left_pass_paired st s t d ns nt Hs Ht Hleft')).
  pose proof (lookup_Some_lt _ _ _ Hd) as Hdlt.
  assert (Hloop : forall cs, (forall c, In c cs -> In c (children nt)) ->
    forall extra0, exists extra,
      for_each cs (fun target_child =>
        let* t := read (fun st => text st target_child) in
        let* found := get_child f s (rule_equals t) in
        match found with
        | Some self_child =>
            let* t := read (fun st => text st target_child) in
            let* subtree := add_child d t false false in
            let* _ := _config_to_get_to f self_child target_child subtree in
            let* sub := get_node subtree in
            if length (children sub) =? 0 then delete subtree
            else
              let* so := read (fun st =>
                sectional_overwrite_check st self_child) in
              if so then overwrite_with f target_child self_child d true
              else
                let* son := read (fun st =>
                  sectional_overwrite_no_negate_check st self_child) in
                if son then overwrite_with f target_child self_child d false
                else ret tt
        | None =>
            let* new_item := add_deep_copy_of f d target_child false in
            update new_item (with_new_in_config true) ;;
            let* below := read (fun st => all_children f st new_item) in
            for_each below
              (fun child => update child (with_new_in_config true)) ;;
            let* ni := get_node new_item in
            if negb (length (children ni) =? 0)
            then comments_add new_item "new section"
            else ret tt
        end) (st ++ extra0) = Ok tt (st ++ extra)).
  { induction cs as [|c cs IHcs]; intros Hsub extra0; cbn [for_each].
    { exists extra0. reflexivity. }
    assert (Hin : In c (children nt)) by (apply Hsub; now left).
    rewrite List.Forall_forall in Hright.
    destruct (Hright c Hin) as (x & fc & Hx & Hxt & Hfc & Hc).
    pose proof (lookup_Some_lt _ _ _ Hx) as Hclt.
    pose proof (lookup_Some_lt _ _ _ Hs) as Hslt.
    set (S0 := st ++ extra0).
    assert (Hold0 : forall i, i < length st -> S0 !! i = st !! i).
    { intros i Hi. unfold S0. now apply lookup_app_l. }
    set (k := length S0).
    set (nd1 := with_children_dict (dict_set (_text x) k (children_dict nd_d))
                  (append_child k nd_d)).
    set (S1 := store_with_child S0 d (_text x) nd1).
    assert (Hd0 : S0 !! d = Some nd_d) by (now rewrite Hold0).
    assert (HdS0 : d < length S0) by (eapply lookup_Some_lt; eauto).
    assert (Hadd : add_child d (_text x) false false S0 = Ok k S1).
    { apply add_child_fresh; try assumption. now rewrite Hdd. }
    assert (Hrem1 : texts_paired S1 b h fc c).
    { apply (texts_paired_ext st); [|assumption].
      intros i Hi. unfold S1.
      rewrite store_with_child_other by lia. apply Hold0. lia. }
    destruct (IH f ltac:(lia) S1 fc c k (new_HConfigChild d (_text x)) Hrem1)
      as [extra1 Hrec]; try reflexivity.
    { unfold k. lia. }
    { apply store_with_child_new. assumption. }
    assert (Hk1 : (S1 ++ extra1) !! k = Some (new_HConfigChild d (_text x))).
    { rewrite lookup_app_l.
      - apply store_with_child_new. assumption.
      - unfold S1, store_with_child. rewrite length_insert, length_app.
        simpl. unfold k. lia. }
    assert (Hd1 : (S1 ++ extra1) !! d = Some nd1).
    { rewrite lookup_app_l.
      - apply store_with_child_parent. assumption.
      - unfold S1, store_with_child. rewrite length_insert, length_app.
        simpl. lia. }
    assert (Hdel : delete k (S1 ++ extra1) =
                   Ok tt (st ++ (extra0 ++ [new_HConfigChild d (_text x)]
                                        ++ extra1))).
    { rewrite (delete_only_child _ d k nd1 _ Hd1 Hk1 eq_refl).
      2:{ unfold nd1. cbn [with_children_dict append_child with_children
                           children]. now rewrite Hdc. }
      f_equal. unfold nd1, append_child. rewrite (empty_again _ _ _ Hdc Hdd).
      unfold S1. rewrite (store_restored S0 extra1 d _ nd_d nd1 Hd0).
      unfold S0. now rewrite <- app_assoc. }
    destruct (IHcs (fun c' Hc' => Hsub c' (or_intror Hc'))
                (extra0 ++ [new_HConfigChild d (_text x)] ++ extra1))
      as [extra Hextra].
    exists extra. erewrite bind_ok; [exact Hextra|].
    assert (Htext0 : text S0 c = Some (_text x)).
    { unfold text. rewrite Hold0 by assumption. now rewrite Hx. }
    rewrite (bind_read _ _ _ _ Htext0).
    erewrite bind_ok.
    2:{ apply (get_child_equals f S0 s ns). now rewrite Hold0. }
    rewrite Hfc.
    rewrite (bind_read _ _ _ _ Htext0).
    rewrite (bind_ok _ _ _ _ _ Hadd).
    rewrite (bind_ok _ _ _ _ _ Hrec).
    rewrite (bind_get_node _ _ _ _ Hk1).
    cbn [new_HConfigChild children length Nat.eqb].
    exact Hdel. }
  destruct (Hloop (children nt) (fun c Hc => Hc) []) as [extra Hextra].
  rewrite app_nil_r in Hextra.
  assert (Hrun : _config_to_get_to_right f (_config_to_get_to f) s t d st
                   = Ok tt (st ++ extra)).
  { unfold _config_to_get_to_right.
    rewrite (bind_get_node _ _ _ _ Ht). exact Hextra. }
  exists extra. cbv beta. now rewrite (bind_ok _ _ _ _ _ Hrun).
Qed.

(** C1, amended: let two nodes be paired when the text of every child of the
    first is a key of the index of the second, and every child of the second
    has a non-empty text that the index of the first maps to a child paired
    with it.  For a tree [T] whose root is paired with itself,
    [config_to_get_to] of the tree against itself returns a new [HConfig]
    without children, given a budget that covers the depth of the tree; the
    objects that existed are as they were. *)
Theorem config_to_get_to_self_empty (st : Store) (T : ident) (h fuel : nat) :
  texts_paired st (length st) h T T -> h <= fuel ->
  exists delta st' nd,
    config_to_get_to fuel T T st = Ok delta st' /\
    st' !! delta = Some nd /\
    is_root nd = true /\ children nd = [] /\ children_dict nd = [] /\
    forall i, i < length st -> st' !! i = st !! i.
Proof.
  intros Hrem Hle.
  assert (HT : exists ndT, st !! T = Some ndT).
  { destruct h; [destruct Hrem|].
    destruct Hrem as (_ & _ & nd & _ & H & _). eauto. }
  destruct HT as [ndT HT].
  set (root := new_HConfig (length st) (_driver ndT)).
  destruct (remediate_paired (length st) h fuel Hle (st ++ [root]) T T
              (length st) root) as [extra Hrun]; try reflexivity.
  - apply (texts_paired_ext st); [|assumption].
    intros i Hi. now apply lookup_alloc_old.
  - apply lookup_alloc_new.
  - exists (length st), ((st ++ [root]) ++ extra), root.
    split; [|split; [|repeat split]].
    + unfold config_to_get_to. rewrite (bind_get_node _ _ _ _ HT).
      unfold bind at 1, alloc. exact Hrun.
    + rewrite lookup_app_l by (rewrite length_app; simpl; lia).
      apply lookup_alloc_new.
    + intros i Hi. rewrite <- app_assoc. now apply lookup_app_l.
Qed.

End Remediation.

Ltac index_agrees_by_computation :=
  let t := fresh "t" in
  intros t; cbn -[String.eqb]; rewrite ?(String.eqb_sym t);
  repeat match goal with
         | |- context [String.eqb ?k t] => destruct (String.eqb k t) eqn:?
         end;
  try reflexivity;
  repeat match goal with
         | H : String.eqb _ _ = true |- _ => apply String.eqb_eq in H; subst
         end;
  try discriminate.



Ltac paired_by_computation :=
  cbn [texts_paired]; split; [lia|]; split; [lia|];
  eexists; eexists; split; [reflexivity|]; split; [reflexivity|];
  cbn [children]; split;
  [ repeat (apply Forall_cons; split;
            [split; [lia|]; eexists; split; reflexivity|]);
    apply Forall_nil_2
  | repeat (apply Forall_cons; split;
            [eexists; eexists; split; [reflexivity|];
             split; [discriminate|]; split; [reflexivity|];
             paired_by_computation|]);
    apply Forall_nil_2 ].

(** The tree of [repeated_lines], with ["endif"] twice under one parent, is
    paired with itself: both ["endif"] are paired with the first. *)
Lemma repeated_lines_paired : texts_paired repeated_lines_store 8 4 0 0.
Proof. paired_by_computation. Defined.

(** On the tree of [repeated_lines]: the remediation of the tree against
    itself is the new root [8], without children. *)
Lemma config_to_get_to_self_empty_witness :
  exists delta st' nd,
    config_to_get_to (P:=policy_platform) 4 0 0 repeated_lines_store
      = Ok delta st' /\
    st' !! delta = Some nd /\
    is_root nd = true /\ children nd = [] /\ children_dict nd = [] /\
    forall i, i < 8 -> st' !! i = repeated_lines_store !! i.
Proof.
  apply (config_to_get_to_self_empty (P:=policy_platform)
           repeated_lines_store 0 4 4).
  - exact repeated_lines_paired.
  - lia.
Defined.

(** C1 as stated fails on a tree with two sections of the same text and
    different contents, built by plain insertions under a policy that allows
    the duplicates: the second section is compared with the first one, the
    only one [get_child] finds, and the remediation of the tree against itself
    has the line that the first section lacks.  The index of every node
    agrees with its child list. *)
Lemma config_to_get_to_self_with_duplicates :
  exists st delta st' nd,
    duplicate_sections [] = Ok 0 st /\
    Forall (index_agrees st) st /\
    config_to_get_to (P:=policy_platform) 10 0 0 st = Ok delta st' /\
    st' !! delta = Some nd /\
    children nd <> [] /\
    (map (text st') <$> all_children 10 st' delta) =
      Some [Some "route-policy A"; Some "if x"; Some "drop"].
Proof.
  eexists. eexists. eexists. eexists.
  split; [vm_compute; reflexivity|].
  split; [repeat constructor; index_agrees_by_computation|].
  split; [vm_compute; reflexivity|].
  split; [reflexivity|].
  split; [discriminate | vm_compute; reflexivity].
Qed.

(** The same with duplicates made by [force_duplicate] under the root. *)
Example config_to_get_to_self_forced_duplicates :
  exists st delta st' nd,
    (let* r := forced_duplicate in
     let* _ := read (fun _ => Some tt) in
     let* _ := add_child (P:=generic_platform) 2 "x" false false in
     ret r)%hc [] = Ok 0 st /\
    config_to_get_to (P:=generic_platform) 10 0 0 st = Ok delta st' /\
    st' !! delta = Some nd /\
    children nd <> [].
Proof.
  eexists. eexists. eexists. eexists.
  split; [vm_compute; reflexivity|].
  split; [vm_compute; reflexivity|].
  split; [reflexivity | discriminate].
Qed.

(** A line of white space only is inserted as a child with the empty text,
    which the remediation cannot insert into [delta]. *)
Example config_to_get_to_self_blank_line :
  exists st,
    (let* r := HConfig 0 in
     let* _ := add_child (P:=generic_platform) r " " false false in
     config_to_get_to (P:=generic_platform) 5 r r)%hc [] = Raise ValueError st.
Proof. eexists. vm_compute. reflexivity. Qed.

(** ** The derived trees are built apart from their inputs *)

Lemma preserved_refl (n0 : nat) (st : Store) : preserved n0 st st.
Proof. split; eauto. Qed.

Lemma preserved_trans (n0 : nat) (st1 st2 st3 : Store) :
  preserved n0 st1 st2 -> preserved n0 st2 st3 -> preserved n0 st1 st3.
Proof.
  intros [H1 K1] [H2 K2]. split.
  - intros i Hi. now rewrite H2, H1.
  - intros i nd Hi. destruct (K1 i nd Hi) as (nd2 & Hi2 & E2).
    destruct (K2 i nd2 Hi2) as (nd3 & Hi3 & E3).
    exists nd3. split; [assumption | congruence].
Qed.

Section Local.
Context (n0 : nat).

(** A computation that leaves the store as it is. *)
Lemma local_unchanged {A} (Q : A -> Prop) (m : M A) :
  (forall st, state_of (m st) = st) ->
  (forall st a st', closed_above n0 st -> m st = Ok a st' -> Q a) ->
  local n0 Q m.
Proof.
  intros Hsame HQ st Hc. rewrite Hsame.
  split; [assumption|]. split; [apply preserved_refl|]. eauto.
Qed.

Lemma local_ret {A} (Q : A -> Prop) (a : A) : Q a -> local n0 Q (ret a).
Proof.
  intros HQ. apply local_unchanged; [reflexivity|].
  intros st a' st' _ [= <- _]. exact HQ.
Qed.

Lemma local_raise {A} (Q : A -> Prop) (e : exn) : local n0 Q (raise e).
Proof. apply local_unchanged; [reflexivity | discriminate]. Qed.

Lemma local_abort {A} (Q : A -> Prop) : local n0 Q abort.
Proof. apply local_unchanged; [reflexivity | discriminate]. Qed.

Lemma local_bind {A B} (Q : A -> Prop) (R : B -> Prop) (m : M A)
    (k : A -> M B) :
  local n0 Q m -> (forall a, Q a -> local n0 R (k a)) ->
  local n0 R (bind m k).
Proof.
  intros Hm Hk st Hc. destruct (Hm st Hc) as (Hc1 & Hp1 & HQ).
  unfold bind. destruct (m st) as [a st1|e st1|st1] eqn:E; cbn in *.
  - destruct (Hk a (HQ a st1 eq_refl) st1 Hc1) as (Hc2 & Hp2 & HR).
    split; [assumption|]. split; [eapply preserved_trans; eauto | assumption].
  - split; [assumption|]. split; [assumption | discriminate].
  - split; [assumption|]. split; [assumption | discriminate].
Qed.

Lemma local_weaken {A} (Q Q' : A -> Prop) (m : M A) :
  local n0 Q m -> (forall a, Q a -> Q' a) -> local n0 Q' m.
Proof.
  intros Hm Hw st Hc. destruct (Hm st Hc) as (Hc1 & Hp1 & HQ).
  split; [assumption|]. split; [assumption | eauto].
Qed.

(** Reading writes nothing; what is read from a closed store may be used. *)
Lemma local_read {A} (Q : A -> Prop) (f : Store -> option A) :
  (forall st a, closed_above n0 st -> f st = Some a -> Q a) ->
  local n0 Q (read f).
Proof.
  intros HQ. apply local_unchanged.
  - intros st. unfold read. now destruct (f st).
  - intros st a st' Hc. unfold read. destruct (f st) eqn:E; [|discriminate].
    intros [= <- _]. eauto.
Qed.

Lemma local_read_any {A} (f : Store -> option A) :
  local n0 (fun _ => True) (read f).
Proof. apply local_read. auto. Qed.

(** An object from [n0] on refers to such objects only. *)
Lemma local_get_node (n : ident) :
  local n0 (fun nd => n0 <= n -> refs_above n0 nd) (get_node n).
Proof.
  apply local_read. intros st nd [_ Hc] Hn Hle. eauto.
Qed.

(** Writing an object from [n0] on, keeping its class and its references
    above [n0]. *)
Lemma local_update (n : ident) (f : HConfigNode -> HConfigNode) :
  n0 <= n ->
  (forall x, refs_above n0 x -> refs_above n0 (f x)) ->
  (forall x, is_root (f x) = is_root x) ->
  local n0 (fun _ => True) (update n f).
Proof.
  intros Hn Hf Hr st [Hlen Hc]. unfold update.
  destruct (st !! n) as [x|] eqn:Hx; cbn.
  2:{ split; [split; assumption|]. split; [apply preserved_refl | auto]. }
  pose proof (lookup_lt_Some _ _ _ Hx) as Hlt.
  split; [split|split; [split|auto]].
  - now rewrite length_insert.
  - intros i nd Hi Hnd. destruct (Nat.eq_dec i n) as [->|Hne].
    + rewrite list_lookup_insert_eq in Hnd by assumption.
      injection Hnd as <-. apply Hf. eauto.
    + rewrite list_lookup_insert_ne in Hnd by auto.
      eapply Hc; eauto.
  - intros i Hi. apply list_lookup_insert_ne. lia.
  - intros i nd Hi. destruct (Nat.eq_dec i n) as [->|Hne].
    + rewrite list_lookup_insert_eq by assumption.
      exists (f x). split; [reflexivity|]. rewrite Hr. congruence.
    + rewrite list_lookup_insert_ne by auto. eauto.
Qed.

(** Allocating an object that refers to objects from [n0] on. *)
Lemma local_alloc (mk : ident -> HConfigNode) :
  (forall i, n0 <= i -> refs_above n0 (mk i)) ->
  local n0 (fun i => n0 <= i) (alloc mk).
Proof.
  intros Hmk st [Hlen Hc]. unfold alloc. cbn.
  split; [split|split; [split|]].
  - rewrite length_app. lia.
  - intros i nd Hi Hnd.
    destruct (Nat.lt_ge_cases i (length st)) as [Hlt|Hge].
    + rewrite lookup_alloc_old in Hnd by assumption. eapply Hc; eauto.
    + destruct (Nat.eq_dec i (length st)) as [->|Hne].
      * rewrite lookup_alloc_new in Hnd. injection Hnd as <-. now apply Hmk.
      * rewrite lookup_ge_None_2 in Hnd; [discriminate|].
        rewrite length_app. simpl. lia.
  - intros i Hi. apply lookup_alloc_old. lia.
  - intros i nd Hi. exists nd. split; [|reflexivity].
    rewrite lookup_alloc_old; [assumption|]. eapply lookup_lt_Some; eauto.
  - intros a st' [= <- _]. assumption.
Qed.

Lemma local_for_each {A} (l : list A) (body : A -> M unit) :
  (forall x, In x l -> local n0 (fun _ => True) (body x)) ->
  local n0 (fun _ => True) (for_each l body).
Proof.
  induction l as [|x l IH]; intros Hb; cbn [for_each].
  - now apply local_ret.
  - eapply local_bind; [apply Hb; now left|].
    intros _ _. apply IH. intros y Hy. apply Hb. now right.
Qed.

Lemma local_fold_m {A S} (Q : S -> Prop) (l : list A)
    (body : S -> A -> M S) :
  (forall s x, Q s -> In x l -> local n0 Q (body s x)) ->
  forall s, Q s -> local n0 Q (fold_m l s body).
Proof.
  induction l as [|x l IH]; intros Hb s Hs; cbn [fold_m].
  - now apply local_ret.
  - eapply local_bind; [apply Hb; [assumption | now left]|].
    intros s' Hs'. apply IH; [|assumption].
    intros s0 y Hs0 Hy. apply Hb; [assumption | now right].
Qed.

End Local.

Ltac lbind lem :=
  eapply local_bind; [lem | cbv beta; intros ? ?].

Ltac lread := lbind ltac:(apply local_read_any).

Section LocalOperations.
Context {P : Platform} (n0 : nat).

Lemma dict_get_above (k : string) (d : pydict) (v : nat) :
  Forall (fun kv => n0 <= snd kv) d -> dict_get k d = Some v -> n0 <= v.
Proof.
  induction 1 as [|[k' v'] d Hkv _ IH]; simpl; [discriminate|].
  destruct (String.eqb k k'); [intros [= <-]; exact Hkv | exact IH].
Qed.

Lemma dict_set_above (k : string) (v : nat) (d : pydict) :
  n0 <= v -> Forall (fun kv => n0 <= snd kv) d ->
  Forall (fun kv => n0 <= snd kv) (dict_set k v d).
Proof.
  intros Hv. induction 1 as [|[k' v'] d Hkv Hd IH]; simpl.
  - constructor; [exact Hv | constructor].
  - destruct (String.eqb k k'); constructor; auto.
Qed.

Lemma dict_setdefault_above (k : string) (v : nat) (d : pydict) :
  n0 <= v -> Forall (fun kv => n0 <= snd kv) d ->
  Forall (fun kv => n0 <= snd kv) (dict_setdefault k v d).
Proof.
  intros Hv Hd. unfold dict_setdefault. destruct (dict_mem k d); [assumption|].
  apply Forall_app. split; [assumption|]. constructor; [exact Hv | constructor].
Qed.

Lemma build_dict_above (st : Store) (cs : list ident) :
  Forall (fun c => n0 <= c) cs ->
  forall d0 d, Forall (fun kv => n0 <= snd kv) d0 ->
  build_dict st cs d0 = Some d -> Forall (fun kv => n0 <= snd kv) d.
Proof.
  induction 1 as [|c cs Hc _ IH]; intros d0 d Hd0; simpl.
  - now intros [= <-].
  - destruct (text st c) as [t|]; simpl; [|discriminate].
    apply IH. now apply dict_setdefault_above.
Qed.

Lemma filter_above (f : ident -> bool) (cs : list ident) :
  Forall (fun c => n0 <= c) cs -> Forall (fun c => n0 <= c) (List.filter f cs).
Proof.
  rewrite !List.Forall_forall. intros H c Hc.
  apply filter_In in Hc. now apply H.
Qed.

Lemma filter_text_ne_above (st : Store) (t : string) (cs : list ident) :
  Forall (fun c => n0 <= c) cs ->
  forall kept, filter_text_ne st t cs = Some kept ->
  Forall (fun c => n0 <= c) kept.
Proof.
  induction 1 as [|c cs Hc _ IH]; intros kept; simpl.
  - now intros [= <-].
  - destruct (text st c) as [tc|]; simpl; [|discriminate].
    destruct (filter_text_ne st t cs) as [k|]; simpl; [|discriminate].
    intros [= <-]. destruct (String.eqb tc t); [auto|].
    constructor; auto.
Qed.

Lemma local_rebuild_children_dict (p : ident) :
  n0 <= p -> local n0 (fun _ => True) (rebuild_children_dict p).
Proof.
  intros Hp. unfold rebuild_children_dict.
  lbind ltac:(apply local_get_node).
  lbind ltac:(apply (local_read n0
                       (fun d => Forall (fun kv => n0 <= snd kv) d))).
  - intros st d _. apply build_dict_above; [|constructor].
    now apply H.
  - apply local_update; [assumption| |reflexivity].
    intros x (Hx1 & Hx2 & _). repeat split; assumption.
Qed.

Lemma refs_above_append_child (c : ident) (x : HConfigNode) :
  n0 <= c -> refs_above n0 x -> refs_above n0 (append_child c x).
Proof.
  intros Hc (H1 & H2 & H3). repeat split; try assumption.
  cbn. apply Forall_app. split; [assumption|].
  constructor; [assumption | constructor].
Qed.

Lemma refs_above_new_child (p : ident) (t : string) :
  n0 <= p -> refs_above n0 (new_HConfigChild p t).
Proof. intros Hp. repeat split; [assumption | constructor | constructor]. Qed.

Lemma local_add_child (p : ident) (t : string) (r f : bool) :
  n0 <= p -> local n0 (fun c => n0 <= c) (add_child p t r f).
Proof.
  intros Hp. unfold add_child.
  destruct (String.eqb t EmptyString); [apply local_raise|].
  lbind ltac:(apply local_get_node).
  destruct (negb (dict_mem t (children_dict a))).
  - lbind ltac:(apply local_alloc).
    { intros i _. now apply refs_above_new_child. }
    lbind ltac:(apply local_update).
    + assumption.
    + intros x. now apply refs_above_append_child.
    + reflexivity.
    + lbind ltac:(apply local_update).
      * assumption.
      * intros x (Hx1 & Hx2 & Hx3). repeat split; try assumption.
        cbn. now apply dict_set_above.
      * reflexivity.
      * now apply local_ret.
  - lread. destruct (a0 || f).
    + lbind ltac:(apply local_alloc).
      { intros i _. now apply refs_above_new_child. }
      lbind ltac:(apply local_update).
      * assumption.
      * intros x. now apply refs_above_append_child.
      * reflexivity.
      * now apply local_ret.
    + destruct r; [apply local_raise|].
      apply local_read. intros st c _ Hc.
      eapply dict_get_above; [|exact Hc]. now apply H.
Qed.

Lemma local_delete_child (p child : ident) :
  n0 <= p -> local n0 (fun _ => True) (delete_child p child).
Proof.
  intros Hp. unfold delete_child.
  lbind ltac:(apply local_get_node).
  lbind ltac:(apply local_update).
  - assumption.
  - intros x (Hx1 & _ & Hx3). repeat split; try assumption.
    cbn. apply filter_above. now apply H.
  - reflexivity.
  - destruct (negb _); [now apply local_rebuild_children_dict|].
    now apply local_ret.
Qed.

Lemma local_delete_child_by_text (p : ident) (t : string) :
  n0 <= p -> local n0 (fun _ => True) (delete_child_by_text p t).
Proof.
  intros Hp. unfold delete_child_by_text.
  lbind ltac:(apply local_get_node).
  destruct (dict_mem t (children_dict a)); [|now apply local_ret].
  lbind ltac:(apply (local_read n0 (fun k => Forall (fun c => n0 <= c) k))).
  - intros st kept _. apply filter_text_ne_above. now apply H.
  - lbind ltac:(apply local_update).
    + assumption.
    + intros x (Hx1 & _ & Hx3). repeat split; assumption.
    + reflexivity.
    + now apply local_rebuild_children_dict.
Qed.

Lemma local_delete (n : ident) :
  n0 <= n -> local n0 (fun _ => True) (delete n).
Proof.
  intros Hn. unfold delete.
  lbind ltac:(apply local_get_node).
  apply local_delete_child. now apply H.
Qed.

Lemma local_set_text (n : ident) (v : string) :
  n0 <= n -> local n0 (fun _ => True) (set_text n v).
Proof.
  intros Hn. unfold set_text.
  lbind ltac:(apply local_update); [assumption | auto | reflexivity |].
  lbind ltac:(apply local_get_node).
  apply local_rebuild_children_dict. now apply H0.
Qed.

Lemma local_comments_add (n : ident) (c : string) :
  n0 <= n -> local n0 (fun _ => True) (comments_add n c).
Proof.
  intros Hn. unfold comments_add.
  apply local_update; [assumption | auto | reflexivity].
Qed.

Lemma local_tags_add (tag : tag_arg) (fuel : nat) :
  forall n, n0 <= n -> local n0 (fun _ => True) (tags_add fuel n tag).
Proof.
  induction fuel as [|f IH]; intros n Hn; cbn [tags_add];
    [apply local_abort|].
  lbind ltac:(apply local_get_node).
  destruct (is_branch a).
  - apply local_for_each. intros c Hc. apply IH.
    destruct (H Hn) as (_ & Hcs & _).
    rewrite List.Forall_forall in Hcs. now apply Hcs.
  - destruct tag; (apply local_update; [assumption | auto | reflexivity]).
Qed.

Lemma local_negation_prefix (n : ident) :
  local n0 (fun _ => True) (_negation_prefix n).
Proof.
  unfold _negation_prefix. lbind ltac:(apply local_get_node).
  apply local_raise.
Qed.

Lemma local_text_without_negation (n : ident) :
  local n0 (fun _ => True) (text_without_negation n).
Proof.
  unfold text_without_negation. lread.
  lbind ltac:(apply local_negation_prefix). now apply local_ret.
Qed.

Lemma local_negate (n : ident) :
  n0 <= n -> local n0 (fun m => n0 <= m) (negate n).
Proof.
  intros Hn.
  assert (Hswap : local n0 (fun m => n0 <= m) (_swap_negation n)).
  { unfold _swap_negation. lread.
    lbind ltac:(apply local_negation_prefix).
    eapply local_bind; [|intros; now apply local_ret].
    destruct (str_startswith a a0).
    - lbind ltac:(apply local_text_without_negation).
      now apply local_set_text.
    - lbind ltac:(apply local_negation_prefix). lread.
      now apply local_set_text. }
  assert (Hdef : local n0 (fun m => n0 <= m) (_default n)).
  { unfold _default. lbind ltac:(apply local_text_without_negation).
    lbind ltac:(now apply local_set_text). now apply local_ret. }
  unfold negate. lread. lread.
  destruct a0 as [[|c r]|].
  - lread. now destruct a0.
  - lbind ltac:(now apply local_set_text). now apply local_ret.
  - lread. now destruct a0.
Qed.

Lemma local_add_shallow_copy_of (fuel : nat) (p c : ident) (merged : bool) :
  n0 <= p -> local n0 (fun m => n0 <= m) (add_shallow_copy_of fuel p c merged).
Proof.
  intros Hp. unfold add_shallow_copy_of. lread.
  lbind ltac:(now apply local_add_child).
  eapply local_bind with (Q := fun _ => True).
  { destruct merged; [|now apply local_ret]. lread.
    apply local_update; [assumption | auto | reflexivity]. }
  intros _ _. lbind ltac:(apply local_get_node).
  lbind ltac:(apply local_update); [assumption | auto | reflexivity |].
  lbind ltac:(apply local_get_node).
  lbind ltac:(apply local_update); [assumption | auto | reflexivity |].
  lbind ltac:(apply local_get_node).
  eapply local_bind with (Q := fun _ => True).
  { destruct (is_leaf a5); [|now apply local_ret]. lread.
    now apply local_tags_add. }
  intros _ _. now apply local_ret.
Qed.

Lemma local_add_deep_copy_of (merged : bool) (fuel : nat) :
  forall p c, n0 <= p ->
  local n0 (fun m => n0 <= m) (add_deep_copy_of fuel p c merged).
Proof.
  induction fuel as [|f IH]; intros p c Hp; cbn [add_deep_copy_of];
    [apply local_abort|].
  lbind ltac:(now apply local_add_shallow_copy_of).
  lbind ltac:(apply local_get_node).
  eapply local_bind with (Q := fun _ => True).
  { apply local_for_each. intros child _.
    lbind ltac:(now apply IH). now apply local_ret. }
  intros _ _. now apply local_ret.
Qed.

(** The descendants of an object from [n0] on are from [n0] on. *)
Lemma all_children_above (st : Store) :
  closed_above n0 st ->
  forall fuel n l, n0 <= n -> all_children fuel st n = Some l ->
  Forall (fun c => n0 <= c) l.
Proof.
  intros [_ Hc]. induction fuel as [|f IH]; intros n l Hn; [discriminate|].
  cbn [all_children]. destruct (st !! n) as [nd|] eqn:Hnd; [|discriminate].
  cbn [mbind option_bind].
  destruct (Hc n nd Hn Hnd) as (_ & Hcs & _).
  revert l. induction Hcs as [|c cs Hcn _ IHcs]; intros l; cbn [fold_right].
  - now intros [= <-].
  - destruct (all_children f st c) as [below|] eqn:Hb; [|discriminate].
    cbn [mbind option_bind].
    destruct (fold_right _ _ cs) as [tl|]; [|discriminate].
    intros [= <-]. constructor; [assumption|].
    apply Forall_app. split; [eapply IH; eauto | now apply IHcs].
Qed.

Lemma local_overwrite_with (fuel : nat) (self other delta : ident)
    (negate_first : bool) :
  n0 <= delta ->
  local n0 (fun _ => True) (overwrite_with fuel self other delta negate_first).
Proof.
  intros Hd. unfold overwrite_with.
  lbind ltac:(apply local_get_node). lbind ltac:(apply local_get_node).
  lread. destruct a1; [|now apply local_ret].
  eapply local_bind with (Q := fun _ => True).
  { destruct negate_first; [|now apply local_ret]. lread.
    lbind ltac:(now apply local_delete_child_by_text). lread.
    lbind ltac:(now apply local_add_child).
    lbind ltac:(now apply local_negate).
    now apply local_comments_add. }
  intros _ _. lbind ltac:(apply local_get_node).
  destruct (negb _); [|now apply local_ret]. lread.
  lbind ltac:(now apply local_delete_child_by_text).
  lbind ltac:(now apply local_add_deep_copy_of).
  now apply local_comments_add.
Qed.

Lemma local_config_to_get_to_left (self target delta : ident) :
  n0 <= delta ->
  local n0 (fun _ => True) (_config_to_get_to_left self target delta).
Proof.
  intros Hd. unfold _config_to_get_to_left.
  lbind ltac:(apply local_get_node).
  apply local_for_each. intros self_child _. lread.
  lbind ltac:(apply local_get_node).
  destruct (dict_mem _ _); [now apply local_ret|]. lread.
  destruct a2; [now apply local_ret|]. lread.
  lbind ltac:(now apply local_add_child).
  lbind ltac:(now apply local_negate).
  lbind ltac:(apply local_get_node).
  destruct (negb _); [now apply local_comments_add | now apply local_ret].
Qed.

Lemma local_get_child (fuel : nat) (p : ident) (r : MatchRule) :
  local n0 (fun _ => True) (get_child fuel p r).
Proof.
  apply local_unchanged; [|auto].
  intros st. unfold get_child.
  destruct (get_children fuel st p r) as [[|c ys] []]; reflexivity.
Qed.

Lemma local_config_to_get_to_right (fuel : nat)
    (rec : ident -> ident -> ident -> M ident) (self target delta : ident) :
  (forall a b c, n0 <= c -> local n0 (fun _ => True) (rec a b c)) ->
  n0 <= delta ->
  local n0 (fun _ => True)
        (_config_to_get_to_right fuel rec self target delta).
Proof.
  intros Hrec Hd. unfold _config_to_get_to_right.
  lbind ltac:(apply local_get_node).
  apply local_for_each. intros target_child _. lread.
  lbind ltac:(apply local_get_child).
  destruct a1 as [self_child|].
  - lread. lbind ltac:(now apply local_add_child).
    lbind ltac:(now apply Hrec).
    lbind ltac:(apply local_get_node).
    destruct (length (children a4) =? 0); [now apply local_delete|].
    lread. destruct a5; [now apply local_overwrite_with|].
    lread. destruct a5; [now apply local_overwrite_with|].
    now apply local_ret.
  - lbind ltac:(now apply local_add_deep_copy_of).
    lbind ltac:(apply local_update); [assumption | auto | reflexivity |].
    lbind ltac:(apply (local_read n0 (fun l => Forall (fun c => n0 <= c) l))).
    { intros st l Hc. now apply all_children_above. }
    eapply local_bind with (Q := fun _ => True).
    { apply local_for_each. intros child Hin.
      apply local_update; [|auto | reflexivity].
      match goal with
      | HF : Forall _ _ |- _ =>
          rewrite List.Forall_forall in HF; now apply HF
      end. }
    intros _ _. lbind ltac:(apply local_get_node).
    destruct (negb _); [now apply local_comments_add | now apply local_ret].
Qed.

Lemma local_config_to_get_to_rec (fuel : nat) :
  forall self target delta, n0 <= delta ->
  local n0 (fun r => r = delta) (_config_to_get_to fuel self target delta).
Proof.
  induction fuel as [|f IH]; intros self target delta Hd;
    cbn [_config_to_get_to]; [apply local_abort|].
  lbind ltac:(now apply local_config_to_get_to_left).
  lbind ltac:(apply local_config_to_get_to_right; [|assumption]).
  { intros s1 t1 d1 Hd1. eapply local_weaken; [now apply IH | auto]. }
  now apply local_ret.
Qed.

Lemma local_strip_acl_sequence_number (c : ident) :
  local n0 (fun _ => True) (_strip_acl_sequence_number c).
Proof.
  unfold _strip_acl_sequence_number. lread.
  destruct (py_split a); [apply local_raise | now apply local_ret].
Qed.

Lemma local_acl_children_dict (cs : list ident) :
  forall d, local n0 (fun _ => True) (acl_children_dict cs d).
Proof.
  induction cs as [|c cs IH]; intros d; cbn [acl_children_dict].
  - now apply local_ret.
  - lbind ltac:(apply local_strip_acl_sequence_number). apply IH.
Qed.

Lemma local_difference_rec (fuel : nat) :
  forall self target delta acl in_acl, n0 <= delta ->
  local n0 (fun r => r = delta)
        (_difference fuel self target delta acl in_acl).
Proof.
  induction fuel as [|f IH]; intros self target delta acl in_acl Hd;
    cbn [_difference]; [apply local_abort|].
  lbind ltac:(apply local_get_node).
  eapply local_bind with (Q := fun _ => True);
    [|intros _ _; now apply local_ret].
  apply local_for_each. intros self_child _. lread. lread.
  destruct (startswith_any _ _); [now apply local_ret|].
  eapply local_bind with (Q := fun _ => True).
  { destruct in_acl.
    - destruct acl; [|apply local_raise].
      lbind ltac:(apply local_strip_acl_sequence_number).
      now apply local_ret.
    - lread. apply local_get_child. }
  intros [target_child|] _.
  - lread. lbind ltac:(now apply local_add_child). lread.
    eapply local_bind with (Q := fun _ => True).
    { destruct (startswith_any _ _).
      - lbind ltac:(apply local_get_node).
        lbind ltac:(apply local_acl_children_dict).
        lbind ltac:(now apply IH). now apply local_ret.
      - lbind ltac:(now apply IH). now apply local_ret. }
    intros _ _. lbind ltac:(apply local_get_node).
    destruct (length _ =? 0); [now apply local_delete | now apply local_ret].
  - lbind ltac:(now apply local_add_deep_copy_of). now apply local_ret.
Qed.

Lemma local_future_pre (fuel : nat) (self config : ident) :
  local n0 (fun _ => True) (_future_pre fuel self config).
Proof.
  unfold _future_pre. lbind ltac:(apply local_get_node).
  apply local_fold_m; [|exact I]. intros acc self_child _ _.
  lread. lread. destruct a1 as [[|c r]|]; try now apply local_ret.
  lbind ltac:(apply local_get_child).
  destruct a1; [|now apply local_ret]. lread. lread. now apply local_ret.
Qed.

Lemma local_future_rec (fuel : nat) :
  forall self config future_config, n0 <= future_config ->
  local n0 (fun _ => True) (_future fuel self config future_config).
Proof.
  induction fuel as [|f IH]; intros self config future_config Hd;
    cbn [_future]; [apply local_abort|].
  lbind ltac:(apply local_future_pre).
  lbind ltac:(apply local_get_node).
  eapply local_bind with (Q := fun _ => True).
  { apply local_fold_m; [|exact I]. intros nor config_child _ _.
    lread. destruct (set_mem _ _); [now apply local_ret|].
    lread.
    eapply local_bind with (Q := fun _ => True).
    { match goal with
      | |- context [if ?b then ret true else _] => destruct b
      end; [now apply local_ret | apply local_read_any]. }
    intros so2 _. destruct so2.
    { lbind ltac:(now apply local_add_deep_copy_of). now apply local_ret. }
    lread. lbind ltac:(apply local_get_node). lread.
    match goal with
    | |- local _ _ (match ?x with Some _ => _ | None => _ end) =>
        destruct x as [self_child|]
    end.
    { lbind ltac:(now apply local_add_deep_copy_of). lread.
      now apply local_ret. }
    lread. lbind ltac:(apply local_get_child).
    match goal with
    | |- local _ _ (match ?x with Some _ => _ | None => _ end) =>
        destruct x as [self_child|]
    end.
    { lbind ltac:(now apply local_add_shallow_copy_of).
      lbind ltac:(now apply IH). lread. now apply local_ret. }
    lread. lread.
    match goal with
    | |- local _ _ (if ?b then _ else _) => destruct b
    end.
    - lbind ltac:(apply local_text_without_negation).
      lbind ltac:(apply local_get_child).
      match goal with
      | |- local _ _ (match ?x with Some _ => _ | None => _ end) =>
          destruct x
      end; [now apply local_ret|].
      lbind ltac:(now apply local_add_shallow_copy_of). now apply local_ret.
    - lread. lread. lbind ltac:(apply local_get_child).
      match goal with
      | |- local _ _ (match ?x with Some _ => _ | None => _ end) =>
          destruct x
      end.
      + lread. now apply local_ret.
      + lbind ltac:(now apply local_add_deep_copy_of). now apply local_ret. }
  intros negated_or_recursed _. lbind ltac:(apply local_get_node).
  apply local_for_each. intros self_child _. lread.
  destruct (set_mem _ _); [now apply local_ret|].
  lbind ltac:(now apply local_add_deep_copy_of). now apply local_ret.
Qed.

End LocalOperations.

(** A new [HConfig] at the end of the store closes it from there on. *)
Lemma closed_above_new_root (st : Store) (driver_ix : nat) :
  closed_above (length st) (st ++ [new_HConfig (length st) driver_ix]).
Proof.
  split; [rewrite length_app; lia|].
  intros i nd Hi Hnd.
  destruct (Nat.eq_dec i (length st)) as [->|Hne].
  - rewrite lookup_alloc_new in Hnd. injection Hnd as <-.
    repeat split; [cbn; lia | constructor | constructor].
  - rewrite lookup_ge_None_2 in Hnd; [discriminate|].
    rewrite length_app. simpl. lia.
Qed.

(** A computation that allocates a new [HConfig] and works on it locally. *)
Lemma built_apart_intro (st : Store) (s : ident) (body : ident -> M ident) :
  (forall nd, st !! s = Some nd ->
     local (length st) (fun r => r = length st) (body (length st))) ->
  built_apart st
    ((let* so := get_node s in
      let* delta := alloc (fun i => new_HConfig i (_driver so)) in
      body delta)%hc st).
Proof.
  intros Hbody. unfold bind at 1, get_node, read.
  destruct (st !! s) as [nd|] eqn:Hs.
  2:{ split; [reflexivity | discriminate]. }
  unfold bind, alloc.
  destruct (Hbody nd eq_refl _ (closed_above_new_root st (_driver nd)))
    as (_ & [Hold Hkind] & HQ).
  split.
  - intros i Hi. rewrite Hold by assumption. now apply lookup_alloc_old.
  - intros d st' Hrun. split; [eapply HQ; exact Hrun|].
    destruct (Hkind (length st) _ (lookup_alloc_new st _)) as (nd' & Hnd' & Hr).
    rewrite Hrun in Hnd'. cbn in Hnd'.
    rewrite (HQ _ _ Hrun). eauto.
Qed.

Section Purity.
Context {P : Platform}.

(** C10: [difference], [config_to_get_to] and [future] return a new
    [HConfig], and every object that existed before the call, the trees of
    [self] and of the argument among them, is afterwards exactly as it was:
    children, index, text, tags, comments and flags.  This holds for every
    way the call ends, an exception included. *)
Theorem derived_trees_are_built_apart (fuel : nat) (st : Store)
    (S T : ident) :
  built_apart st (difference fuel S T st) /\
  built_apart st (config_to_get_to fuel S T st) /\
  built_apart st (future fuel S T st).
Proof.
  split; [|split].
  - unfold difference. apply built_apart_intro. intros _ _.
    now apply local_difference_rec.
  - unfold config_to_get_to. apply built_apart_intro. intros _ _.
    now apply local_config_to_get_to_rec.
  - unfold future.
    apply (built_apart_intro st S
             (fun d => (_future fuel S T d ;; ret d)%hc)).
    intros _ _.
    lbind ltac:(now apply local_future_rec). now apply local_ret.
Qed.

End Purity.

(** The three calls on the configurations of [two_configs]: [difference] and
    [future] return the new root [9]; [config_to_get_to] has the line
    ["hostname x"] to negate and ends in [AttributeError]; each time the nine
    objects of the two configurations are as they were. *)
Example derived_trees_on_two_configs :
  match two_configs [] with
  | Ok (running, generated) st =>
      (exists st1,
         config_to_get_to (P:=generic_platform) 5 running generated st
           = Raise AttributeError st1 /\ firstn 9 st1 = st) /\
      (exists st2,
         difference (P:=generic_platform) 5 running generated st = Ok 9 st2 /\
         firstn 9 st2 = st) /\
      (exists st3,
         future (P:=generic_platform) 5 running generated st = Ok 9 st3 /\
         firstn 9 st3 = st)
  | _ => False
  end.
Proof.
  vm_compute.
  split; [|split]; eexists; (split; [reflexivity|]); reflexivity.
Qed.

(* ===================================================================== *)
(** * Further properties of the tree operations *)
(* ===================================================================== *)

(** ** The child list and its index *)

Section ChildList.
Context {P : Platform}.

Lemma with_children_same (nd : HConfigNode) :
  with_children (children nd) nd = nd.
Proof. now destruct nd. Qed.

Lemma index_agrees_same_texts (st st' : Store) (nd : HConfigNode) :
  index_agrees st nd ->
  Forall (fun c => _text <$> st' !! c = _text <$> st !! c) (children nd) ->
  index_agrees st' nd.
Proof.
  intros Hidx Hsame t. rewrite (Hidx t). symmetry.
  now apply first_with_text_ext.
Qed.

(** X1: whatever the index of a node holds, [rebuild_children_dict] returns
    and leaves an index that agrees with the child list; the child list and
    every other object are as before. *)
Theorem rebuild_restores_index (st : Store) (p : ident) (nd : HConfigNode) :
  st !! p = Some nd ->
  Forall (fun c => is_Some (st !! c)) (children nd) ->
  exists st' nd',
    rebuild_children_dict p st = Ok tt st' /\
    st' !! p = Some nd' /\
    children nd' = children nd /\
    index_agrees st' nd' /\
    forall i, i <> p -> st' !! i = st !! i.
Proof.
  intros Hp Hex.
  destruct (rebuild_children_dict_agrees st p nd Hp Hex) as (d & Hrun & Hidx).
  exists (<[p := with_children_dict d nd]> st), (with_children_dict d nd).
  split; [assumption|].
  split; [apply list_lookup_insert_eq; eapply lookup_Some_lt; eauto|].
  split; [reflexivity|]. split; [assumption|].
  intros i Hi. now apply list_lookup_insert_ne.
Qed.


Lemma insert_text_same (st : Store) (p : ident) (nd nd' : HConfigNode) :
  st !! p = Some nd -> _text nd' = _text nd ->
  forall c, _text <$> <[p := nd']> st !! c = _text <$> st !! c.
Proof.
  intros Hp Ht c. destruct (decide (c = p)) as [->|Hne].
  - rewrite list_lookup_insert_eq by (eapply lookup_Some_lt; eauto).
    rewrite Hp. cbn. now f_equal.
  - now rewrite list_lookup_insert_ne by congruence.
Qed.

Lemma insert_keeps_exist (st : Store) (p : ident) (nd nd' : HConfigNode)
    (cs : list ident) :
  st !! p = Some nd ->
  Forall (fun c => is_Some (st !! c)) cs ->
  Forall (fun c => is_Some (<[p := nd']> st !! c)) cs.
Proof.
  intros Hp Hex. eapply Forall_impl; [exact Hex|]. intros c [x Hx].
  destruct (decide (c = p)) as [->|Hne].
  - rewrite list_lookup_insert_eq by (eapply lookup_Some_lt; eauto). eauto.
  - rewrite list_lookup_insert_ne by congruence. eauto.
Qed.

Lemma insert_keeps_children_ok (st : Store) (p : ident)
    (nd nd' x : HConfigNode) :
  st !! p = Some nd -> is_root nd' = is_root nd ->
  children_ok st x -> children_ok (<[p := nd']> st) x.
Proof.
  intros Hp Hr Hok. unfold children_ok in *.
  eapply Forall_impl; [exact Hok|]. intros c (y & Hy & Hroot).
  destruct (decide (c = p)) as [->|Hne].
  - rewrite list_lookup_insert_eq by (eapply lookup_Some_lt; eauto).
    exists nd'. split; [reflexivity|]. rewrite Hr. congruence.
  - rewrite list_lookup_insert_ne by congruence. eauto.
Qed.

(** X2: under a parent whose children are [HConfigChild] objects and whose
    index agrees with its child list, a text that [strip] leaves as it is,
    that is not empty and that is no key of the index is added as the last
    child; the index still agrees with the child list, and a lookup by that
    text then returns the new child.  Texts are strings of code points below
    256, and [strip] takes off the white space of [str.strip] among them. *)
Theorem add_child_then_get_child (st : Store) (p : ident) (nd : HConfigNode)
    (t : string) (r f : bool) :
  st !! p = Some nd -> children_ok st nd -> index_agrees st nd ->
  t <> EmptyString -> strip t = t ->
  dict_mem t (children_dict nd) = false ->
  exists st' nd',
    add_child p t r f st = Ok (length st) st' /\
    st' !! p = Some nd' /\
    children nd' = children nd ++ [length st] /\
    index_agrees st' nd' /\
    text st' (length st) = Some t /\
    (forall fuel,
       get_child fuel p (rule_equals t) st' = Ok (Some (length st)) st') /\
    forall i, i < length st -> i <> p -> st' !! i = st !! i.
Proof.
  intros Hp Hok Hidx Ht Hs Hm.
  destruct (add_child_keeps_index st p nd t r f Hp Hok Hidx Ht Hs Hm)
    as (st' & nd' & Hrun & Hp' & Hch & Hidx').
  pose proof (add_child_fresh st p nd t r f Hp Ht Hm) as Hfresh.
  rewrite Hfresh in Hrun. injection Hrun as <-.
  pose proof (lookup_Some_lt _ _ _ Hp) as Hlt.
  rewrite store_with_child_parent in Hp' by assumption.
  injection Hp' as <-.
  eexists _, _. split; [exact Hfresh|].
  split; [now apply store_with_child_parent|].
  split; [assumption|]. split; [assumption|].
  split.
  { unfold text. rewrite store_with_child_new by assumption.
    cbn. now rewrite Hs. }
  split.
  { intros fuel.
    rewrite (get_child_equals fuel _ p _ t
               (store_with_child_parent st p t _ Hlt)).
    cbn [children_dict with_children_dict].
    rewrite dict_get_set. now rewrite String.eqb_refl. }
  intros i Hi Hne. now apply store_with_child_other.
Qed.

Lemma filter_text_ne_filter (st : Store) (t : string) (cs : list ident) :
  Forall (fun c => is_Some (st !! c)) cs ->
  filter_text_ne st t cs = Some (children_without_text st cs t).
Proof.
  induction 1 as [|c cs [x Hx] _ IH]; [reflexivity|].
  cbn [filter_text_ne children_without_text List.filter].
  unfold text. rewrite Hx. cbn. rewrite IH. cbn.
  now destruct (String.eqb (_text x) t).
Qed.

Lemma children_without_text_absent (st : Store) (t : string)
    (cs : list ident) :
  first_with_text st cs t = None -> children_without_text st cs t = cs.
Proof.
  induction cs as [|c cs IH]; [reflexivity|].
  cbn [first_with_text children_without_text List.filter].
  destruct (st !! c) as [x|].
  - destruct (String.eqb (_text x) t); [discriminate|].
    intros H. cbn. f_equal. now apply IH.
  - intros H. f_equal. now apply IH.
Qed.

Lemma first_with_text_removed (st : Store) (t : string) (cs : list ident) :
  first_with_text st (children_without_text st cs t) t = None.
Proof.
  induction cs as [|c cs IH]; [reflexivity|].
  cbn [children_without_text List.filter].
  destruct (st !! c) as [x|] eqn:Hc.
  - destruct (String.eqb (_text x) t) eqn:He; cbn [negb]; [exact IH|].
    cbn [first_with_text]. rewrite Hc, He. exact IH.
  - cbn [first_with_text]. rewrite Hc. exact IH.
Qed.

Lemma first_with_text_kept (st : Store) (t u : string) (cs : list ident) :
  u <> t ->
  first_with_text st (children_without_text st cs t) u =
  first_with_text st cs u.
Proof.
  intros Hne. induction cs as [|c cs IH]; [reflexivity|].
  cbn [children_without_text List.filter first_with_text].
  destruct (st !! c) as [x|] eqn:Hc.
  - destruct (String.eqb (_text x) t) eqn:He; cbn [negb].
    + apply String.eqb_eq in He.
      destruct (String.eqb (_text x) u) eqn:Hu; [|exact IH].
      apply String.eqb_eq in Hu. congruence.
    + cbn [first_with_text]. rewrite Hc.
      destruct (String.eqb (_text x) u); [reflexivity|exact IH].
  - cbn [first_with_text]. rewrite Hc. exact IH.
Qed.

(** X3: [delete_child_by_text] returns and writes to the parent only.  When
    the text is a key of the index, it removes every child that bears the
    text and keeps the others in their order; the index agrees with the list
    afterwards, a lookup by that text finds nothing and a lookup by another
    text finds the earliest child bearing it.  When the text is no key of the
    index, the store is left as it is, also when a child bears the text. *)
Theorem delete_child_by_text_spec (st : Store) (p : ident) (nd : HConfigNode)
    (t : string) :
  st !! p = Some nd -> children_ok st nd ->
  exists st' nd',
    delete_child_by_text p t st = Ok tt st' /\
    st' !! p = Some nd' /\
    (forall i, i <> p -> st' !! i = st !! i) /\
    if dict_mem t (children_dict nd)
    then children nd' = children_without_text st (children nd) t /\
         index_agrees st' nd' /\
         (forall fuel, get_child fuel p (rule_equals t) st' = Ok None st') /\
         (forall fuel u, u <> t ->
            get_child fuel p (rule_equals u) st'
              = Ok (first_with_text st (children nd) u) st')
    else st' = st.
Proof.
  intros Hp Hok. unfold delete_child_by_text.
  rewrite (bind_get_node _ _ _ _ Hp).
  pose proof (children_ok_exist _ _ Hok) as Hex.
  destruct (dict_mem t (children_dict nd)) eqn:Hm.
  - rewrite (bind_read _ _ _ _ (filter_text_ne_filter st t _ Hex)).
    rewrite (bind_update _ _ _ _ _ Hp).
    set (kept := children_without_text st (children nd) t).
    set (st1 := <[p := with_children kept nd]> st).
    assert (Hp1 : st1 !! p = Some (with_children kept nd)).
    { apply list_lookup_insert_eq. eapply lookup_Some_lt; eauto. }
    assert (Hex1 : Forall (fun c => is_Some (st1 !! c))
                     (children (with_children kept nd))).
    { apply (insert_keeps_exist st p nd); [assumption|].
      cbn [children with_children]. unfold kept, children_without_text.
      apply List.Forall_forall. intros c Hc.
      apply List.filter_In in Hc as [Hc _].
      revert c Hc. now apply List.Forall_forall. }
    destruct (rebuild_children_dict_agrees st1 p _ Hp1 Hex1)
      as (d & Hrun & Hagree).
    rewrite Hrun.
    set (nd' := with_children_dict d (with_children kept nd)) in *.
    assert (Hp' : <[p := nd']> st1 !! p = Some nd').
    { apply list_lookup_insert_eq. eapply lookup_Some_lt; eauto. }
    assert (Hsame : forall cs u,
              first_with_text (<[p := nd']> st1) cs u
              = first_with_text st cs u).
    { intros cs u. apply first_with_text_ext.
      apply List.Forall_forall. intros c _.
      rewrite (insert_text_same st1 p _ nd' Hp1 eq_refl).
      apply (insert_text_same st p nd (with_children kept nd) Hp eq_refl). }
    exists (<[p := nd']> st1), nd'.
    split; [reflexivity|]. split; [assumption|].
    split.
    { intros i Hi. unfold st1.
      now rewrite !list_lookup_insert_ne by congruence. }
    split; [reflexivity|]. split; [assumption|].
    split.
    { intros fuel. rewrite (get_child_equals fuel _ p nd' t Hp').
      rewrite (Hagree t). cbn [children with_children with_children_dict nd'].
      rewrite Hsame. unfold kept. now rewrite first_with_text_removed. }
    intros fuel u Hne. rewrite (get_child_equals fuel _ p nd' u Hp').
    rewrite (Hagree u). cbn [children with_children with_children_dict nd'].
    rewrite Hsame. unfold kept.
    now rewrite first_with_text_kept by assumption.
  - exists st, nd. split; [reflexivity|]. split; [assumption|].
    split; reflexivity.
Qed.

End ChildList.

Lemma rebuild_restores_index_witness :
  exists st' nd',
    rebuild_children_dict 0 stale_index = Ok tt st' /\
    st' !! 0 = Some nd' /\
    children nd' = [1] /\
    index_agrees st' nd' /\
    forall i, i <> 0 -> st' !! i = stale_index !! i.
Proof.
  apply (rebuild_restores_index stale_index 0
           (mkNode true 0 "" 0 [1] [("old", 1)] [] [] false 0%Z [])).
  - reflexivity.
  - repeat constructor. eexists. reflexivity.
Defined.

Lemma add_child_then_get_child_witness :
  exists st' nd',
    add_child (P:=generic_platform) 0 "c" false false two_roots = Ok 4 st' /\
    st' !! 0 = Some nd' /\
    children nd' = [1; 2; 4] /\
    index_agrees st' nd' /\
    text st' 4 = Some "c" /\
    (forall fuel,
       get_child (P:=generic_platform) fuel 0 (rule_equals "c") st'
         = Ok (Some 4) st') /\
    forall i, i < 4 -> i <> 0 -> st' !! i = two_roots !! i.
Proof.
  apply (add_child_then_get_child (P:=generic_platform) two_roots 0
           (mkNode true 0 "" 0 [1; 2] [("a", 1); ("b", 2)] [] [] false 0%Z [])
           "c" false false).
  - reflexivity.
  - repeat constructor; eexists; (split; [reflexivity|reflexivity]).
  - index_agrees_by_computation.
  - discriminate.
  - reflexivity.
  - reflexivity.
Defined.

(** On [two_roots], where ["a"] is a key of the index, and on the store of
    [untrimmed_insertion], where the child ["a"] is filed under [" a"]. *)
Lemma delete_child_by_text_spec_witness :
  (exists st' nd',
     delete_child_by_text 0 "a" two_roots = Ok tt st' /\
     st' !! 0 = Some nd' /\
     (forall i, i <> 0 -> st' !! i = two_roots !! i) /\
     children nd' = [2] /\
     index_agrees st' nd' /\
     (forall fuel,
        get_child (P:=generic_platform) fuel 0 (rule_equals "a") st'
          = Ok None st') /\
     (forall fuel u, u <> "a" ->
        get_child (P:=generic_platform) fuel 0 (rule_equals u) st'
          = Ok (first_with_text two_roots [1; 2] u) st')) /\
  (exists st' nd',
     delete_child_by_text 0 "a" untrimmed_store = Ok tt st' /\
     st' !! 0 = Some nd' /\
     (forall i, i <> 0 -> st' !! i = untrimmed_store !! i) /\
     st' = untrimmed_store) /\
  first_with_text untrimmed_store [1] "a" = Some 1.
Proof.
  split; [|split].
  - apply (delete_child_by_text_spec (P:=generic_platform) two_roots 0
             (mkNode true 0 "" 0 [1; 2] [("a", 1); ("b", 2)] [] [] false 0%Z
                     [])
             "a").
    + reflexivity.
    + repeat constructor; eexists; (split; [reflexivity|reflexivity]).
  - apply (delete_child_by_text_spec (P:=generic_platform) untrimmed_store 0
             (mkNode true 0 "" 0 [1] [(" a", 1)] [] [] false 0%Z [])
             "a").
    + reflexivity.
    + repeat constructor; eexists; (split; [reflexivity|reflexivity]).
  - reflexivity.
Defined.

(** ** Removing, moving and renaming a child *)

Section DeleteMove.
Context {P : Platform}.

Lemma children_without_absent (cs : list ident) (x : ident) :
  ~ In x cs -> children_without cs x = cs.
Proof.
  induction cs as [|c cs IH]; [reflexivity|].
  intros Hn. cbn [children_without List.filter].
  destruct (Nat.eqb_spec c x) as [->|Hne].
  - exfalso. apply Hn. now left.
  - cbn [negb]. f_equal. apply IH. intros Hin. apply Hn. now right.
Qed.

Lemma children_without_shorter (cs : list ident) (x : ident) :
  In x cs -> length (children_without cs x) < length cs.
Proof.
  induction cs as [|c cs IH]; [intros []|].
  intros Hin. cbn [children_without List.filter].
  pose proof (List.filter_length_le (fun c => negb (c =? x)) cs) as Hle.
  destruct (Nat.eqb_spec c x) as [->|Hne]; cbn [negb length].
  - unfold children_without. lia.
  - destruct Hin as [->|Hin]; [congruence|].
    specialize (IH Hin). unfold children_without in IH. lia.
Qed.

Lemma children_without_In (cs : list ident) (x c : ident) :
  In c (children_without cs x) <-> In c cs /\ c <> x.
Proof.
  unfold children_without. rewrite List.filter_In.
  destruct (Nat.eqb_spec c x); cbn; intuition congruence.
Qed.

(** What [delete_child] leaves behind. *)
Lemma delete_child_result (st : Store) (p c : ident) (nd : HConfigNode) :
  st !! p = Some nd ->
  Forall (fun k => is_Some (st !! k)) (children nd) ->
  exists nd',
    delete_child p c st = Ok tt (<[p := nd']> st) /\
    children nd' = children_without (children nd) c /\
    _text nd' = _text nd /\ parent nd' = parent nd /\
    is_root nd' = is_root nd /\
    (In c (children nd) -> index_agrees (<[p := nd']> st) nd') /\
    (~ In c (children nd) -> nd' = nd).
Proof.
  intros Hp Hex. unfold delete_child.
  rewrite (bind_get_node _ _ _ _ Hp), (bind_update _ _ _ _ _ Hp).
  fold (children_without (children nd) c).
  set (kept := children_without (children nd) c).
  destruct (In_dec Nat.eq_dec c (children nd)) as [Hin|Hout].
  - pose proof (children_without_shorter _ _ Hin) as Hlt. fold kept in Hlt.
    destruct (Nat.eqb_spec (length (children nd)) (length kept)) as [He|_];
      [lia|]. cbn [negb].
    set (st1 := <[p := with_children kept nd]> st).
    assert (Hp1 : st1 !! p = Some (with_children kept nd)).
    { apply list_lookup_insert_eq. eapply lookup_Some_lt; eauto. }
    assert (Hex1 : Forall (fun k => is_Some (st1 !! k))
                     (children (with_children kept nd))).
    { apply (insert_keeps_exist st p nd); [assumption|].
      cbn [children with_children].
      apply List.Forall_forall. intros k Hk.
      apply children_without_In in Hk as [Hk _].
      revert k Hk. now apply List.Forall_forall. }
    destruct (rebuild_children_dict_agrees st1 p _ Hp1 Hex1)
      as (d & Hrun & Hagree).
    exists (with_children_dict d (with_children kept nd)).
    unfold st1 in Hrun, Hagree. rewrite list_insert_insert_eq in Hrun, Hagree.
    split; [exact Hrun|]. split; [reflexivity|].
    split; [reflexivity|]. split; [reflexivity|]. split; [reflexivity|].
    split; [intros _; exact Hagree|]. intros Hn. contradiction.
  - pose proof (children_without_absent _ _ Hout) as Hsame. fold kept in Hsame.
    rewrite Hsame, Nat.eqb_refl. cbn [negb]. rewrite with_children_same.
    exists nd. split; [reflexivity|].
    split; [now rewrite <- Hsame|].
    split; [reflexivity|]. split; [reflexivity|]. split; [reflexivity|].
    split; [intros Hin; contradiction|]. reflexivity.
Qed.

(** X4: [delete_child] returns; it removes every occurrence of the given
    object from the child list, by identity, and keeps the others in their
    order; the index agrees with the list afterwards.  An object that is not
    among the children leaves the store as it is. *)
Theorem delete_child_spec (st : Store) (p c : ident) (nd : HConfigNode) :
  st !! p = Some nd -> children_ok st nd -> index_agrees st nd ->
  exists st' nd',
    delete_child p c st = Ok tt st' /\
    st' !! p = Some nd' /\
    children nd' = children_without (children nd) c /\
    ~ In c (children nd') /\
    index_agrees st' nd' /\
    (forall i, i <> p -> st' !! i = st !! i) /\
    (~ In c (children nd) -> st' = st).
Proof.
  intros Hp Hok Hidx.
  destruct (delete_child_result st p c nd Hp (children_ok_exist _ _ Hok))
    as (nd' & Hrun & Hch & Ht & _ & _ & Hin & Hout).
  exists (<[p := nd']> st), nd'.
  split; [assumption|].
  split; [apply list_lookup_insert_eq; eapply lookup_Some_lt; eauto|].
  split; [assumption|].
  split.
  { rewrite Hch. intros H. apply children_without_In in H as [_ H].
    now apply H. }
  split.
  { destruct (In_dec Nat.eq_dec c (children nd)) as [Hc|Hc]; [now apply Hin|].
    rewrite (Hout Hc). rewrite list_insert_id by assumption. assumption. }
  split; [intros i Hi; now rewrite list_lookup_insert_ne by congruence|].
  intros Hc. rewrite (Hout Hc). now apply list_insert_id.
Qed.

(** X5: on a child whose parent is another object, with children that are
    [HConfigChild] objects, the [text] setter stores the value without the
    white space at its ends and rebuilds the index of the parent, which
    agrees with the child list afterwards whatever it held before; the child
    list itself is as before.  Values are strings of code points below 256,
    and [strip] takes off the white space of [str.strip] among them. *)
Theorem set_text_spec (st : Store) (x p : ident) (xd pd : HConfigNode)
    (v : string) :
  st !! x = Some xd -> parent xd = p -> p <> x ->
  st !! p = Some pd -> children_ok st pd ->
  exists st' pd',
    set_text x v st = Ok tt st' /\
    text st' x = Some (strip v) /\
    st' !! p = Some pd' /\
    children pd' = children pd /\
    index_agrees st' pd' /\
    forall i, i <> p -> i <> x -> st' !! i = st !! i.
Proof.
  intros Hx Hpar Hne Hp Hok. unfold set_text.
  rewrite (bind_update _ _ _ _ _ Hx).
  set (st1 := <[x := with_text (strip v) xd]> st).
  assert (Hx1 : st1 !! x = Some (with_text (strip v) xd)).
  { apply list_lookup_insert_eq. eapply lookup_Some_lt; eauto. }
  assert (Hp1 : st1 !! p = Some pd).
  { unfold st1. now rewrite list_lookup_insert_ne by congruence. }
  rewrite (bind_get_node _ _ _ _ Hx1). cbn [parent with_text]. rewrite Hpar.
  assert (Hex1 : Forall (fun c => is_Some (st1 !! c)) (children pd)).
  { apply (insert_keeps_exist st x xd); [assumption|].
    now apply children_ok_exist. }
  destruct (rebuild_children_dict_agrees st1 p pd Hp1 Hex1)
    as (d & Hrun & Hagree).
  exists (<[p := with_children_dict d pd]> st1), (with_children_dict d pd).
  split; [assumption|].
  split.
  { unfold text. rewrite list_lookup_insert_ne by congruence.
    now rewrite Hx1. }
  split; [apply list_lookup_insert_eq; eapply lookup_Some_lt; eauto|].
  split; [reflexivity|]. split; [assumption|].
  intros i Hi Hi'. unfold st1.
  now rewrite !list_lookup_insert_ne by congruence.
Qed.

(** X6: [move] to another parent appends the child to the new parent and
    removes it from the old one, and both indexes agree with their lists
    afterwards.  The [parent] of the moved child is not written: it still
    names the old parent, so that a [delete] of the child afterwards changes
    nothing and leaves it in the list of the new parent. *)
Theorem move_spec (st : Store) (x p q : ident) (xd pd qd : HConfigNode) :
  st !! x = Some xd -> parent xd = p -> is_root xd = false ->
  st !! p = Some pd -> st !! q = Some qd ->
  p <> q -> x <> p -> x <> q ->
  children_ok st pd -> children_ok st qd -> In x (children pd) ->
  exists st' pd' qd',
    move x q st = Ok tt st' /\
    st' !! p = Some pd' /\ st' !! q = Some qd' /\
    children pd' = children_without (children pd) x /\
    children qd' = children qd ++ [x] /\
    index_agrees st' pd' /\ index_agrees st' qd' /\
    st' !! x = Some xd /\
    delete x st' = Ok tt st'.
Proof.
  intros Hx Hpar Hroot Hp Hq Hpq Hxp Hxq Hokp Hokq Hin. unfold move.
  rewrite (bind_update _ _ _ _ _ Hq).
  set (st1 := <[q := append_child x qd]> st).
  assert (Hq1 : st1 !! q = Some (append_child x qd)).
  { apply list_lookup_insert_eq. eapply lookup_Some_lt; eauto. }
  assert (Hex1 : Forall (fun c => is_Some (st1 !! c))
                   (children (append_child x qd))).
  { apply (insert_keeps_exist st q qd); [assumption|].
    cbn [children append_child with_children].
    apply Forall_app. split; [now apply children_ok_exist|].
    repeat constructor. eauto. }
  destruct (rebuild_children_dict_agrees st1 q _ Hq1 Hex1)
    as (d & Hrun & Hagree).
  rewrite (bind_ok _ _ _ _ _ Hrun).
  set (qd' := with_children_dict d (append_child x qd)) in *.
  set (st2 := <[q := qd']> st1) in *.
  assert (Hx2 : st2 !! x = Some xd).
  { unfold st2, st1. now rewrite !list_lookup_insert_ne by congruence. }
  assert (Hp2 : st2 !! p = Some pd).
  { unfold st2, st1. now rewrite !list_lookup_insert_ne by congruence. }
  assert (Hq2 : st2 !! q = Some qd').
  { apply list_lookup_insert_eq. unfold st1. rewrite length_insert.
    eapply lookup_Some_lt; eauto. }
  assert (Hex2 : Forall (fun c => is_Some (st2 !! c)) (children pd)).
  { apply (insert_keeps_exist st1 q _ _ _ Hq1).
    apply (insert_keeps_exist st q qd); [assumption|].
    now apply children_ok_exist. }
  unfold delete at 1. rewrite (bind_get_node _ _ _ _ Hx2), Hpar.
  destruct (delete_child_result st2 p x pd Hp2 Hex2)
    as (pd' & Hdel & Hch & Ht & Hpp & Hr & Hidx & _).
  rewrite Hdel.
  set (st3 := <[p := pd']> st2).
  assert (Hp3 : st3 !! p = Some pd').
  { apply list_lookup_insert_eq. eapply lookup_Some_lt; eauto. }
  assert (Hq3 : st3 !! q = Some qd').
  { unfold st3. now rewrite list_lookup_insert_ne by congruence. }
  assert (Hx3 : st3 !! x = Some xd).
  { unfold st3. now rewrite list_lookup_insert_ne by congruence. }
  exists st3, pd', qd'.
  split; [reflexivity|]. split; [assumption|]. split; [assumption|].
  split; [assumption|]. split; [reflexivity|].
  split; [now apply Hidx|].
  split.
  { apply (index_agrees_same_texts st2); [assumption|].
    apply List.Forall_forall. intros c _.
    now apply (insert_text_same st2 p pd pd' Hp2). }
  split; [assumption|].
  unfold delete. rewrite (bind_get_node _ _ _ _ Hx3), Hpar.
  assert (Hex3 : Forall (fun c => is_Some (st3 !! c)) (children pd')).
  { apply (insert_keeps_exist st2 p pd); [assumption|].
    rewrite Hch. apply List.Forall_forall. intros k Hk.
    apply children_without_In in Hk as [Hk _].
    revert k Hk. now apply List.Forall_forall. }
  destruct (delete_child_result st3 p x pd' Hp3 Hex3)
    as (pd'' & Hdel' & _ & _ & _ & _ & _ & Hout).
  rewrite Hdel'. rewrite Hout.
  - now rewrite list_insert_id.
  - rewrite Hch. intros H. apply children_without_In in H as [_ H].
    now apply H.
Qed.

(** X7: [move] to the parent the child has already removes the child from
    that parent: it is appended first, and then every occurrence of it is
    deleted. *)
Theorem move_to_own_parent_removes (st : Store) (x p : ident)
    (xd pd : HConfigNode) :
  st !! x = Some xd -> parent xd = p -> x <> p ->
  st !! p = Some pd -> children_ok st pd ->
  exists st' pd',
    move x p st = Ok tt st' /\
    st' !! p = Some pd' /\
    children pd' = children_without (children pd) x /\
    ~ In x (children pd') /\
    index_agrees st' pd' /\
    st' !! x = Some xd.
Proof.
  intros Hx Hpar Hxp Hp Hok. unfold move.
  rewrite (bind_update _ _ _ _ _ Hp).
  set (st1 := <[p := append_child x pd]> st).
  assert (Hp1 : st1 !! p = Some (append_child x pd)).
  { apply list_lookup_insert_eq. eapply lookup_Some_lt; eauto. }
  assert (Hex1 : Forall (fun c => is_Some (st1 !! c))
                   (children (append_child x pd))).
  { apply (insert_keeps_exist st p pd); [assumption|].
    cbn [children append_child with_children].
    apply Forall_app. split; [now apply children_ok_exist|].
    repeat constructor. eauto. }
  destruct (rebuild_children_dict_agrees st1 p _ Hp1 Hex1)
    as (d & Hrun & _).
  rewrite (bind_ok _ _ _ _ _ Hrun).
  set (pd1 := with_children_dict d (append_child x pd)) in *.
  set (st2 := <[p := pd1]> st1) in *.
  assert (Hx2 : st2 !! x = Some xd).
  { unfold st2, st1. now rewrite !list_lookup_insert_ne by congruence. }
  assert (Hp2 : st2 !! p = Some pd1).
  { apply list_lookup_insert_eq. eapply lookup_Some_lt; eauto. }
  assert (Hex2 : Forall (fun c => is_Some (st2 !! c)) (children pd1)).
  { apply (insert_keeps_exist st1 p _ _ _ Hp1). exact Hex1. }
  unfold delete. rewrite (bind_get_node _ _ _ _ Hx2), Hpar.
  destruct (delete_child_result st2 p x pd1 Hp2 Hex2)
    as (pd' & Hdel & Hch & _ & _ & _ & Hidx & _).
  exists (<[p := pd']> st2), pd'.
  split; [assumption|].
  split; [apply list_lookup_insert_eq; eapply lookup_Some_lt; eauto|].
  assert (Hkept : children pd' = children_without (children pd) x).
  { rewrite Hch. cbn [children pd1 with_children_dict append_child
                      with_children].
    unfold children_without. rewrite List.filter_app. cbn [List.filter].
    rewrite Nat.eqb_refl. cbn [negb]. now rewrite app_nil_r. }
  split; [assumption|].
  split.
  { rewrite Hkept. intros H. apply children_without_In in H as [_ H].
    now apply H. }
  split.
  { apply Hidx. cbn [children pd1 with_children_dict append_child
                     with_children].
    apply in_or_app. right. now left. }
  now rewrite list_lookup_insert_ne by congruence.
Qed.

End DeleteMove.

Lemma two_roots_children_ok :
  children_ok two_roots
    (mkNode true 0 "" 0 [1; 2] [("a", 1); ("b", 2)] [] [] false 0%Z []).
Proof. repeat constructor; eexists; (split; [reflexivity|reflexivity]). Qed.

Lemma two_roots_index_agrees :
  index_agrees two_roots
    (mkNode true 0 "" 0 [1; 2] [("a", 1); ("b", 2)] [] [] false 0%Z []).
Proof. index_agrees_by_computation. Qed.

Lemma delete_child_spec_witness :
  exists st' nd',
    delete_child 0 1 two_roots = Ok tt st' /\
    st' !! 0 = Some nd' /\
    children nd' = children_without [1; 2] 1 /\
    ~ In 1 (children nd') /\
    index_agrees st' nd' /\
    (forall i, i <> 0 -> st' !! i = two_roots !! i) /\
    (~ In 1 [1; 2] -> st' = two_roots).
Proof.
  apply (delete_child_spec two_roots 0 1
           (mkNode true 0 "" 0 [1; 2] [("a", 1); ("b", 2)] [] [] false 0%Z [])).
  - reflexivity.
  - exact two_roots_children_ok.
  - exact two_roots_index_agrees.
Defined.

Lemma set_text_spec_witness :
  exists st' pd',
    set_text 1 " z " two_roots = Ok tt st' /\
    text st' 1 = Some (strip " z ") /\
    st' !! 0 = Some pd' /\
    children pd' = [1; 2] /\
    index_agrees st' pd' /\
    forall i, i <> 0 -> i <> 1 -> st' !! i = two_roots !! i.
Proof.
  apply (set_text_spec two_roots 1 0
           (mkNode false 0 "a" 0 [] [] [] [] false 0%Z [])
           (mkNode true 0 "" 0 [1; 2] [("a", 1); ("b", 2)] [] [] false 0%Z [])
           " z ").
  - reflexivity.
  - reflexivity.
  - lia.
  - reflexivity.
  - exact two_roots_children_ok.
Defined.

Lemma move_spec_witness :
  exists st' pd' qd',
    move 1 3 two_roots = Ok tt st' /\
    st' !! 0 = Some pd' /\ st' !! 3 = Some qd' /\
    children pd' = children_without [1; 2] 1 /\
    children qd' = [] ++ [1] /\
    index_agrees st' pd' /\ index_agrees st' qd' /\
    st' !! 1 = Some (mkNode false 0 "a" 0 [] [] [] [] false 0%Z []) /\
    delete 1 st' = Ok tt st'.
Proof.
  apply (move_spec two_roots 1 0 3
           (mkNode false 0 "a" 0 [] [] [] [] false 0%Z [])
           (mkNode true 0 "" 0 [1; 2] [("a", 1); ("b", 2)] [] [] false 0%Z [])
           (mkNode true 0 "" 3 [] [] [] [] false 0%Z [])).
  - reflexivity.
  - reflexivity.
  - reflexivity.
  - reflexivity.
  - reflexivity.
  - lia.
  - lia.
  - lia.
  - exact two_roots_children_ok.
  - constructor.
  - now left.
Defined.

Lemma move_to_own_parent_removes_witness :
  exists st' pd',
    move 1 0 two_roots = Ok tt st' /\
    st' !! 0 = Some pd' /\
    children pd' = children_without [1; 2] 1 /\
    ~ In 1 (children pd') /\
    index_agrees st' pd' /\
    st' !! 1 = Some (mkNode false 0 "a" 0 [] [] [] [] false 0%Z []).
Proof.
  apply (move_to_own_parent_removes two_roots 1 0
           (mkNode false 0 "a" 0 [] [] [] [] false 0%Z [])
           (mkNode true 0 "" 0 [1; 2] [("a", 1); ("b", 2)] [] [] false 0%Z [])).
  - reflexivity.
  - reflexivity.
  - lia.
  - reflexivity.
  - exact two_roots_children_ok.
Defined.

(** ** Tag sets: the getter and the three writers *)

Section LeafWriters.

(** [tags_add], [tags_remove] with an iterable and the [tags] setter walk
    the tree in the same way and differ in what they do to a leaf: the walk
    is studied once, for any [op] that unfolds as they do. *)
Variable g : list string -> list string.
Variable op : nat -> ident -> M unit.
Hypothesis op_0 : forall n, op 0 n = abort.
Hypothesis op_S : forall f n,
  op (S f) n =
  (let* nd := get_node n in
   if is_branch nd then for_each (children nd) (op f)
   else update n (fun x => with_tags (g (_tags x)) x))%hc.

Lemma same_shape_refl (st : Store) : same_shape st st.
Proof.
  split; [reflexivity|]. intros i nd Hi. exists (_tags nd).
  now rewrite with_tags_same.
Qed.

Lemma same_shape_sym (st st' : Store) : same_shape st st' -> same_shape st' st.
Proof.
  intros [Hlen H]. split; [now symmetry|]. intros i nd' Hi'.
  destruct (lookup_lt_is_Some_2 st i) as [nd Hi].
  { rewrite <- Hlen. eapply lookup_Some_lt; eauto. }
  destruct (H i nd Hi) as (ts & E). exists (_tags nd).
  rewrite Hi. f_equal.
  assert (nd' = with_tags ts nd) by congruence. subst nd'.
  now rewrite with_tags_with_tags, with_tags_same.
Qed.

Lemma same_shape_leaf_below (st st' : Store) (n l : ident) :
  same_shape st st' -> leaf_below st n l -> leaf_below st' n l.
Proof.
  intros [_ H]. induction 1 as [n nd Hn Hb|n nd c l Hn Hb Hin _ IH].
  - destruct (H n nd Hn) as (ts & Hn').
    eapply leaf_here; [exact Hn'|]. exact Hb.
  - destruct (H n nd Hn) as (ts & Hn').
    eapply leaf_under; [exact Hn'| | |exact IH]; assumption.
Qed.

Lemma same_shape_height (st st' : Store) :
  same_shape st st' ->
  forall h n, height_le st h n -> height_le st' h n.
Proof.
  intros [_ H]. induction h as [|h IH]; intros n; [auto|].
  intros (nd & Hn & Hcs). destruct (H n nd Hn) as (ts & Hn').
  exists (with_tags ts nd). split; [assumption|]. cbn [with_tags children].
  eapply Forall_impl; [exact Hcs | exact IH].
Qed.

Lemma leaves_written_same_shape (n : ident) (st st' : Store) :
  leaves_written g n st st' -> same_shape st st'.
Proof.
  intros [Hlen H]. split; [assumption|]. intros i nd Hi.
  destruct (H i nd Hi) as (k & Hk & _). eauto.
Qed.

Lemma leaf_below_is_leaf (st : Store) (n l : ident) :
  leaf_below st n l ->
  exists nd, st !! l = Some nd /\ is_branch nd = false.
Proof. induction 1; eauto. Qed.

Lemma iter_plus (k1 k2 : nat) (ts : list string) :
  Nat.iter k2 g (Nat.iter k1 g ts) = Nat.iter (k2 + k1) g ts.
Proof.
  induction k2 as [|k2 IH]; [reflexivity|].
  change (g (Nat.iter k2 g (Nat.iter k1 g ts)) = g (Nat.iter (k2 + k1) g ts)).
  now f_equal.
Qed.

(** The loop of a branch over its children. *)
Lemma op_loop (f : nat) :
  (forall n st st', op f n st = Ok tt st' -> leaves_written g n st st') ->
  forall cs st0 st1,
    for_each cs (op f) st0 = Ok tt st1 ->
    length st1 = length st0 /\
    forall i nd, st0 !! i = Some nd ->
      exists k,
        st1 !! i = Some (with_tags (Nat.iter k g (_tags nd)) nd) /\
        ((exists c, In c cs /\ leaf_below st0 c i) -> 1 <= k) /\
        (~ (exists c, In c cs /\ leaf_below st0 c i) -> k = 0).
Proof.
  intros IH. induction cs as [|c cs IHcs]; intros st0 st1; cbn [for_each].
  - intros [= <-]. split; [reflexivity|]. intros i nd Hi. exists 0.
    cbn. rewrite with_tags_same.
    split; [assumption|]. split; [|reflexivity].
    intros (c & [] & _).
  - unfold bind.
    destruct (op f c st0) as [[] st2|e st2|st2] eqn:Hc; try discriminate.
    intros Hrest.
    pose proof (IH _ _ _ Hc) as Hw.
    pose proof (leaves_written_same_shape _ _ _ Hw) as Hsh.
    destruct Hw as [Hlen1 H1].
    destruct (IHcs _ _ Hrest) as [Hlen2 H2].
    split; [congruence|]. intros i nd Hi.
    destruct (H1 i nd Hi) as (k1 & Hi2 & Hge1 & Hz1).
    destruct (H2 i _ Hi2) as (k2 & Hi1 & Hge2 & Hz2).
    exists (k2 + k1).
    cbn [_tags with_tags] in Hi1. rewrite iter_plus in Hi1.
    rewrite with_tags_with_tags in Hi1.
    split; [assumption|]. split.
    + intros (c' & [<-|Hin] & Hl).
      * specialize (Hge1 Hl). lia.
      * assert (1 <= k2); [|lia]. apply Hge2. exists c'.
        split; [assumption|]. eapply same_shape_leaf_below; eauto.
    + intros Hno.
      assert (k1 = 0).
      { apply Hz1. intros Hl. apply Hno. exists c. split; [now left|exact Hl]. }
      assert (k2 = 0); [|lia].
      apply Hz2. intros (c' & Hin & Hl). apply Hno. exists c'.
      split; [now right|].
      eapply same_shape_leaf_below; [apply same_shape_sym; exact Hsh|exact Hl].
Qed.

(** What a walk that returns has written. *)
Lemma op_spec (fuel : nat) :
  forall n st st', op fuel n st = Ok tt st' -> leaves_written g n st st'.
Proof.
  induction fuel as [|f IH]; intros n st st'.
  { rewrite op_0. discriminate. }
  rewrite op_S. unfold bind at 1, get_node, read.
  destruct (st !! n) as [nd|] eqn:Hn; [|discriminate].
  destruct (is_branch nd) eqn:Hb.
  - intros Hrun. destruct (op_loop f IH _ _ _ Hrun) as [Hlen H].
    split; [assumption|]. intros i x Hi.
    destruct (H i x Hi) as (k & Hk & Hge & Hz). exists k.
    split; [assumption|]. split.
    + intros Hl. apply Hge.
      inversion Hl as [? y Hy Hby|? y c ? Hy Hby Hin Hcl]; subst.
      * congruence.
      * assert (y = nd) by congruence. subst y. eauto.
    + intros Hl. apply Hz. intros (c & Hin & Hc). apply Hl.
      eapply leaf_under; eauto.
  - unfold update. rewrite Hn. intros [= <-].
    split; [apply length_insert|]. intros i x Hi.
    destruct (decide (i = n)) as [->|Hne].
    + exists 1. rewrite list_lookup_insert_eq by (eapply lookup_Some_lt; eauto).
      assert (x = nd) by congruence. subst x.
      split; [reflexivity|]. split; [lia|].
      intros Hl. exfalso. apply Hl. eapply leaf_here; eauto.
    + exists 0. rewrite list_lookup_insert_ne by congruence.
      cbn. rewrite with_tags_same. split; [assumption|].
      split; [|reflexivity].
      intros Hl. exfalso. apply Hne.
      eapply leaf_below_leaf; eauto.
Qed.

(** A budget that covers the depth of the tree lets the walk return. *)
Lemma op_total :
  forall h fuel n st, height_le st h n -> h <= fuel ->
  exists st', op fuel n st = Ok tt st'.
Proof.
  induction h as [|h IH]; intros fuel n st Hh Hle; [destruct Hh|].
  destruct fuel as [|f]; [lia|].
  destruct Hh as (nd & Hn & Hcs).
  rewrite op_S. unfold bind at 1, get_node, read. rewrite Hn.
  destruct (is_branch nd).
  - clear Hn. revert st Hcs.
    induction (children nd) as [|c cs IHcs]; intros st Hcs; cbn [for_each].
    + eexists. reflexivity.
    + inversion Hcs as [|? ? Hc Hcs']; subst.
      destruct (IH f c st Hc) as [st1 Hst1]; [lia|].
      unfold bind. rewrite Hst1.
      apply IHcs.
      eapply Forall_impl; [exact Hcs'|]. intros c' Hc'.
      eapply same_shape_height; [|exact Hc'].
      eapply leaves_written_same_shape. eapply op_spec. exact Hst1.
  - unfold update. rewrite Hn. eexists. reflexivity.
Qed.

End LeafWriters.

Section TagWriters.

Lemma tags_add_written (tag : tag_arg) (fuel : nat) (n : ident)
    (st st' : Store) :
  tags_add fuel n tag st = Ok tt st' ->
  leaves_written (tags_add_at tag) n st st'.
Proof.
  apply (op_spec (tags_add_at tag) (fun f n => tags_add f n tag)).
  - reflexivity.
  - intros f m. destruct tag; reflexivity.
Qed.

Lemma tags_remove_written (l : list string) (fuel : nat) (n : ident)
    (st st' : Store) :
  tags_remove fuel n (TagIter l) st = Ok tt st' ->
  leaves_written (tags_remove_at l) n st st'.
Proof.
  apply (op_spec (tags_remove_at l) (fun f n => tags_remove f n (TagIter l)));
    reflexivity.
Qed.

Lemma tags_remove_total (l : list string) :
  forall h fuel n st, height_le st h n -> h <= fuel ->
  exists st', tags_remove fuel n (TagIter l) st = Ok tt st'.
Proof.
  apply (op_total (tags_remove_at l) (fun f n => tags_remove f n (TagIter l)));
    reflexivity.
Qed.

Lemma set_tags_written (v : list string) (fuel : nat) (n : ident)
    (st st' : Store) :
  set_tags fuel n v st = Ok tt st' ->
  leaves_written (set_tags_at v) n st st'.
Proof.
  apply (op_spec (set_tags_at v) (fun f n => set_tags f n v)); reflexivity.
Qed.

Lemma set_tags_total (v : list string) :
  forall h fuel n st, height_le st h n -> h <= fuel ->
  exists st', set_tags fuel n v st = Ok tt st'.
Proof.
  apply (op_total (set_tags_at v) (fun f n => set_tags f n v)); reflexivity.
Qed.

Lemma set_difference_In (s xs : list string) (x : string) :
  In x (set_difference s xs) <-> In x s /\ ~ In x xs.
Proof.
  unfold set_difference. rewrite List.filter_In.
  destruct (set_mem x xs) eqn:Hm; cbn [negb].
  - apply set_mem_In in Hm. intuition discriminate.
  - assert (~ In x xs).
    { intros H. apply set_mem_In in H. congruence. }
    intuition.
Qed.

Lemma tags_add_at_iter (tag : tag_arg) (k : nat) (ts : list string)
    (x : string) :
  1 <= k ->
  In x (Nat.iter k (tags_add_at tag) ts) <->
  In x ts \/ In x (tag_members tag).
Proof.
  assert (Hone : forall s, In x (tags_add_at tag s) <->
                           In x s \/ In x (tag_members tag)).
  { intros s. destruct tag as [y|l]; cbn [tags_add_at tag_members].
    - rewrite set_add_In. cbn [In]. intuition.
    - apply set_update_In. }
  induction k as [|k IH]; [lia|]. intros _.
  change (In x (tags_add_at tag (Nat.iter k (tags_add_at tag) ts)) <->
          In x ts \/ In x (tag_members tag)).
  rewrite Hone. destruct k as [|k]; [reflexivity|].
  rewrite IH by lia. intuition.
Qed.

Lemma tags_remove_at_iter (l : list string) (k : nat) (ts : list string)
    (x : string) :
  1 <= k ->
  In x (Nat.iter k (tags_remove_at l) ts) <-> In x ts /\ ~ In x l.
Proof.
  induction k as [|k IH]; [lia|]. intros _.
  change (In x (set_difference (Nat.iter k (tags_remove_at l) ts) l) <->
          In x ts /\ ~ In x l).
  rewrite set_difference_In. destruct k as [|k]; [reflexivity|].
  rewrite IH by lia. intuition.
Qed.

Lemma set_tags_at_iter (v : list string) (k : nat) (ts : list string)
    (x : string) :
  1 <= k ->
  In x (Nat.iter k (set_tags_at v) ts) <-> In x v.
Proof.
  destruct k as [|k]; [lia|]. intros _.
  change (In x (set_update [] v) <-> In x v).
  rewrite set_update_In. cbn [In]. intuition.
Qed.

(** What is outside the leaves below [n] is as it was. *)
Lemma leaves_written_frame (g : list string -> list string) (n : ident)
    (st st' : Store) :
  leaves_written g n st st' ->
  forall i, ~ leaf_below st n i -> st' !! i = st !! i.
Proof.
  intros [Hlen H] i Hi. destruct (st !! i) as [nd|] eqn:Hnd.
  - destruct (H i nd Hnd) as (k & Hk & _ & Hz).
    rewrite (Hz Hi) in Hk. cbn in Hk. now rewrite with_tags_same in Hk.
  - apply lookup_ge_None. rewrite Hlen. now apply lookup_ge_None.
Qed.

(** The getter after a writer. *)
Lemma tags_after_write (g : list string -> list string)
    (Q : list string -> string -> Prop) (n : ident) (st st' : Store)
    (h fuel : nat) :
  (forall k ts x, 1 <= k -> In x (Nat.iter k g ts) <-> Q ts x) ->
  leaves_written g n st st' -> height_le st h n -> h <= fuel ->
  exists ts,
    tags fuel st' n = Some ts /\
    forall x, In x ts <->
      exists l nd, leaf_below st n l /\ st !! l = Some nd /\ Q (_tags nd) x.
Proof.
  intros HQ Hw Hh Hle.
  pose proof (leaves_written_same_shape _ _ _ _ Hw) as Hsh.
  destruct (tags_total st' h fuel n (same_shape_height _ _ Hsh _ _ Hh) Hle)
    as [ts Hts].
  exists ts. split; [assumption|]. intros x.
  rewrite (tags_union_of_leaves fuel st' n ts Hts x).
  destruct Hw as [Hlen H]. split.
  - intros (l & nd' & Hl & Hnd' & Hx).
    assert (Hl0 : leaf_below st n l).
    { eapply same_shape_leaf_below; [apply same_shape_sym; exact Hsh|].
      exact Hl. }
    destruct (leaf_below_is_leaf _ _ _ Hl0) as (nd & Hnd & _).
    destruct (H l nd Hnd) as (k & Hk & Hge & _).
    exists l, nd. split; [assumption|]. split; [assumption|].
    apply (HQ k); [now apply Hge|].
    assert (nd' = with_tags (Nat.iter k g (_tags nd)) nd) by congruence.
    subst nd'. exact Hx.
  - intros (l & nd & Hl & Hnd & Hx).
    destruct (H l nd Hnd) as (k & Hk & Hge & _).
    eexists l, _. split; [eapply same_shape_leaf_below; eauto|].
    split; [exact Hk|]. cbn [_tags with_tags].
    apply (HQ k); [now apply Hge|exact Hx].
Qed.

(** X8: with a budget that covers the depth of the tree the [tags] getter
    returns, and what it returns is the union of the tag sets of the leaves
    at or below the node: the set stored on a branch is not read, and an
    [HConfig] without children has no tags. *)
Theorem tags_reads_the_leaves (st : Store) (h fuel : nat) (n : ident) :
  height_le st h n -> h <= fuel ->
  exists ts,
    tags fuel st n = Some ts /\
    (forall x, In x ts <->
       exists l nd, leaf_below st n l /\ st !! l = Some nd /\
                    In x (_tags nd)) /\
    (forall nd, st !! n = Some nd -> is_branch nd = false ->
       forall x, In x ts <-> In x (_tags nd)) /\
    (forall nd, st !! n = Some nd -> is_branch nd = true ->
       children nd = [] -> ts = []).
Proof.
  intros Hh Hle. destruct (tags_total st h fuel n Hh Hle) as [ts Hts].
  exists ts. split; [assumption|].
  split; [apply (tags_union_of_leaves fuel st n ts Hts)|].
  split.
  - intros nd Hn Hb x.
    destruct fuel as [|f]; [discriminate|].
    cbn [tags] in Hts. rewrite Hn in Hts. cbn in Hts. rewrite Hb in Hts.
    now injection Hts as <-.
  - intros nd Hn Hb Hcs.
    destruct fuel as [|f]; [discriminate|].
    cbn [tags] in Hts. rewrite Hn in Hts. cbn in Hts.
    rewrite Hb, Hcs in Hts. now injection Hts as <-.
Qed.

(** X9: [tags_add] followed by the [tags] getter: with a budget that covers
    the depth of the tree both return, the node then has the tags it had
    and, when there is a leaf at or below it, the added ones; objects that
    are not such leaves are not written. *)
Theorem tags_add_then_tags (tag : tag_arg) (st : Store) (h fuel : nat)
    (n : ident) :
  height_le st h n -> h <= fuel ->
  exists ts0 st' ts,
    tags fuel st n = Some ts0 /\
    tags_add fuel n tag st = Ok tt st' /\
    tags fuel st' n = Some ts /\
    (forall x, In x ts <->
       In x ts0 \/ (In x (tag_members tag) /\ exists l, leaf_below st n l)) /\
    (forall i, ~ leaf_below st n i -> st' !! i = st !! i).
Proof.
  intros Hh Hle.
  destruct (tags_total st h fuel n Hh Hle) as [ts0 Hts0].
  destruct (tags_add_total tag h fuel n st Hh Hle) as [st' Hrun].
  pose proof (tags_add_written _ _ _ _ _ Hrun) as Hw.
  destruct (tags_after_write _ (fun s x => In x s \/ In x (tag_members tag))
              n st st' h fuel (tags_add_at_iter tag) Hw Hh Hle)
    as (ts & Hts & Hin).
  exists ts0, st', ts. split; [assumption|]. split; [assumption|].
  split; [assumption|]. split; [|eapply leaves_written_frame; eauto].
  intros x. rewrite Hin.
  rewrite (tags_union_of_leaves fuel st n ts0 Hts0 x). split.
  - intros (l & nd & Hl & Hnd & [Hx|Hx]); eauto 10.
  - intros [(l & nd & Hl & Hnd & Hx)|[Hx (l & Hl)]]; [eauto 10|].
    destruct (leaf_below_is_leaf _ _ _ Hl) as (nd & Hnd & _). eauto 10.
Qed.

(** X10: [tags_remove] with a collection of tags that can be read more than
    once (a list, a tuple, a set, a frozenset), followed by the [tags]
    getter: with a budget that covers the depth of the tree both return, no
    exception is raised whether the tags are present or not, and the node
    then has the tags it had less the removed ones. *)
Theorem tags_remove_iterable_then_tags (l : list string) (st : Store)
    (h fuel : nat) (n : ident) :
  height_le st h n -> h <= fuel ->
  exists ts0 st' ts,
    tags fuel st n = Some ts0 /\
    tags_remove fuel n (TagIter l) st = Ok tt st' /\
    tags fuel st' n = Some ts /\
    (forall x, In x ts <-> In x ts0 /\ ~ In x l) /\
    (forall i, ~ leaf_below st n i -> st' !! i = st !! i).
Proof.
  intros Hh Hle.
  destruct (tags_total st h fuel n Hh Hle) as [ts0 Hts0].
  destruct (tags_remove_total l h fuel n st Hh Hle) as [st' Hrun].
  pose proof (tags_remove_written _ _ _ _ _ Hrun) as Hw.
  destruct (tags_after_write _ (fun s x => In x s /\ ~ In x l)
              n st st' h fuel (tags_remove_at_iter l) Hw Hh Hle)
    as (ts & Hts & Hin).
  exists ts0, st', ts. split; [assumption|]. split; [assumption|].
  split; [assumption|]. split; [|eapply leaves_written_frame; eauto].
  intros x. rewrite Hin.
  rewrite (tags_union_of_leaves fuel st n ts0 Hts0 x). split.
  - intros (y & nd & Hl & Hnd & Hx & Hno); eauto 10.
  - intros [(y & nd & Hl & Hnd & Hx) Hno]. eauto 10.
Qed.

(** X11: the [tags] setter, given a collection of tags that can be read
    more than once (a list, a tuple, a set, a frozenset), followed by the
    getter: with a budget that covers the depth of the tree both return;
    every leaf at or below the node then carries exactly the assigned tags,
    and the node reads them back when there is such a leaf.  An [HConfig]
    without children reads back the empty set. *)
Theorem set_tags_then_tags (v : list string) (st : Store) (h fuel : nat)
    (n : ident) :
  height_le st h n -> h <= fuel ->
  exists st' ts,
    set_tags fuel n v st = Ok tt st' /\
    tags fuel st' n = Some ts /\
    (forall x, In x ts <-> In x v /\ exists l, leaf_below st n l) /\
    (forall l nd', leaf_below st n l -> st' !! l = Some nd' ->
       forall x, In x (_tags nd') <-> In x v) /\
    (forall i, ~ leaf_below st n i -> st' !! i = st !! i).
Proof.
  intros Hh Hle.
  destruct (set_tags_total v h fuel n st Hh Hle) as [st' Hrun].
  pose proof (set_tags_written _ _ _ _ _ Hrun) as Hw.
  destruct (tags_after_write _ (fun _ x => In x v)
              n st st' h fuel (set_tags_at_iter v) Hw Hh Hle)
    as (ts & Hts & Hin).
  exists st', ts. split; [assumption|]. split; [assumption|].
  split; [|split; [|eapply leaves_written_frame; eauto]].
  - intros x. rewrite Hin. split.
    + intros (l & nd & Hl & Hnd & Hx). eauto.
    + intros [Hx (l & Hl)].
      destruct (leaf_below_is_leaf _ _ _ Hl) as (nd & Hnd & _). eauto 10.
  - intros l nd' Hl Hnd' x.
    destruct (leaf_below_is_leaf _ _ _ Hl) as (nd & Hnd & _).
    destruct Hw as [_ H]. destruct (H l nd Hnd) as (k & Hk & Hge & _).
    assert (nd' = with_tags (Nat.iter k (set_tags_at v) (_tags nd)) nd)
      by congruence.
    subst nd'. cbn [_tags with_tags].
    apply set_tags_at_iter. now apply Hge.
Qed.

End TagWriters.

Lemma tagged_store_height : height_le tagged_store 2 1.
Proof.
  cbn. eexists. split; [reflexivity|].
  repeat constructor; (eexists; split; [reflexivity|constructor]).
Qed.

Lemma tags_reads_the_leaves_witness :
  exists ts,
    tags 2 tagged_store 1 = Some ts /\
    (forall x, In x ts <->
       exists l nd, leaf_below tagged_store 1 l /\
                    tagged_store !! l = Some nd /\ In x (_tags nd)) /\
    (forall nd, tagged_store !! 1 = Some nd -> is_branch nd = false ->
       forall x, In x ts <-> In x (_tags nd)) /\
    (forall nd, tagged_store !! 1 = Some nd -> is_branch nd = true ->
       children nd = [] -> ts = []).
Proof.
  apply (tags_reads_the_leaves tagged_store 2 2 1).
  - exact tagged_store_height.
  - lia.
Defined.

Lemma tags_add_then_tags_witness :
  exists ts0 st' ts,
    tags 2 tagged_store 1 = Some ts0 /\
    tags_add 2 1 (TagStr "u") tagged_store = Ok tt st' /\
    tags 2 st' 1 = Some ts /\
    (forall x, In x ts <->
       In x ts0 \/ (In x ["u"] /\ exists l, leaf_below tagged_store 1 l)) /\
    (forall i, ~ leaf_below tagged_store 1 i -> st' !! i = tagged_store !! i).
Proof.
  apply (tags_add_then_tags (TagStr "u") tagged_store 2 2 1).
  - exact tagged_store_height.
  - lia.
Defined.

Lemma tags_remove_iterable_then_tags_witness :
  exists ts0 st' ts,
    tags 2 tagged_store 1 = Some ts0 /\
    tags_remove 2 1 (TagIter ["t"; "v"]) tagged_store = Ok tt st' /\
    tags 2 st' 1 = Some ts /\
    (forall x, In x ts <-> In x ts0 /\ ~ In x ["t"; "v"]) /\
    (forall i, ~ leaf_below tagged_store 1 i -> st' !! i = tagged_store !! i).
Proof.
  apply (tags_remove_iterable_then_tags ["t"; "v"] tagged_store 2 2 1).
  - exact tagged_store_height.
  - lia.
Defined.

Lemma set_tags_then_tags_witness :
  exists st' ts,
    set_tags 2 1 ["w"] tagged_store = Ok tt st' /\
    tags 2 st' 1 = Some ts /\
    (forall x, In x ts <->
       In x ["w"] /\ exists l, leaf_below tagged_store 1 l) /\
    (forall l nd', leaf_below tagged_store 1 l -> st' !! l = Some nd' ->
       forall x, In x (_tags nd') <-> In x ["w"]) /\
    (forall i, ~ leaf_below tagged_store 1 i -> st' !! i = tagged_store !! i).
Proof.
  apply (set_tags_then_tags ["w"] tagged_store 2 2 1).
  - exact tagged_store_height.
  - lia.
Defined.

(** ** Searching the children *)

Section Search.
Context {P : Platform}.

Lemma scan_all (st : Store) (cs : list ident) (r : MatchRule) :
  Forall (fun c => is_Some (st !! c)) cs ->
  scan st cs r = (children_matching st cs r, GenDone).
Proof.
  induction 1 as [|c cs [x Hc] _ IH]; [reflexivity|].
  cbn [scan children_matching List.filter].
  rewrite (matches_defined st c x _ Hc), IH, Hc.
  reflexivity.
Qed.

(** X12: a search by a rule without [re_search], whose [equals] is no plain
    [set], and that is neither a string [equals] alone nor a [startswith]
    alone, runs to its end and yields the children whose text satisfies the
    rule, all of them, once each and in list order; the index is not
    consulted. *)
Theorem get_children_scans_every_child (fuel : nat) (st : Store) (p : ident)
    (nd : HConfigNode) (r : MatchRule) :
  st !! p = Some nd ->
  Forall (fun c => is_Some (st !! c)) (children nd) ->
  takes_fast_path r = false ->
  re_search r = None -> equals_is_plain_set r = false ->
  get_children fuel st p r = (children_matching st (children nd) r, GenDone) /\
  (forall c, In c (children_matching st (children nd) r) <->
     In c (children nd) /\
     exists x, st !! c = Some x /\ satisfies re_span (_text x) r) /\
  get_child fuel p r st =
    Ok (head (children_matching st (children nd) r)) st.
Proof.
  intros Hp Hex Hfast _ Hplain.
  assert (Hrun : get_children fuel st p r
                 = (children_matching st (children nd) r, GenDone)).
  { rewrite (get_children_general fuel st p nd r Hp Hfast).
    now apply scan_all. }
  split; [assumption|]. split.
  - intros c. unfold children_matching. rewrite List.filter_In.
    split.
    + intros [Hin Hm]. split; [assumption|].
      destruct (st !! c) as [x|]; [|discriminate].
      exists x. split; [reflexivity|]. now apply matches_text_iff.
    + intros [Hin (x & Hx & Hs)]. split; [assumption|].
      rewrite Hx. now apply matches_text_iff.
  - unfold get_child. rewrite Hrun.
    now destruct (children_matching st (children nd) r).
Qed.

(** X13: where the index agrees with the child list, a search by a string
    [equals] yields the children bearing that text, all of them and in list
    order, and [get_child] returns the earliest of them, or [None]. *)
Theorem get_children_equals_finds_all (fuel : nat) (st : Store) (p : ident)
    (nd : HConfigNode) (s : string) :
  st !! p = Some nd -> children_ok st nd -> index_agrees st nd ->
  get_children (S fuel) st p (rule_equals s)
    = (children_with_text st (children nd) s, GenDone) /\
  get_child (S fuel) p (rule_equals s) st
    = Ok (first_with_text st (children nd) s) st /\
  (forall c, In c (children_with_text st (children nd) s) <->
     In c (children nd) /\ text st c = Some s).
Proof.
  intros Hp Hok Hidx.
  assert (Hrun : get_children (S fuel) st p (rule_equals s)
                 = (children_with_text st (children nd) s, GenDone)).
  { rewrite (get_children_equals_scan fuel st p nd s Hp Hok Hidx).
    apply scan_equals. now apply children_ok_exist. }
  split; [assumption|]. split.
  - rewrite (get_child_equals (S fuel) st p nd s Hp). now rewrite (Hidx s).
  - intros c. unfold children_with_text, text. rewrite List.filter_In.
    split.
    + intros [Hin Hm]. split; [assumption|].
      destruct (st !! c) as [x|]; [|discriminate].
      apply String.eqb_eq in Hm. cbn. now f_equal.
    + intros [Hin Ht]. split; [assumption|].
      destruct (st !! c) as [x|]; [|discriminate].
      cbn in Ht. injection Ht as ->. apply String.eqb_refl.
Qed.

End Search.

Lemma get_children_scans_every_child_witness :
  let r := mkMatchRule None None (Some (AffixStr "b")) None None in
  get_children (P:=generic_platform) 0 two_roots 0 r
    = (children_matching (P:=generic_platform) two_roots [1; 2] r, GenDone) /\
  (forall c, In c (children_matching (P:=generic_platform) two_roots [1; 2] r)
     <-> In c [1; 2] /\
         exists x, two_roots !! c = Some x /\
                   satisfies literal_engine (_text x) r) /\
  get_child (P:=generic_platform) 0 0 r two_roots =
    Ok (head (children_matching (P:=generic_platform) two_roots [1; 2] r))
       two_roots.
Proof.
  apply (get_children_scans_every_child (P:=generic_platform) 0 two_roots 0
           (mkNode true 0 "" 0 [1; 2] [("a", 1); ("b", 2)] [] [] false 0%Z [])
           (mkMatchRule None None (Some (AffixStr "b")) None None)).
  - reflexivity.
  - repeat constructor; eexists; reflexivity.
  - reflexivity.
  - reflexivity.
  - reflexivity.
Defined.

Lemma get_children_equals_finds_all_witness :
  get_children (P:=generic_platform) 1 two_roots 0 (rule_equals "b")
    = (children_with_text two_roots [1; 2] "b", GenDone) /\
  get_child (P:=generic_platform) 1 0 (rule_equals "b") two_roots
    = Ok (first_with_text two_roots [1; 2] "b") two_roots /\
  (forall c, In c (children_with_text two_roots [1; 2] "b") <->
     In c [1; 2] /\ text two_roots c = Some "b").
Proof.
  apply (get_children_equals_finds_all (P:=generic_platform) 0 two_roots 0
           (mkNode true 0 "" 0 [1; 2] [("a", 1); ("b", 2)] [] [] false 0%Z [])
           "b").
  - reflexivity.
  - exact two_roots_children_ok.
  - exact two_roots_index_agrees.
Defined.

(** ** [expand_range]: when it returns *)

Lemma split_on_single (sep : ascii) (s w : string) :
  split_on sep s = [w] -> w = s.
Proof.
  revert w. induction s as [|c r IH]; intros w; cbn [split_on].
  - now intros [= <-].
  - destruct (Ascii.eqb c sep).
    + intros [= _ H]. destruct r; cbn [split_on] in H; [discriminate|].
      destruct (Ascii.eqb _ sep); [discriminate|].
      destruct (split_on sep r); discriminate.
    + destruct (split_on sep r) as [|v vs] eqn:Hs.
      * destruct r; cbn [split_on] in Hs; [discriminate|].
        destruct (Ascii.eqb _ sep); [discriminate|].
        destruct (split_on sep r); discriminate.
      * intros [= <- ->]. f_equal. now apply IH.
Qed.

Lemma split_on_length_one (sep : ascii) (s : string) :
  length (split_on sep s) = 1 <-> split_on sep s = [s].
Proof.
  split.
  - destruct (split_on sep s) as [|w [|v ws]] eqn:Hs; try discriminate.
    intros _. f_equal. now apply split_on_single in Hs.
  - now intros ->.
Qed.

Lemma nodup_length_le (l : list Z) :
  length (nodup Z.eq_dec l) <= length l.
Proof.
  induction l as [|a l IH]; cbn [nodup length]; [lia|].
  destruct (in_dec Z.eq_dec a l); cbn [length]; lia.
Qed.

Lemma nodup_same_length (l : list Z) :
  length (nodup Z.eq_dec l) = length l <-> List.NoDup l.
Proof.
  split.
  - induction l as [|a l IH]; [intros _; apply List.NoDup_nil|].
    cbn [nodup length]. pose proof (nodup_length_le l) as Hle.
    destruct (in_dec Z.eq_dec a l) as [Hin|Hout]; cbn [length]; [lia|].
    intros Hlen. apply List.NoDup_cons; [assumption|]. apply IH. lia.
  - intros H. now rewrite (nodup_fixed_point Z.eq_dec H).
Qed.

Section ExpandRange.
Variable int : string -> exn + Z.

(** One turn of the loop returns for a component without a dash that [int]
    accepts, and for no other. *)
Lemma expand_range_step_returns (numbers : list Z) (c : string)
    (l : list Z) :
  expand_range_step_with int numbers c = inr l <->
  split_on "-"%char c = [c] /\ exists z, int c = inr z /\ l = numbers ++ [z].
Proof.
  split.
  - intros Hrun. unfold expand_range_step_with in Hrun.
    destruct (Nat.eqb_spec (length (split_on "-"%char c)) 1) as [Hone|Hne].
    + apply split_on_length_one in Hone. split; [assumption|].
      rewrite Hone in Hrun. cbn [length Nat.eqb nth] in Hrun.
      destruct (int c) as [e|z]; [discriminate|].
      injection Hrun as <-. eauto.
    + destruct (length (split_on "-"%char c) =? 2); [|discriminate].
      destruct (int (nth 0 _ _)); [discriminate|].
      destruct (int (nth 1 _ _)); discriminate.
  - intros [Hone (z & Hz & ->)]. unfold expand_range_step_with. rewrite Hone.
    cbn [length Nat.eqb nth]. now rewrite Hz.
Qed.

Lemma expand_range_loop_returns (parts : list string) :
  forall numbers l,
  expand_range_loop_with int numbers parts = inr l <->
  exists zs, l = numbers ++ zs /\
    Forall2 (fun c z => split_on "-"%char c = [c] /\ int c = inr z)
            parts zs.
Proof.
  induction parts as [|c parts IH]; intros numbers l;
    cbn [expand_range_loop_with].
  - split.
    + intros [= <-]. exists []. split; [now rewrite app_nil_r|constructor].
    + intros (zs & -> & H). inversion H. now rewrite app_nil_r.
  - split.
    + destruct (expand_range_step_with int numbers c) as [e|numbers1]
        eqn:Hstep; [discriminate|].
      apply expand_range_step_returns in Hstep as [Hone (z & Hz & ->)].
      intros Hrest. apply IH in Hrest as (zs & -> & Hzs).
      exists (z :: zs). split; [now rewrite <- app_assoc|].
      constructor; auto.
    + intros (zs & -> & H).
      inversion H as [|? z ? zs' [Hone Hz] Hrest]; subst.
      rewrite (proj2 (expand_range_step_returns numbers c (numbers ++ [z])))
        by eauto.
      apply IH. exists zs'. split; [now rewrite <- app_assoc|assumption].
Qed.

Hypothesis int_error : forall c e, int c = inl e -> e = ValueError.

Lemma expand_range_step_error (numbers : list Z) (c : string) (e : exn) :
  expand_range_step_with int numbers c = inl e -> e = ValueError.
Proof.
  unfold expand_range_step_with.
  destruct (Nat.eqb_spec (length (split_on "-"%char c)) 2) as [H2|H2].
  - destruct (int (nth 0 _ _)) as [e0|a] eqn:Ha.
    { intros [= <-]. eapply int_error; eauto. }
    destruct (int (nth 1 _ _)) as [e1|b] eqn:Hb.
    { intros [= <-]. eapply int_error; eauto. }
    destruct (Nat.eqb_spec (length (split_on "-"%char c)) 1) as [H1|H1];
      [lia|now intros [= <-]].
  - destruct (length (split_on "-"%char c) =? 1); [|now intros [= <-]].
    destruct (int (nth 0 _ _)) as [e0|a] eqn:Ha; [|discriminate].
    intros [= <-]. eapply int_error; eauto.
Qed.

Lemma expand_range_loop_error (parts : list string) :
  forall numbers e,
    expand_range_loop_with int numbers parts = inl e -> e = ValueError.
Proof.
  induction parts as [|c parts IH]; intros numbers e;
    cbn [expand_range_loop_with]; [discriminate|].
  destruct (expand_range_step_with int numbers c) as [e0|numbers1] eqn:Hstep.
  - intros [= <-]. eapply expand_range_step_error; eauto.
  - apply IH.
Qed.

End ExpandRange.

(** X14: whatever [int] accepts, provided that it fails with [ValueError]
    only: [expand_range] returns exactly when every component between the
    commas is free of dashes and is accepted by [int], and no integer comes
    twice; it then returns these integers in their order.  A component with
    a dash is never expanded, and every failure is a [ValueError]. *)
Theorem expand_range_returns_iff (int : string -> exn + Z) (s : string)
    (l : list Z) :
  (forall c e, int c = inl e -> e = ValueError) ->
  (expand_range_with int s = inr l <->
     Forall2 (fun c z => split_on "-"%char c = [c] /\ int c = inr z)
             (split_on ","%char s) l /\
     List.NoDup l) /\
  (forall e, expand_range_with int s = inl e -> e = ValueError).
Proof.
  intros Hint. split; [split|].
  - unfold expand_range_with.
    destruct (expand_range_loop_with int [] (split_on ","%char s))
      as [e|numbers] eqn:Hloop; [discriminate|].
    destruct (Nat.eqb_spec (length (nodup Z.eq_dec numbers)) (length numbers))
      as [Hlen|Hlen]; cbn [negb]; [|discriminate].
    intros [= <-].
    apply expand_range_loop_returns in Hloop as (zs & -> & Hzs).
    split; [exact Hzs|]. now apply nodup_same_length.
  - intros [Hzs Hnd]. unfold expand_range_with.
    rewrite (proj2 (expand_range_loop_returns int _ [] l)) by eauto.
    apply nodup_same_length in Hnd. rewrite Hnd, Nat.eqb_refl. reflexivity.
  - intros e. unfold expand_range_with.
    destruct (expand_range_loop_with int [] (split_on ","%char s))
      as [e0|numbers] eqn:Hloop.
    + intros [= <-]. eapply expand_range_loop_error; eauto.
    + destruct (negb _); [now intros [= <-]|discriminate].
Qed.

(** With the [int] of the embedding, on ["8,9"] and on ["8,8"]. *)
Lemma expand_range_returns_iff_witness :
  ((expand_range "8,9" = inr [8%Z; 9%Z] <->
      Forall2 (fun c z => split_on "-"%char c = [c] /\ py_int c = inr z)
              (split_on ","%char "8,9") [8%Z; 9%Z] /\
      List.NoDup [8%Z; 9%Z]) /\
   (forall e, expand_range "8,9" = inl e -> e = ValueError)) /\
  expand_range "8,9" = inr [8%Z; 9%Z] /\
  expand_range "8,8" = inl ValueError.
Proof.
  split.
  - exact (expand_range_returns_iff py_int "8,9" [8%Z; 9%Z] py_int_error).
  - split; vm_compute; reflexivity.
Defined.

(** ** [depth], [lineage] and [path] *)

Section Depth.

Lemma depth_from_lineage (st : Store) (fuel : nat) :
  forall n l, lineage_from fuel st n = Some l ->
  depth_from fuel st n = Some (length l).
Proof.
  induction fuel as [|f IH]; intros n l; [discriminate|].
  cbn [lineage_from depth_from].
  destruct (st !! n) as [nd|]; [|discriminate]. cbn.
  destruct (is_root nd); [now intros [= <-]|].
  destruct (lineage_from f st (parent nd)) as [l0|] eqn:Hl; [|discriminate].
  cbn. intros [= <-]. rewrite (IH _ _ Hl). cbn.
  rewrite length_app. reflexivity.
Qed.

Lemma texts_of_total (st : Store) (l : list ident) :
  Forall (fun c => is_Some (st !! c)) l ->
  exists ts, texts_of st l = Some ts /\
    Forall2 (fun c t => text st c = Some t) l ts.
Proof.
  induction 1 as [|c l [x Hx] _ (ts & Hts & Hall)].
  - exists []. split; [reflexivity|constructor].
  - exists (_text x :: ts). cbn [texts_of]. unfold text at 1. rewrite Hx, Hts.
    split; [reflexivity|]. constructor; [|assumption].
    unfold text. now rewrite Hx.
Qed.

(** X15: in a store where every child is younger than its parent, [depth],
    [lineage] and [path] return for every object; the depth is the number of
    objects in the lineage, the path holds their texts in the same order,
    the object itself comes last in its lineage, and a lineage test with
    another number of rules than the depth fails. *)
Theorem depth_is_length_of_lineage (P : Platform) (st : Store) (n : ident) :
  parents_older st -> n < length st ->
  exists l ts,
    lineage st n = Some l /\
    depth st n = Some (length l) /\
    path st n = Some ts /\
    Forall2 (fun c t => text st c = Some t) l ts /\
    (forall nd, st !! n = Some nd -> is_root nd = true -> l = []) /\
    (forall nd, st !! n = Some nd -> is_root nd = false ->
       exists l0, lineage st (parent nd) = Some l0 /\ l = l0 ++ [n]) /\
    (forall rules, length rules <> length l ->
       lineage_test st n rules = Some false).
Proof.
  intros Hold Hn.
  destruct (lineage_from_total st Hold (length st) n Hn Hn) as [l Hl].
  pose proof (lineage_from_chain _ _ _ _ Hl) as Hchain.
  fold (lineage st n) in Hl.
  destruct (texts_of_total st l (chain_nodes_exist _ _ _ Hchain))
    as (ts & Hts & Hall).
  exists l, ts. split; [assumption|].
  split; [now apply depth_from_lineage|].
  split; [unfold path; now rewrite Hl|].
  split; [assumption|].
  split; [|split].
  - intros nd Hnd Hr. unfold lineage in Hl.
    destruct (length st) as [|f]; [lia|]. cbn [lineage_from] in Hl.
    rewrite Hnd in Hl. cbn in Hl. rewrite Hr in Hl. now injection Hl as <-.
  - intros nd Hnd Hr.
    assert (Hp : parent nd < length st).
    { pose proof (Hold n nd Hnd Hr). lia. }
    destruct (lineage_from_total st Hold (length st) (parent nd) Hp Hp)
      as [l0 Hl0].
    exists l0. split; [assumption|].
    inversion Hchain as [? x Hx Hrx|? x l1 Hx Hrx Hup]; subst.
    + congruence.
    + assert (x = nd) by congruence. subst x.
      apply lineage_from_chain in Hl0.
      f_equal. clear - Hup Hl0.
      revert l0 Hl0. induction Hup as [m md Hm Hmr|m md k Hm Hmr Hup IH];
        intros l0 Hl0.
      * inversion Hl0 as [|? y l2 Hy Hry]; subst; [reflexivity|congruence].
      * inversion Hl0 as [? y Hy Hry|? y l2 Hy Hry Hup']; subst; [congruence|].
        assert (y = md) by congruence. subst y. f_equal. now apply IH.
  - intros rules Hlen.
    unfold lineage_test. rewrite Hl. cbn.
    destruct (Nat.eqb_spec (length rules) (length l)); [contradiction|].
    reflexivity.
Qed.

End Depth.

Lemma depth_is_length_of_lineage_witness :
  exists l ts,
    lineage vlan_store 2 = Some l /\
    depth vlan_store 2 = Some (length l) /\
    path vlan_store 2 = Some ts /\
    Forall2 (fun c t => text vlan_store c = Some t) l ts /\
    (forall nd, vlan_store !! 2 = Some nd -> is_root nd = true -> l = []) /\
    (forall nd, vlan_store !! 2 = Some nd -> is_root nd = false ->
       exists l0, lineage vlan_store (parent nd) = Some l0 /\ l = l0 ++ [2]) /\
    (forall rules, length rules <> length l ->
       lineage_test (P:=generic_platform) vlan_store 2 rules = Some false).
Proof.
  apply (depth_is_length_of_lineage generic_platform vlan_store 2).
  - exact vlan_store_parents_older.
  - cbn. lia.
Defined.

(** ** Copies of a tree are built apart *)

Section CopiesLocal.
Context {P : Platform} (n0 : nat).

Lemma local_with_tags_rec (tags_wanted : list string) (fuel : nat) :
  forall self new_instance, n0 <= new_instance ->
  local n0 (fun r => r = new_instance)
        (_with_tags fuel self tags_wanted new_instance).
Proof.
  induction fuel as [|f IH]; intros self ni Hni; cbn [_with_tags];
    [apply local_abort|].
  lbind ltac:(apply local_get_node).
  eapply local_bind with (Q := fun _ => True).
  { apply local_for_each. intros child _. lread.
    destruct (set_subset tags_wanted a0); [|now apply local_ret].
    lbind ltac:(now apply local_add_shallow_copy_of).
    lbind ltac:(now apply IH). now apply local_ret. }
  intros _ _. now apply local_ret.
Qed.

End CopiesLocal.

Section CopiesApart.
Context {P : Platform}.

(** X16: [deep_copy] and [with_tags] return a new [HConfig], and every
    object that existed before the call, the copied tree among them, is
    afterwards exactly as it was; this for every way the call ends. *)
Theorem copies_are_built_apart (fuel : nat) (st : Store) (S : ident)
    (tags_wanted : list string) :
  built_apart st (deep_copy fuel S st) /\
  built_apart st (HConfig_with_tags fuel S tags_wanted st).
Proof.
  split.
  - unfold deep_copy.
    apply (built_apart_intro st S
             (fun d => (let* so := get_node S in
                        for_each (children so) (fun child =>
                          let* _ := add_deep_copy_of fuel d child false in
                          ret tt) ;;
                        ret d)%hc)).
    intros _ _.
    lbind ltac:(apply local_get_node).
    eapply local_bind with (Q := fun _ => True).
    { apply local_for_each. intros child _.
      lbind ltac:(now apply local_add_deep_copy_of). now apply local_ret. }
    intros _ _. now apply local_ret.
  - unfold HConfig_with_tags.
    apply (built_apart_intro st S
             (fun d => (let* result := _with_tags fuel S tags_wanted d in
                        let* rd := get_node result in
                        if is_root rd then ret d else raise TypeError)%hc)).
    intros _ _.
    lbind ltac:(now apply local_with_tags_rec).
    lbind ltac:(apply local_get_node).
    destruct (is_root a0); [now apply local_ret|apply local_raise].
Qed.

End CopiesApart.
(** ** [negate], case by case *)

Section NegateCases.
Context {P : Platform}.

(** What the [text] setter leaves behind. *)
Lemma set_text_result (st : Store) (x : ident) (xd pd : HConfigNode)
    (v : string) :
  st !! x = Some xd -> parent xd <> x -> st !! parent xd = Some pd ->
  Forall (fun c => is_Some (st !! c)) (children pd) ->
  exists st' dd,
    set_text x v st = Ok tt st' /\
    same_links st st' /\
    st' !! x = Some (with_text (strip v) xd) /\
    st' !! parent xd = Some (with_children_dict dd pd) /\
    index_agrees st' (with_children_dict dd pd) /\
    forall i, i <> x -> i <> parent xd -> st' !! i = st !! i.
Proof.
  intros Hx Hne Hp Hex. unfold set_text.
  rewrite (bind_update _ _ _ _ _ Hx).
  set (st1 := <[x := with_text (strip v) xd]> st).
  assert (Hx1 : st1 !! x = Some (with_text (strip v) xd)).
  { apply list_lookup_insert_eq. eapply lookup_Some_lt; eauto. }
  assert (Hp1 : st1 !! parent xd = Some pd).
  { unfold st1. now rewrite list_lookup_insert_ne by congruence. }
  rewrite (bind_get_node _ _ _ _ Hx1). cbn [parent with_text].
  destruct (rebuild_children_dict_agrees st1 (parent xd) pd Hp1
              (insert_keeps_exist st x xd _ _ Hx Hex))
    as (dd & Hrun & Hagree).
  exists (<[parent xd := with_children_dict dd pd]> st1), dd.
  split; [assumption|]. split; [|split; [|split; [|split]]].
  - split; [unfold st1; now rewrite !length_insert|].
    intros i nd Hi.
    destruct (decide (i = parent xd)) as [->|Hip].
    + rewrite list_lookup_insert_eq by (eapply lookup_Some_lt; eauto).
      assert (nd = pd) by congruence. subst nd. eauto.
    + rewrite list_lookup_insert_ne by congruence.
      destruct (decide (i = x)) as [->|Hix].
      * rewrite Hx1. assert (nd = xd) by congruence. subst nd. eauto.
      * unfold st1. rewrite list_lookup_insert_ne by congruence. eauto.
  - now rewrite list_lookup_insert_ne by congruence.
  - apply list_lookup_insert_eq. eapply lookup_Some_lt; eauto.
  - exact Hagree.
  - intros i Hix Hip. unfold st1.
    now rewrite !list_lookup_insert_ne by congruence.
Qed.

(** X17: [text_without_negation], [_swap_negation] and [_default] read
    [self._negation_prefix], which no class defines: on every object each of
    them raises [AttributeError], and no object is changed. *)
Theorem negation_helpers_raise (st : Store) (n : ident) (nd : HConfigNode) :
  st !! n = Some nd ->
  text_without_negation n st = Raise AttributeError st /\
  _swap_negation n st = Raise AttributeError st /\
  _default n st = Raise AttributeError st.
Proof.
  intros Hn. split; [|split].
  - exact (text_without_negation_raises _ _ _ Hn).
  - exact (_swap_negation_raises _ _ _ Hn).
  - exact (_default_raises _ _ _ Hn).
Qed.

(** X25: [negate] on a child whose parent and siblings exist.  With a
    replacement text of the driver that is not empty, it returns the child
    itself, whose text is then the replacement text, trimmed; the index of
    the parent agrees with its child list afterwards, and no other object is
    changed.  Without one it raises [AttributeError], in the default case as
    in the toggle, and no object is changed. *)
Theorem negate_cases (st : Store) (x : ident) (xd pd : HConfigNode)
    (d : HConfigDriverBase) (dflt : bool) :
  st !! x = Some xd -> parent xd <> x -> st !! parent xd = Some pd ->
  children_ok st pd ->
  driver st x = Some d ->
  negation_default_when_check st x x = Some dflt ->
  match negation_negate_with_check d st x with
  | Some (String c r) =>
      exists st' pd',
        negate x st = Ok x st' /\
        text st' x = Some (strip (String c r)) /\
        st' !! parent xd = Some pd' /\
        children pd' = children pd /\ index_agrees st' pd' /\
        forall i, i <> x -> i <> parent xd -> st' !! i = st !! i
  | _ => negate x st = Raise AttributeError st
  end.
Proof.
  intros Hx Hne Hp Hok Hd Hdflt.
  pose proof (children_ok_exist _ _ Hok) as Hex.
  destruct (negation_negate_with_check d st x) as [[|c r]|] eqn:Hrepl.
  - apply (negate_without_replacement st x xd d dflt); auto.
  - destruct (set_text_result st x xd pd (String c r) Hx Hne Hp Hex)
      as (st' & dd & Hrun & _ & Hx' & Hp' & Hag & Hfr).
    exists st', (with_children_dict dd pd).
    split.
    { unfold negate. rewrite (bind_read _ _ _ _ Hd).
      erewrite bind_read by reflexivity. rewrite Hrepl.
      now rewrite (bind_ok _ _ _ _ _ Hrun). }
    split; [unfold text; now rewrite Hx'|].
    split; [assumption|]. split; [reflexivity|]. split; assumption.
  - apply (negate_without_replacement st x xd d dflt); auto.
Qed.

End NegateCases.

(** On the line ["shutdown"] of [vlan_store]. *)
Lemma negation_helpers_raise_witness :
  text_without_negation 2 vlan_store = Raise AttributeError vlan_store /\
  _swap_negation 2 vlan_store = Raise AttributeError vlan_store /\
  _default 2 vlan_store = Raise AttributeError vlan_store.
Proof.
  apply (negation_helpers_raise vlan_store 2
           (mkNode false 0 "shutdown" 1 [] [] [] [] false 0%Z [])).
  reflexivity.
Defined.

(** On the line ["shutdown"] of [vlan_store]: without a replacement text,
    and with the replacement text of [replacing_driver]. *)
Lemma negate_cases_witness :
  negate (P:=generic_platform) 2 vlan_store = Raise AttributeError vlan_store /\
  exists st' pd',
    negate (P:=replacing_platform) 2 vlan_store = Ok 2 st' /\
    text st' 2 = Some (strip "undo shutdown") /\
    st' !! 1 = Some pd' /\
    children pd' = [2] /\ index_agrees st' pd' /\
    forall i, i <> 2 -> i <> 1 -> st' !! i = vlan_store !! i.
Proof.
  split.
  - apply (negate_cases (P:=generic_platform) vlan_store 2
             (mkNode false 0 "shutdown" 1 [] [] [] [] false 0%Z [])
             (mkNode false 0 "interface Vlan2" 0 [2] [("shutdown", 2)] [] []
                     false 0%Z [])
             generic_driver false).
    + reflexivity.
    + cbn. lia.
    + reflexivity.
    + repeat constructor. eexists. split; reflexivity.
    + reflexivity.
    + reflexivity.
  - apply (negate_cases (P:=replacing_platform) vlan_store 2
             (mkNode false 0 "shutdown" 1 [] [] [] [] false 0%Z [])
             (mkNode false 0 "interface Vlan2" 0 [2] [("shutdown", 2)] [] []
                     false 0%Z [])
             replacing_driver false).
    + reflexivity.
    + cbn. lia.
    + reflexivity.
    + repeat constructor. eexists. split; reflexivity.
    + reflexivity.
    + reflexivity.
Defined.
(** ** The Junos driver: [swap_negation] *)

Section JunosSwap.

(** X18: [swap_negation] of the Junos driver, on a child whose parent and
    siblings exist.  A line ["set u"] becomes ["delete u"], trimmed, and the
    child itself is returned; on a line ["delete u"] it raises
    [AttributeError], through [text_without_negation], and changes nothing;
    on a line that starts with neither prefix it raises [ValueError]. *)
Theorem junos_swap_negation_cases (st : Store) (x : ident)
    (xd pd : HConfigNode) :
  st !! x = Some xd -> parent xd <> x -> st !! parent xd = Some pd ->
  children_ok st pd ->
  if str_startswith (_text xd) junos_negation_prefix
  then junos_swap_negation x st = Raise AttributeError st
  else if str_startswith (_text xd) junos_declaration_prefix
  then exists st',
         junos_swap_negation x st = Ok x st' /\
         text st' x =
           Some (strip (junos_negation_prefix +:+
                        removeprefix (_text xd) junos_declaration_prefix)) /\
         forall i, i <> x -> i <> parent xd -> st' !! i = st !! i
  else junos_swap_negation x st = Raise ValueError st.
Proof.
  intros Hx Hne Hp Hok.
  pose proof (children_ok_exist _ _ Hok) as Hex.
  assert (Htext : text st x = Some (_text xd)).
  { unfold text. now rewrite Hx. }
  unfold junos_swap_negation. rewrite (bind_read _ _ _ _ Htext).
  destruct (str_startswith (_text xd) junos_negation_prefix).
  { unfold bind. now rewrite (text_without_negation_raises _ _ _ Hx). }
  destruct (str_startswith (_text xd) junos_declaration_prefix);
    [|reflexivity].
  destruct (set_text_result st x xd pd
              (junos_negation_prefix +:+
               removeprefix (_text xd) junos_declaration_prefix)
              Hx Hne Hp Hex)
    as (st' & dd & Hrun & _ & Hx' & _ & _ & Hfr).
  exists st'. rewrite (bind_ok _ _ _ _ _ Hrun).
  split; [reflexivity|]. split; [|assumption].
  unfold text. now rewrite Hx'.
Qed.

End JunosSwap.

(** On the three kinds of lines. *)
Lemma junos_swap_negation_cases_witness :
  (exists st',
     junos_swap_negation 1 (junos_line "set system x") = Ok 1 st' /\
     text st' 1 = Some (strip ("delete " +:+ "system x")) /\
     forall i, i <> 1 -> i <> 0 -> st' !! i = junos_line "set system x" !! i) /\
  junos_swap_negation 1 (junos_line "delete system x")
    = Raise AttributeError (junos_line "delete system x") /\
  junos_swap_negation 1 (junos_line "system x")
    = Raise ValueError (junos_line "system x").
Proof.
  split; [|split].
  - apply (junos_swap_negation_cases (junos_line "set system x") 1
             (mkNode false 0 "set system x" 0 [] [] [] [] false 0%Z [])
             (mkNode true 0 "" 0 [1] [("set system x", 1)] [] [] false 0%Z
                     [])).
    + reflexivity.
    + cbn. lia.
    + reflexivity.
    + repeat constructor. eexists. split; reflexivity.
  - apply (junos_swap_negation_cases (junos_line "delete system x") 1
             (mkNode false 0 "delete system x" 0 [] [] [] [] false 0%Z [])
             (mkNode true 0 "" 0 [1] [("delete system x", 1)] [] [] false 0%Z
                     [])).
    + reflexivity.
    + cbn. lia.
    + reflexivity.
    + repeat constructor. eexists. split; reflexivity.
  - apply (junos_swap_negation_cases (junos_line "system x") 1
             (mkNode false 0 "system x" 0 [] [] [] [] false 0%Z [])
             (mkNode true 0 "" 0 [1] [("system x", 1)] [] [] false 0%Z [])).
    + reflexivity.
    + cbn. lia.
    + reflexivity.
    + repeat constructor. eexists. split; reflexivity.
Defined.

(** ** The difference of a tree with itself *)

Section DifferenceSelf.
Context {P : Platform}.

Lemma root_of_below (b : nat) (st : Store) :
  older_below b st ->
  forall fuel n, n < fuel -> n < b -> is_Some (st !! n) ->
  exists r, root_of fuel st n = Some r /\ is_Some (st !! r).
Proof.
  intros Hold. induction fuel as [|f IH]; intros n Hf Hb [nd Hn]; [lia|].
  cbn [root_of]. rewrite Hn. cbn.
  destruct (is_root nd) eqn:Hr; [eauto|].
  pose proof (Hold n nd Hb Hn Hr) as Hlt.
  apply IH; [lia|lia|].
  apply lookup_lt_is_Some_2.
  pose proof (lookup_Some_lt _ _ _ Hn). lia.
Qed.

Lemma driver_below (b : nat) (st : Store) (n : ident) :
  older_below b st -> n < b -> is_Some (st !! n) ->
  is_Some (driver st n).
Proof.
  intros Hold Hb Hn. unfold driver.
  destruct (root_of_below b st Hold (length st) n) as (r & -> & [rd Hrd]);
    [destruct Hn as [nd Hn]; eapply lookup_Some_lt; eauto|assumption..|].
  cbn. rewrite Hrd. cbn. eauto.
Qed.





End DifferenceSelf.



(** ** Traversals: [all_children] and [all_children_sorted] *)

Section Traversal.

Lemma all_children_fold (f : nat) (st : Store) (cs : list ident) :
  Forall (fun c => exists l, all_children f st c = Some l /\
                   forall x, In x l <-> below st c x) cs ->
  exists l,
    fold_right (fun c rest =>
                  below ← all_children f st c;
                  tl ← rest;
                  Some (c :: below ++ tl))
               (Some []) cs = Some l /\
    forall x, In x l <-> In x cs \/ exists c, In c cs /\ below st c x.
Proof.
  induction 1 as [|c cs (lc & Hlc & Hin) _ (l & Hl & Hall)].
  - exists []. split; [reflexivity|]. intros x. cbn [In].
    split; [tauto|]. intros [[]|(c & [] & _)].
  - exists (c :: lc ++ l). cbn [fold_right]. rewrite Hlc, Hl.
    split; [reflexivity|]. intros x. cbn [In].
    rewrite in_app_iff, Hin, Hall. split.
    + intros [->|[Hb|[Hx|(c' & Hc' & Hb)]]]; eauto 6.
    + intros [[->|Hx]|(c' & [->|Hc'] & Hb)]; eauto 6.
Qed.

(** A budget that covers the depth of the tree lets [all_children] return,
    and what it yields are the objects below the node. *)
Lemma all_children_below (st : Store) :
  forall h fuel n, height_le st h n -> h <= fuel ->
  exists l, all_children fuel st n = Some l /\
    forall x, In x l <-> below st n x.
Proof.
  induction h as [|h IH]; intros fuel n Hh Hle; [destruct Hh|].
  destruct fuel as [|f]; [lia|].
  destruct Hh as (nd & Hn & Hcs). cbn [all_children]. rewrite Hn. cbn.
  destruct (all_children_fold f st (children nd)) as (l & Hl & Hin).
  { eapply Forall_impl; [exact Hcs|]. intros c Hc. apply IH; [assumption|lia]. }
  exists l. split; [assumption|]. intros x. rewrite Hin. split.
  - intros [Hx|(c & Hc & Hb)].
    + eapply below_child; eauto.
    + eapply below_deeper; eauto.
  - intros Hb. inversion Hb as [? y ? Hy Hx|? y m ? Hy Hm Hx]; subst;
      assert (y = nd) by congruence; subst y; eauto.
Qed.

Lemma insert_by_weight_even (x : ident * Z) (l : list (ident * Z)) :
  Forall (fun y => snd y = snd x) l -> insert_by_weight x l = x :: l.
Proof.
  destruct 1 as [|y l Hy _]; [reflexivity|]. cbn [insert_by_weight].
  rewrite Hy. now rewrite Z.ltb_irrefl.
Qed.

(** [sorted] keeps the order of children of equal weight. *)
Lemma sorted_even (st : Store) (w : Z) (l : list ident) :
  Forall (fun c => exists x, st !! c = Some x /\ order_weight x = w) l ->
  sorted st l = Some l.
Proof.
  intros H. unfold sorted.
  assert (Hws : with_weights st l = Some (map (fun c => (c, w)) l)).
  { induction H as [|c l (x & Hx & Hw) _ IH]; [reflexivity|].
    cbn [with_weights map]. rewrite Hx. cbn. rewrite IH. cbn. now rewrite Hw. }
  rewrite Hws. cbn. f_equal. clear. induction l as [|c l IH]; [reflexivity|].
  cbn [map fold_right].
  rewrite insert_by_weight_even.
  - cbn [map fst]. now rewrite IH.
  - clear. induction l as [|c' l IH]; [constructor|].
    cbn [map fold_right]. rewrite insert_by_weight_even by exact IH.
    constructor; [reflexivity|exact IH].
Qed.

Lemma even_weights_height (st : Store) :
  forall h n, even_weights st h n -> height_le st h n.
Proof.
  induction h as [|h IH]; intros n; [auto|].
  intros (nd & w & Hn & _ & Hcs). exists nd. split; [assumption|].
  eapply Forall_impl; [exact Hcs|exact IH].
Qed.

Lemma all_children_sorted_even (st : Store) :
  forall h fuel n, even_weights st h n -> h <= fuel ->
  all_children_sorted fuel st n = all_children fuel st n.
Proof.
  induction h as [|h IH]; intros fuel n Hh Hle; [destruct Hh|].
  destruct fuel as [|f]; [lia|].
  destruct Hh as (nd & w & Hn & Hw & Hcs).
  cbn [all_children_sorted all_children]. rewrite Hn. cbn.
  rewrite (sorted_even st w _ Hw). cbn.
  induction Hcs as [|c cs Hc _ IHcs]; [reflexivity|].
  cbn [fold_right]. rewrite (IH f c Hc) by lia.
  inversion Hw; subst. now rewrite IHcs.
Qed.

(** X20: with a budget that covers the depth of the tree [all_children]
    returns, what it yields are the objects below the node and no others,
    and [len] is their number; where the children of each node have equal
    weights, as they have until a weight is assigned,
    [all_children_sorted] yields the same sequence in the same order. *)
Theorem all_children_are_the_objects_below (st : Store) (h fuel : nat)
    (n : ident) :
  height_le st h n -> h <= fuel ->
  exists l,
    all_children fuel st n = Some l /\
    len fuel st n = Some (length l) /\
    (forall x, In x l <-> below st n x) /\
    (even_weights st h n -> all_children_sorted fuel st n = Some l).
Proof.
  intros Hh Hle.
  destruct (all_children_below st h fuel n Hh Hle) as (l & Hl & Hin).
  exists l. split; [assumption|].
  split; [unfold len; now rewrite Hl|].
  split; [assumption|].
  intros Hw. now rewrite (all_children_sorted_even st h fuel n Hw Hle).
Qed.

End Traversal.

Lemma tagged_store_even_weights : even_weights tagged_store 3 0.
Proof.
  cbn. eexists _, 0%Z. split; [reflexivity|].
  split; [repeat constructor; eexists; split; reflexivity|].
  repeat constructor. eexists _, 0%Z. split; [reflexivity|].
  split; [repeat constructor; eexists; split; reflexivity|].
  repeat constructor; (eexists _, 0%Z; split; [reflexivity|]);
    (split; constructor).
Qed.

Lemma all_children_are_the_objects_below_witness :
  exists l,
    all_children 3 tagged_store 0 = Some l /\
    len 3 tagged_store 0 = Some (length l) /\
    (forall x, In x l <-> below tagged_store 0 x) /\
    all_children_sorted 3 tagged_store 0 = Some l.
Proof.
  destruct (all_children_are_the_objects_below tagged_store 3 3 0)
    as (l & Hl & Hlen & Hin & Hsorted).
  - exact (even_weights_height _ _ _ tagged_store_even_weights).
  - lia.
  - exists l. split; [assumption|]. split; [assumption|].
    split; [assumption|]. exact (Hsorted tagged_store_even_weights).
Defined.

(** ** [add_children_deep]: a chain of new children *)

Section DeepChain.
Context {P : Platform}.

Lemma chain_unique (st : Store) (n : ident) (l : list ident) :
  ancestor_chain st n l -> forall l', ancestor_chain st n l' -> l = l'.
Proof.
  induction 1 as [n nd Hn Hr|n nd l Hn Hr _ IH]; intros l' H';
    inversion H' as [? y Hy Hry|? y l1 Hy Hry Hup]; subst;
    try congruence.
  assert (y = nd) by congruence. subst y. f_equal. now apply IH.
Qed.

(** In a store where children are younger than their parents, [lineage]
    returns the ancestor chain. *)
Lemma lineage_of_chain (st : Store) (n : ident) (l : list ident) :
  parents_older st -> n < length st -> ancestor_chain st n l ->
  lineage st n = Some l.
Proof.
  intros Hold Hn Hchain.
  destruct (lineage_from_total st Hold (length st) n Hn Hn) as [l' Hl'].
  unfold lineage. rewrite Hl'. f_equal.
  eapply chain_unique; [|exact Hchain]. eapply lineage_from_chain; eauto.
Qed.

Lemma chain_transfer (st st' : Store) :
  (forall i nd, st !! i = Some nd ->
     exists nd', st' !! i = Some nd' /\
       is_root nd' = is_root nd /\ parent nd' = parent nd) ->
  forall n l, ancestor_chain st n l -> ancestor_chain st' n l.
Proof.
  intros H n l. induction 1 as [n nd Hn Hr|n nd l Hn Hr _ IH].
  - destruct (H n nd Hn) as (nd' & Hn' & Hr' & _).
    eapply chain_root; [exact Hn'|congruence].
  - destruct (H n nd Hn) as (nd' & Hn' & Hr' & Hp').
    eapply chain_child; [exact Hn'|congruence|]. now rewrite Hp'.
Qed.

Lemma texts_of_app (st : Store) (l1 l2 : list ident) (t1 t2 : list string) :
  texts_of st l1 = Some t1 -> texts_of st l2 = Some t2 ->
  texts_of st (l1 ++ l2) = Some (t1 ++ t2).
Proof.
  revert t1. induction l1 as [|c l1 IH]; intros t1; cbn [texts_of app].
  - now intros [= <-].
  - destruct (text st c) as [t|]; [|discriminate]. cbn.
    destruct (texts_of st l1) as [ts|]; [|discriminate]. cbn.
    intros [= <-] H2. now rewrite (IH ts eq_refl H2).
Qed.

Lemma texts_of_ext (st st' : Store) (l : list ident) :
  Forall (fun c => text st' c = text st c) l ->
  texts_of st' l = texts_of st l.
Proof.
  induction 1 as [|c l Hc _ IH]; [reflexivity|].
  cbn [texts_of]. now rewrite Hc, IH.
Qed.

Lemma texts_of_seq (st : Store) :
  forall lines base,
  (forall j line, lines !! j = Some line ->
     text st (base + j) = Some (strip line)) ->
  texts_of st (seq base (length lines)) = Some (map strip lines).
Proof.
  induction lines as [|line rest IH]; intros base H; [reflexivity|].
  cbn [length seq texts_of map].
  pose proof (H 0 line eq_refl) as H0. rewrite Nat.add_0_r in H0.
  rewrite H0. cbn. rewrite (IH (S base)); [reflexivity|].
  intros j l Hj. specialize (H (S j) l Hj).
  now rewrite Nat.add_succ_r in H.
Qed.

Lemma deep_loop_parents_older (lines : list string) :
  forall st b b' st',
  parents_older st -> add_children_deep_loop b lines st = Ok b' st' ->
  parents_older st'.
Proof.
  induction lines as [|line rest IH]; intros st b b' st' Hold;
    cbn [add_children_deep_loop].
  - now intros [= _ <-].
  - unfold bind.
    destruct (add_child b line false false st) as [k st1|e st1|st1] eqn:Hadd;
      try discriminate.
    apply IH. eapply add_child_parents_older; eauto.
  Qed.

(** The loop under a base that has no child bearing the first line: every
    line gives a new object, the child of the one before. *)
Lemma deep_loop_fresh (lines : list string) :
  forall st b bd,
  st !! b = Some bd ->
  (forall line, head lines = Some line ->
     dict_mem line (children_dict bd) = false) ->
  Forall (fun line => line <> EmptyString) lines ->
  exists b' st',
    add_children_deep_loop b lines st = Ok b' st' /\
    length st' = length st + length lines /\
    (lines = [] -> b' = b) /\
    (lines <> [] -> S b' = length st + length lines) /\
    (forall i nd, st !! i = Some nd ->
       exists nd', st' !! i = Some nd' /\
         is_root nd' = is_root nd /\ parent nd' = parent nd /\
         _text nd' = _text nd /\ (i <> b -> nd' = nd)) /\
    (forall j line, lines !! j = Some line ->
       exists nd, st' !! (length st + j) = Some nd /\
         _text nd = strip line /\ is_root nd = false /\
         parent nd = match j with 0 => b | S j' => length st + j' end).
Proof.
  induction lines as [|line rest IH]; intros st b bd Hb Hfresh Hne;
    cbn [add_children_deep_loop].
  - exists b, st. split; [reflexivity|]. split; [cbn; lia|].
    split; [reflexivity|]. split; [congruence|].
    split; [intros i nd Hi; eauto 10|]. intros j line [=].
  - inversion Hne as [|? ? Hline Hrest]; subst.
    pose proof (lookup_Some_lt _ _ _ Hb) as Hblt.
    set (k := length st).
    set (nd1 := with_children_dict (dict_set line k (children_dict bd))
                  (append_child k bd)).
    set (st1 := store_with_child st b line nd1).
    assert (Hadd : add_child b line false false st = Ok k st1).
    { apply add_child_fresh; auto. }
    rewrite (bind_ok _ _ _ _ _ Hadd).
    assert (Hk1 : st1 !! k = Some (new_HConfigChild b line)).
    { now apply store_with_child_new. }
    assert (Hlen1 : length st1 = S (length st)).
    { unfold st1, store_with_child. rewrite length_insert, length_app.
      cbn. lia. }
    destruct (IH st1 k (new_HConfigChild b line) Hk1)
      as (b' & st' & Hrun & Hlen & Hnil & Hlast & Hold & Hnew);
      [intros l _; reflexivity|assumption|].
    exists b', st'. split; [assumption|].
    split; [cbn [length]; lia|]. split; [discriminate|].
    split.
    { intros _. destruct rest as [|l2 rest'].
      - rewrite (Hnil eq_refl). cbn [length]. unfold k. lia.
      - assert (Hr : l2 :: rest' <> []) by discriminate.
        specialize (Hlast Hr). cbn [length] in *. lia. }
    split.
    { intros i nd Hi.
      pose proof (lookup_Some_lt _ _ _ Hi) as Hilt.
      destruct (decide (i = b)) as [->|Hib].
      - assert (nd = bd) by congruence. subst nd.
        destruct (Hold b nd1 (store_with_child_parent st b line nd1 Hblt))
          as (nd' & Hnd' & Hr & Hp & Ht & _).
        exists nd'. split; [assumption|].
        split; [now rewrite Hr|]. split; [now rewrite Hp|].
        split; [now rewrite Ht|]. intros Hcontra. contradiction.
      - assert (Hi1 : st1 !! i = Some nd).
        { unfold st1. rewrite store_with_child_other by assumption.
          exact Hi. }
        destruct (Hold i nd Hi1) as (nd' & Hnd' & Hr & Hp & Ht & Hsame).
        exists nd'. split; [assumption|]. split; [assumption|].
        split; [assumption|]. split; [assumption|].
        intros _. apply Hsame. unfold k. lia. }
    intros j l Hj. destruct j as [|j].
    + injection Hj as <-.
      destruct (Hold k _ Hk1) as (nd' & Hnd' & Hr & Hp & Ht & _).
      exists nd'. rewrite Nat.add_0_r. split; [exact Hnd'|].
      split; [now rewrite Ht|]. split; [now rewrite Hr|]. now rewrite Hp.
    + destruct (Hnew j l Hj) as (nd' & Hnd' & Ht & Hr & Hp).
      exists nd'. rewrite Hlen1 in Hnd', Hp. fold k in Hnd', Hp.
      replace (k + S j) with (S k + j) by lia.
      split; [assumption|]. split; [assumption|]. split; [assumption|].
      rewrite Hp. destruct j as [|j']; lia.
Qed.

(** X21: [add_children_deep] with lines that are not empty, under a node
    whose index has no key equal to the first line, in a store where every
    child is younger than its parent: every line gives a new object, the
    child of the one before; the last one is returned, its lineage is the
    one of the node followed by the new objects, and its path is the one of
    the node followed by the lines, each without the white space at its
    ends.  Without lines an [HConfig] raises [TypeError] and an
    [HConfigChild] returns itself. *)
Theorem add_children_deep_builds_a_chain (st : Store) (r : ident)
    (rd : HConfigNode) (line : string) (rest : list string) :
  parents_older st -> st !! r = Some rd ->
  dict_mem line (children_dict rd) = false ->
  Forall (fun l => l <> EmptyString) (line :: rest) ->
  exists l_r ts_r st',
    lineage st r = Some l_r /\ path st r = Some ts_r /\
    add_children_deep r (line :: rest) st
      = Ok (length st + length rest) st' /\
    lineage st' (length st + length rest)
      = Some (l_r ++ seq (length st) (S (length rest))) /\
    path st' (length st + length rest)
      = Some (ts_r ++ map strip (line :: rest)) /\
    (forall i, i < length st -> i <> r -> st' !! i = st !! i) /\
    add_children_deep r [] st
      = if is_root rd then Raise TypeError st else Ok r st.
Proof.
  intros Hold Hr Hfresh Hne.
  pose proof (lookup_Some_lt _ _ _ Hr) as Hrlt.
  destruct (lineage_from_total st Hold (length st) r Hrlt Hrlt) as [l_r Hl].
  fold (lineage st r) in Hl.
  pose proof (lineage_from_chain _ _ _ _ Hl) as Hchain.
  destruct (texts_of_total st l_r (chain_nodes_exist _ _ _ Hchain))
    as (ts_r & Hts & _).
  destruct (deep_loop_fresh (line :: rest) st r rd Hr)
    as (b & st' & Hrun & Hlen & _ & Hlast & Hkept & Hnew);
    [now intros l [= <-]|assumption|].
  assert (Hb : b = length st + length rest).
  { assert (Hcons : line :: rest <> []) by discriminate.
    specialize (Hlast Hcons). cbn [length] in Hlast. lia. }
  subst b. cbn [length] in Hlen.
  pose proof (deep_loop_parents_older _ _ _ _ _ Hold Hrun) as Hold'.
  assert (Hchain_r : ancestor_chain st' r l_r).
  { apply (chain_transfer st); [|assumption].
    intros i nd Hi. destruct (Hkept i nd Hi) as (nd' & ? & ? & ? & _).
    eauto. }
  assert (Hchains : forall j, j < S (length rest) ->
            ancestor_chain st' (length st + j)
                           (l_r ++ seq (length st) (S j))).
  { induction j as [|j IHj]; intros Hj.
    - destruct (lookup_lt_is_Some_2 (line :: rest) 0) as [l0 Hl0];
        [cbn; lia|].
      destruct (Hnew 0 l0 Hl0) as (nd & Hnd & _ & Hroot & Hpar).
      cbn [seq]. rewrite Nat.add_0_r in *.
      eapply chain_child; [exact Hnd|exact Hroot|]. now rewrite Hpar.
    - destruct (lookup_lt_is_Some_2 (line :: rest) (S j)) as [l0 Hl0];
        [cbn [length]; lia|].
      destruct (Hnew (S j) l0 Hl0) as (nd & Hnd & _ & Hroot & Hpar).
      rewrite (seq_S (S j) (length st)), app_assoc.
      eapply chain_child; [exact Hnd|exact Hroot|].
      rewrite Hpar. apply IHj. lia. }
  assert (Hlin : lineage st' (length st + length rest)
                 = Some (l_r ++ seq (length st) (S (length rest)))).
  { apply lineage_of_chain; [assumption|lia|]. apply Hchains. lia. }
  exists l_r, ts_r, st'. split; [assumption|].
  split; [unfold path; now rewrite Hl|].
  split.
  { unfold add_children_deep. rewrite (bind_get_node _ _ _ _ Hr).
    rewrite (bind_ok _ _ _ _ _ Hrun).
    destruct (is_root rd); [|reflexivity].
    destruct (lookup_lt_is_Some_2 (line :: rest) (length rest)) as [l0 Hl0];
      [cbn [length]; lia|].
    destruct (Hnew (length rest) l0 Hl0) as (nd & Hnd & _ & Hroot & _).
    rewrite (bind_get_node _ _ _ _ Hnd). now rewrite Hroot. }
  split; [assumption|].
  split.
  { unfold path. rewrite Hlin. cbn.
    apply texts_of_app.
    - rewrite (texts_of_ext st st'); [assumption|].
      eapply Forall_impl; [exact (chain_nodes_exist _ _ _ Hchain)|].
      intros c [x Hx]. unfold text.
      destruct (Hkept c x Hx) as (x' & -> & _ & _ & Ht & _).
      rewrite Hx. cbn. now rewrite Ht.
    - apply (texts_of_seq st' (line :: rest)).
      intros j l Hj. destruct (Hnew j l Hj) as (nd & Hnd & Ht & _).
      unfold text. rewrite Hnd. cbn. now rewrite Ht. }
  split.
  { intros i Hi Hir.
    destruct (lookup_lt_is_Some_2 st i Hi) as [nd Hnd].
    destruct (Hkept i nd Hnd) as (nd' & Hnd' & _ & _ & _ & Hsame).
    rewrite Hnd', Hnd. f_equal. now apply Hsame. }
  unfold add_children_deep. rewrite (bind_get_node _ _ _ _ Hr).
  cbn [add_children_deep_loop]. unfold bind at 1, ret.
  destruct (is_root rd) eqn:Hroot; [|reflexivity].
  rewrite (bind_get_node _ _ _ _ Hr). now rewrite Hroot.
Qed.

End DeepChain.

Lemma add_children_deep_builds_a_chain_witness :
  exists l_r ts_r st',
    lineage vlan_store 1 = Some l_r /\ path vlan_store 1 = Some ts_r /\
    add_children_deep (P:=generic_platform) 1 [" ip address 1 "; "x"]
      vlan_store = Ok (3 + 1) st' /\
    lineage st' (3 + 1) = Some (l_r ++ seq 3 2) /\
    path st' (3 + 1) = Some (ts_r ++ map strip [" ip address 1 "; "x"]) /\
    (forall i, i < 3 -> i <> 1 -> st' !! i = vlan_store !! i) /\
    add_children_deep (P:=generic_platform) 1 [] vlan_store
      = if false then Raise TypeError vlan_store else Ok 1 vlan_store.
Proof.
  apply (add_children_deep_builds_a_chain (P:=generic_platform) vlan_store 1
           (mkNode false 0 "interface Vlan2" 0 [2] [("shutdown", 2)] [] []
                   false 0%Z [])
           " ip address 1 " ["x"]).
  - exact vlan_store_parents_older.
  - reflexivity.
  - reflexivity.
  - repeat constructor; discriminate.
Defined.

(** ** [add_children] on an [HConfig] keeps the texts apart *)

Section AddChildren.
Context {P : Platform}.

(** One [add_child] on a tidy [HConfig]. *)
Lemma add_child_tidy (st : Store) (r : ident) (rd : HConfigNode)
    (t : string) :
  st !! r = Some rd -> tidy_root st rd ->
  t <> EmptyString -> strip t = t ->
  exists c st' rd',
    add_child r t false false st = Ok c st' /\
    st' !! r = Some rd' /\ tidy_root st' rd' /\
    text st' c = Some t /\ In c (children rd') /\
    (forall u, child_text st' rd' u <-> child_text st rd u \/ u = t) /\
    (exists more, children rd' = children rd ++ more) /\
    (child_text st rd t -> st' = st) /\
    (forall i nd, st !! i = Some nd -> i <> r -> st' !! i = Some nd).
Proof.
  intros Hr (Hroot & Hok & Hidx & Hnd) Ht Hs.
  destruct (dict_mem t (children_dict rd)) eqn:Hm.
  - apply dict_mem_get in Hm as [c Hc].
    assert (Hcheck : _duplicate_child_allowed_check st r = Some false).
    { unfold _duplicate_child_allowed_check. rewrite Hr. cbn.
      now rewrite Hroot. }
    pose proof (add_child_existing st r rd t false c Hr Ht Hc Hcheck) as Hrun.
    rewrite (Hidx t) in Hc.
    destruct (first_with_text_split _ _ _ _ Hc)
      as (pre & post & x & Hsplit & Hx & Hxt & _).
    assert (Hin : In c (children rd)).
    { rewrite Hsplit. apply in_or_app. right. now left. }
    assert (Htc : text st c = Some t).
    { unfold text. rewrite Hx. cbn. now rewrite Hxt. }
    exists c, st, rd. split; [assumption|]. split; [assumption|].
    split; [repeat split; assumption|]. split; [assumption|].
    split; [assumption|]. split.
    { intros u. split; [auto|]. intros [Hu| ->]; [assumption|].
      exists c. auto. }
    split; [exists []; now rewrite app_nil_r|]. split; [reflexivity|]. auto.
  - pose proof (lookup_Some_lt _ _ _ Hr) as Hrlt.
    pose proof (add_child_fresh st r rd t false false Hr Ht Hm) as Hrun.
    destruct (add_child_keeps_index st r rd t false false Hr Hok Hidx Ht Hs Hm)
      as (st' & rd' & Hrun' & Hr' & Hch & Hidx').
    rewrite Hrun in Hrun'. injection Hrun' as <-.
    rewrite store_with_child_parent in Hr' by assumption.
    injection Hr' as <-.
    set (rd' := with_children_dict (dict_set t (length st) (children_dict rd))
                  (append_child (length st) rd)) in *.
    set (st' := store_with_child st r t rd') in *.
    assert (Hnone : first_with_text st (children rd) t = None).
    { rewrite <- (Hidx t).
      destruct (dict_get t (children_dict rd)) as [v|] eqn:Hv; [|reflexivity].
      assert (dict_mem t (children_dict rd) = true)
        by (apply dict_mem_get; eauto).
      congruence. }
    assert (Hold : forall i x, st !! i = Some x ->
              exists x', st' !! i = Some x' /\
                _text x' = _text x /\ is_root x' = is_root x).
    { intros i x Hi.
      apply (store_with_child_old st r t rd rd' i x Hr); auto. }
    assert (Hnew : st' !! length st = Some (new_HConfigChild r t)).
    { now apply store_with_child_new. }
    assert (Htexts : forall c, In c (children rd) ->
              text st' c = text st c).
    { intros c Hc. unfold children_ok in Hok. rewrite List.Forall_forall in Hok.
      destruct (Hok c Hc) as (x & Hx & _).
      destruct (Hold c x Hx) as (x' & Hx' & Hxt & _).
      unfold text. rewrite Hx', Hx. cbn. now rewrite Hxt. }
    assert (Htnew : text st' (length st) = Some t).
    { unfold text. rewrite Hnew. cbn. now rewrite Hs. }
    exists (length st), st', rd'. split; [assumption|].
    split; [now apply store_with_child_parent|].
    split; [split; [assumption|split; [|split; [assumption|]]]|].
    { unfold children_ok. rewrite Hch. apply Forall_app. split.
      - eapply Forall_impl; [exact Hok|]. intros c (x & Hx & Hxr).
        destruct (Hold c x Hx) as (x' & Hx' & _ & Hr'). exists x'.
        split; [assumption|congruence].
      - repeat constructor. eexists. split; [exact Hnew|reflexivity]. }
    { rewrite Hch, map_app. apply NoDup_app. split; [|split].
      - erewrite map_ext_in; [exact Hnd|]. intros c Hc. now apply Htexts.
      - intros o Ho Hin. cbn in Hin. apply list_elem_of_singleton in Hin.
        subst o. rewrite Htnew in Ho.
        apply list_elem_of_In, in_map_iff in Ho as (c & Hc & Hin).
        rewrite Htexts in Hc by assumption.
        pose proof (first_with_text_none _ _ _ Hnone) as Hall.
        unfold children_ok in Hok. rewrite List.Forall_forall in Hall, Hok.
        destruct (Hok c Hin) as (x & Hx & _).
        unfold text in Hc. rewrite Hx in Hc. cbn in Hc.
        injection Hc as Hc. exact (Hall c Hin x Hx Hc).
      - cbn. apply NoDup_singleton. }
    split; [assumption|].
    split; [rewrite Hch; apply in_or_app; right; now left|].
    split.
    { intros u. unfold child_text. rewrite Hch. split.
      - intros (c & Hc & Hu). apply in_app_or in Hc as [Hc|[<-|[]]].
        + left. exists c. split; [assumption|].
          now rewrite <- Htexts.
        + right. congruence.
      - intros [(c & Hc & Hu)| ->].
        + exists c. split; [apply in_or_app; now left|].
          now rewrite Htexts.
        + exists (length st). split; [apply in_or_app; right; now left|].
          assumption. }
    split; [eauto|]. split.
    { intros (c & Hc & Hu). exfalso.
      pose proof (first_with_text_none _ _ _ Hnone) as Hall.
      unfold children_ok in Hok. rewrite List.Forall_forall in Hall, Hok.
      destruct (Hok c Hc) as (x & Hx & _).
      unfold text in Hu. rewrite Hx in Hu. cbn in Hu.
      injection Hu as Hu. exact (Hall c Hc x Hx Hu). }
    intros i nd Hi Hne. unfold st'.
    rewrite store_with_child_other; [assumption| |assumption].
    eapply lookup_Some_lt; eauto.
Qed.

(** X22: [add_children] on an [HConfig] whose index agrees with its child
    list and whose children are [HConfigChild] objects bearing texts that
    differ from each other, with lines that are not empty and that [strip]
    leaves as they are: the call returns, the children still bear texts that
    differ from each other, the index still agrees with the child list, the
    children there were come first in their order, and the texts of the
    children are those there were and the lines.  When every line is the
    text of a child already, nothing is changed. *)
Theorem add_children_keeps_texts_apart (lines : list string) :
  forall (st : Store) (r : ident) (rd : HConfigNode),
  st !! r = Some rd -> tidy_root st rd ->
  Forall (fun l => l <> EmptyString /\ strip l = l) lines ->
  exists st' rd',
    add_children r lines st = Ok tt st' /\
    st' !! r = Some rd' /\ tidy_root st' rd' /\
    (forall u, child_text st' rd' u <-> child_text st rd u \/ In u lines) /\
    (exists more, children rd' = children rd ++ more) /\
    ((forall l, In l lines -> child_text st rd l) -> st' = st) /\
    (forall i nd, st !! i = Some nd -> i <> r -> st' !! i = Some nd).
Proof.
  unfold add_children.
  induction lines as [|line rest IH]; intros st r rd Hr Htidy Hlines;
    cbn [for_each].
  - exists st, rd. split; [reflexivity|]. split; [assumption|].
    split; [assumption|]. split; [intros u; cbn [In]; tauto|].
    split; [exists []; now rewrite app_nil_r|]. auto.
  - inversion Hlines as [|? ? [Hne Hs] Hrest]; subst.
    destruct (add_child_tidy st r rd line Hr Htidy Hne Hs)
      as (c & st1 & rd1 & Hrun & Hr1 & Htidy1 & _ & _ & Htexts1 & [m1 Hm1]
          & Hsame1 & Hold1).
    destruct (IH st1 r rd1 Hr1 Htidy1 Hrest)
      as (st' & rd' & Hrun' & Hr' & Htidy' & Htexts' & [m2 Hm2] & Hsame'
          & Hold').
    exists st', rd'. split.
    { erewrite bind_ok; [exact Hrun'|].
      now rewrite (bind_ok _ _ _ _ _ Hrun). }
    split; [assumption|]. split; [assumption|]. split.
    { intros u. rewrite Htexts', Htexts1. cbn [In]. intuition. }
    split; [exists (m1 ++ m2); now rewrite Hm2, Hm1, app_assoc|].
    split.
    { intros Hall. assert (st1 = st) by (apply Hsame1, Hall; now left).
      subst st1. assert (rd1 = rd) by congruence. subst rd1.
      apply Hsame'. intros l Hl. apply Hall. now right. }
    intros i nd Hi Hne'. apply Hold'; [|assumption]. now apply Hold1.
Qed.

End AddChildren.

Lemma two_roots_tidy :
  tidy_root two_roots
    (mkNode true 0 "" 0 [1; 2] [("a", 1); ("b", 2)] [] [] false 0%Z []).
Proof.
  split; [reflexivity|]. split; [exact two_roots_children_ok|].
  split; [exact two_roots_index_agrees|].
  cbn. apply NoDup_cons_2.
  - intros H. apply list_elem_of_singleton in H. discriminate.
  - apply NoDup_singleton.
Qed.

Lemma add_children_keeps_texts_apart_witness :
  let rd := mkNode true 0 "" 0 [1; 2] [("a", 1); ("b", 2)] [] [] false 0%Z []
  in
  exists st' rd',
    add_children (P:=generic_platform) 0 ["b"; "c"; "c"] two_roots
      = Ok tt st' /\
    st' !! 0 = Some rd' /\ tidy_root st' rd' /\
    (forall u, child_text st' rd' u <->
       child_text two_roots rd u \/ In u ["b"; "c"; "c"]) /\
    (exists more, children rd' = children rd ++ more) /\
    ((forall l, In l ["b"; "c"; "c"] -> child_text two_roots rd l) ->
     st' = two_roots) /\
    (forall i nd, two_roots !! i = Some nd -> i <> 0 -> st' !! i = Some nd).
Proof.
  apply (add_children_keeps_texts_apart (P:=generic_platform)
           ["b"; "c"; "c"] two_roots 0).
  - reflexivity.
  - exact two_roots_tidy.
  - repeat constructor; discriminate.
Defined.

(** ** [==] on a tree *)

Section Equality.

Lemma insert_by_weight_In (x y : ident * Z) (l : list (ident * Z)) :
  In y (insert_by_weight x l) <-> y = x \/ In y l.
Proof.
  induction l as [|z l IH]; cbn [insert_by_weight In]; [intuition|].
  destruct (snd z <? snd x)%Z; cbn [In]; [rewrite IH|]; intuition.
Qed.

Lemma sorted_total (st : Store) (l : list ident) :
  Forall (fun c => is_Some (st !! c)) l ->
  exists s, sorted st l = Some s /\ forall c, In c s <-> In c l.
Proof.
  intros H. unfold sorted.
  assert (Hws : exists ws, with_weights st l = Some ws /\ map fst ws = l).
  { induction H as [|c l [x Hx] _ (ws & Hws & Hfst)].
    - exists []. split; reflexivity.
    - exists ((c, order_weight x) :: ws). cbn [with_weights].
      rewrite Hx. cbn. rewrite Hws. cbn. split; [reflexivity|].
      cbn. now rewrite Hfst. }
  destruct Hws as (ws & -> & Hfst). cbn. eexists. split; [reflexivity|].
  intros c. rewrite <- Hfst, !in_map_iff.
  assert (Hin : forall y, In y (fold_right insert_by_weight [] ws) <->
                          In y ws).
  { clear. induction ws as [|z ws IH]; intros y; [reflexivity|].
    cbn [fold_right]. rewrite insert_by_weight_In, IH. cbn [In].
    intuition. }
  split; intros (y & Hy & Hyin); exists y; (split; [assumption|]);
    now apply Hin.
Qed.

Lemma set_eq_refl (s : list string) : set_eq s s = true.
Proof.
  unfold set_eq.
  assert (H : set_subset s s = true).
  { unfold set_subset. apply forallb_forall. intros x Hx.
    now apply set_mem_In. }
  now rewrite H.
Qed.

Lemma all_opt_diagonal (f : nat) (st : Store) (s : list ident) :
  (forall c, In c s -> node_eq f st c c = Some true) ->
  all_opt (fun xy => node_eq f st (fst xy) (snd xy)) (combine s s)
    = Some true.
Proof.
  induction s as [|c s IH]; intros H; [reflexivity|].
  cbn [combine all_opt fst snd]. rewrite (H c (or_introl eq_refl)).
  apply IH. intros c' Hc'. apply H. now right.
Qed.

(** X23: a tree is [==] to itself: with a budget beyond the depth of the
    tree the comparison of a node with itself returns [True], for an
    [HConfig] and for an [HConfigChild], whatever the weights, tags and
    comments are. *)
Theorem node_eq_reflexive (st : Store) :
  forall h fuel n, height_le st h n -> h < fuel ->
  node_eq fuel st n n = Some true.
Proof.
  induction h as [|h IH]; intros fuel n Hh Hlt; [destruct Hh|].
  destruct fuel as [|f]; [lia|].
  pose proof Hh as (nd & Hn & Hcs).
  cbn [node_eq]. rewrite Hn. cbn.
  rewrite Nat.eqb_refl. cbn [negb].
  assert (Hex : Forall (fun c => is_Some (st !! c)) (children nd)).
  { eapply Forall_impl; [exact Hcs|]. intros c Hc.
    destruct h; [destruct Hc|]. destruct Hc as (x & Hx & _). eauto. }
  destruct (sorted_total st (children nd) Hex) as (s & Hs & Hin).
  rewrite Hs. cbn.
  assert (Hkids : all_opt (fun xy => node_eq f st (fst xy) (snd xy))
                          (combine s s) = Some true).
  { apply all_opt_diagonal. intros c Hc. apply IH; [|lia].
    rewrite List.Forall_forall in Hcs. apply Hcs. now apply Hin. }
  destruct (is_root nd); [exact Hkids|].
  rewrite String.eqb_refl. cbn [negb].
  destruct (tags_total st (S h) f n Hh) as [ts Hts]; [lia|].
  rewrite Hts. cbn. rewrite !set_eq_refl. cbn [negb].
  destruct (new_in_config nd); exact Hkids.
Qed.

End Equality.

Lemma node_eq_reflexive_witness : node_eq 4 tagged_store 0 0 = Some true.
Proof.
  apply (node_eq_reflexive tagged_store 3 4 0).
  - cbn. eexists. split; [reflexivity|].
    repeat constructor. eexists. split; [reflexivity|].
    repeat constructor; (eexists; split; [reflexivity|constructor]).
  - lia.
Defined.
(** ** Remediation that has a line to remove *)

Lemma bind_raise {A B} (m : M A) (k : A -> M B) (st st' : Store) (e : exn) :
  m st = Raise e st' -> bind m k st = Raise e st'.
Proof. intros H. unfold bind. now rewrite H. Qed.

Section FirstNegation.
Context {P : Platform}.

(** X24: remediation stops at the first line it has to remove.  Under
    drivers without replacement texts, default-on-negation rules and
    idempotent commands, for a tree whose first top-level child bears a
    non-empty text that is no key of the index of the target,
    [config_to_get_to] raises [AttributeError]: the line is inserted into
    the new [HConfig] and [negate] fails on it, which leaves the line there
    as it was inserted.  Every object that existed is as it was. *)
Theorem config_to_get_to_stops_at_first_negation (st : Store) (T E : ident)
    (td ed x : HConfigNode) (c : ident) (cs : list ident) (fuel : nat) :
  st !! T = Some td -> st !! E = Some ed ->
  (forall i, plain_driver (drivers i)) -> parents_older st ->
  children td = c :: cs -> st !! c = Some x ->
  _text x <> EmptyString -> dict_mem (_text x) (children_dict ed) = false ->
  0 < fuel ->
  exists st' nd,
    config_to_get_to fuel T E st = Raise AttributeError st' /\
    length st' = S (S (length st)) /\
    st' !! length st = Some nd /\
    is_root nd = true /\ children nd = [S (length st)] /\
    st' !! S (length st) = Some (new_HConfigChild (length st) (_text x)) /\
    forall i, i < length st -> st' !! i = st !! i.
Proof.
  intros HT HE Hplain Hold Hch Hc Hne Hm Hfuel.
  destruct fuel as [|f]; [lia|].
  set (root := new_HConfig (length st) (_driver td)).
  set (W0 := st ++ [root]).
  assert (Hsame0 : forall i, i < length st -> W0 !! i = st !! i).
  { intros i Hi. now apply lookup_alloc_old. }
  pose proof (lookup_Some_lt _ _ _ HT) as HTlt.
  pose proof (lookup_Some_lt _ _ _ HE) as HElt.
  pose proof (lookup_Some_lt _ _ _ Hc) as Hclt.
  assert (HT0 : W0 !! T = Some td) by (now rewrite Hsame0).
  assert (HE0 : W0 !! E = Some ed) by (now rewrite Hsame0).
  assert (Hc0 : W0 !! c = Some x) by (now rewrite Hsame0).
  assert (Hd0 : W0 !! length st = Some root) by apply lookup_alloc_new.
  assert (Hlen0 : length W0 = S (length st)).
  { unfold W0. rewrite length_app. cbn. lia. }
  assert (Htext : text W0 c = Some (_text x)).
  { unfold text. now rewrite Hc0. }
  assert (Hidem : is_idempotent_command W0 c (children ed) = Some false).
  { unfold is_idempotent_command.
    destruct (driver_below (length st) W0 c) as [dc Hdc];
      [|assumption|now rewrite Hc0|].
    { intros i nd Hi Hnd Hr. rewrite Hsame0 in Hnd by assumption.
      exact (Hold i nd Hnd Hr). }
    rewrite Hdc. cbn.
    assert (Hpl : plain_driver dc).
    { unfold driver in Hdc.
      destruct (root_of (length W0) W0 c) as [r0|]; [|discriminate].
      cbn in Hdc.
      destruct (W0 !! r0) as [rd0|]; [|discriminate].
      injection Hdc as <-. apply Hplain. }
    destruct Hpl as (_ & -> & Hacl & Hfor). cbn.
    now rewrite Hacl, Hfor. }
  set (k := length W0).
  set (dn1 := with_children_dict (dict_set (_text x) k (children_dict root))
                (append_child k root)).
  set (S1 := store_with_child W0 (length st) (_text x) dn1).
  assert (Hadd : add_child (length st) (_text x) false false W0 = Ok k S1).
  { apply add_child_fresh; [assumption|assumption|reflexivity]. }
  assert (Hk1 : S1 !! k = Some (new_HConfigChild (length st) (_text x))).
  { apply store_with_child_new. unfold k. lia. }
  assert (Hd1 : S1 !! (length st) = Some dn1).
  { apply store_with_child_parent. unfold k. lia. }
  assert (Hlen1 : length S1 = S (S (length st))).
  { unfold S1, store_with_child. rewrite length_insert, length_app.
    cbn. lia. }
  assert (Hdriver1 : driver S1 k = Some (drivers (_driver td))).
  { unfold driver. rewrite Hlen1. cbn [root_of]. rewrite Hk1. cbn.
    rewrite Hd1. cbn. now rewrite Hd1. }
  destruct (Hplain (_driver td)) as ((Hnone & Hrules) & _).
  assert (Hdflt : negation_default_when_check S1 k k = Some false).
  { unfold negation_default_when_check. rewrite Hdriver1. cbn.
    now rewrite Hrules. }
  pose proof (negate_without_replacement S1 k _ _ false Hk1 Hdriver1
                (or_introl (Hnone S1 k)) Hdflt) as Hneg.
  assert (Hleft : _config_to_get_to_left T E (length st) W0
                  = Raise AttributeError S1).
  { unfold _config_to_get_to_left. rewrite (bind_get_node _ _ _ _ HT0).
    rewrite Hch. cbn [for_each]. apply bind_raise.
    rewrite (bind_read _ _ _ _ Htext).
    rewrite (bind_get_node _ _ _ _ HE0). rewrite Hm.
    rewrite (bind_read _ _ _ _ Hidem). cbv iota.
    rewrite (bind_read _ _ _ _ Htext).
    rewrite (bind_ok _ _ _ _ _ Hadd).
    now apply bind_raise. }
  exists S1, dn1. split.
  { unfold config_to_get_to. rewrite (bind_get_node _ _ _ _ HT).
    unfold bind at 1, alloc. fold root. fold W0.
    cbn [_config_to_get_to]. now apply bind_raise. }
  split; [assumption|]. split; [assumption|].
  split; [reflexivity|]. split; [cbn; f_equal; exact Hlen0|].
  split; [unfold k in Hk1; now rewrite Hlen0 in Hk1|].
  intros i Hi. unfold S1.
  rewrite store_with_child_other by (rewrite ?Hlen0; lia).
  now apply Hsame0.
Qed.

End FirstNegation.

Lemma generic_drivers_plain :
  forall i, plain_driver (drivers (Platform:=generic_platform) i).
Proof. intros i. repeat split. Qed.

(** From the root [0] of [two_roots] to the empty root [3]. *)
Lemma config_to_get_to_stops_at_first_negation_witness :
  exists st' nd,
    config_to_get_to (P:=generic_platform) 1 0 3 two_roots
      = Raise AttributeError st' /\
    length st' = 6 /\
    st' !! 4 = Some nd /\
    is_root nd = true /\ children nd = [5] /\
    st' !! 5 = Some (new_HConfigChild 4 "a") /\
    forall i, i < 4 -> st' !! i = two_roots !! i.
Proof.
  apply (config_to_get_to_stops_at_first_negation (P:=generic_platform)
           two_roots 0 3
           (mkNode true 0 "" 0 [1; 2] [("a", 1); ("b", 2)] [] [] false 0%Z [])
           (mkNode true 0 "" 3 [] [] [] [] false 0%Z [])
           (mkNode false 0 "a" 0 [] [] [] [] false 0%Z []) 1 [2] 1).
  - reflexivity.
  - reflexivity.
  - exact generic_drivers_plain.
  - intros i nd Hi Hr.
    destruct i as [|[|[|[|i]]]]; cbn in Hi; try discriminate;
      injection Hi as <-; cbn in *; solve [discriminate | lia].
  - reflexivity.
  - reflexivity.
  - discriminate.
  - reflexivity.
  - lia.
Defined.
